(** * chiavdf_fast_fallback: the portable "slow" prover behind the chiavdf fast C API

    A shallow embedding of
    [crates/chiavdf-fast/native/chiavdf_fast_fallback.cpp]: the checkpointed
    squaring loop, the parameter clamp, the result validation, the output
    encoding, the thread-local diagnostics and the exported entry points.

    The chiavdf library itself (discriminant creation, forms, squaring,
    reduction, the Wesolowski proof, serialization, the parameter heuristic)
    is a dependency of the file, so it appears here as the variables of a
    section; each of its functions may raise a C++ exception.

    Conventions.
    - [uint64_t] and [size_t] are 64-bit and wrap around; [int] is 32-bit.
    - A [const uint8_t*] is an [option (list byte)]: [None] is [nullptr],
      [Some mem] points to the bytes [mem]; the size travels separately, as in
      the C signature.
    - Every call of a library function is recorded in a trace, tagged with
      the calling thread, so that the order of the calls can be stated.
    - Memory exhaustion ([std::bad_alloc]) is not modelled. *)

From Stdlib Require Import ZArith Lia Bool List.
From Stdlib Require Import Init.Byte Strings.Byte.
From stdpp Require Import base numbers option list sorting gmap.

Local Open Scope Z_scope.

(** ** Machine integers *)

Definition UINT64_MAX : Z := 2 ^ 64 - 1.
Definition INT_MAX : Z := 2 ^ 31 - 1.

(** Arithmetic on [uint64_t] is modulo 2^64. *)
Definition wrap_u64 (z : Z) : Z := z mod 2 ^ 64.

(** [static_cast<int>] and the result of an [int] operation: two's
    complement on 32 bits. *)
Definition to_int (z : Z) : Z := (z + 2 ^ 31) mod 2 ^ 32 - 2 ^ 31.

(** [static_cast<uint32_t>]. *)
Definition to_uint32 (z : Z) : Z := z mod 2 ^ 32.

(** The values of an [int]. *)
Definition is_int (z : Z) : Prop := - 2 ^ 31 <= z <= INT_MAX.

(** [k * l] on [int]. Where the product fits an [int] this is the value
    C++ defines. Beyond that the signed multiplication overflows, which C++
    leaves undefined: [int_mul] then takes the two's complement value, and a
    property that rests on the product is stated under the hypothesis
    [k * l <= INT_MAX]. *)
Definition int_mul (x y : Z) : Z := to_int (x * y).

(** The mathematical ceiling of [n / d], for [d > 0]. *)
Definition ceil_div (n d : Z) : Z := (n + d - 1) / d.

(** ** Data *)

(** chiavdf's [form]: a binary quadratic form (a, b, c). *)
Record form : Type := mk_form { form_a : Z; form_b : Z; form_c : Z }.

(** A default-constructed [form], as [std::vector<form>(n)] makes them. *)
Definition form_default : form := mk_form 0 0 0.

Global Instance form_eq_dec : EqDecision form.
Proof. solve_decision. Defined.

Global Instance byte_eq_decision : EqDecision byte := Byte.byte_eq_dec.

(** [ChiavdfByteArray]: [data] is [None] for [nullptr]. *)
Record ChiavdfByteArray : Type := mk_byte_array {
  ba_data : option (list byte);
  ba_length : Z
}.

Definition empty_result : ChiavdfByteArray := mk_byte_array None 0.

Definition is_null {A} (p : option A) : bool :=
  match p with None => true | Some _ => false end.

(** The [n] bytes found at [p]. *)
Definition read_bytes (p : option (list byte)) (n : Z) : list byte :=
  match p with
  | Some mem => take (Z.to_nat n) mem
  | None => []
  end.

Record LastStreamingParameters : Type := mk_params {
  lsp_k : Z;
  lsp_l : Z;
  lsp_tuned : bool;
  lsp_set : bool
}.

Record LastStreamingStats : Type := mk_stats {
  checkpoint_total_ns : Z;
  checkpoint_event_total_ns : Z;
  finalize_total_ns : Z;
  checkpoint_calls : Z;
  bucket_updates : Z;
  lss_set : bool
}.

(** The member initialisers of the two structs. *)
Definition params_init : LastStreamingParameters := mk_params 0 0 false false.
Definition stats_init : LastStreamingStats := mk_stats 0 0 0 0 0 false.

(** ** Calls recorded in the trace *)

Inductive event : Type :=
| EvInitRuntime
| EvCreateDiscriminant (seed : list byte) (bits : Z)
| EvRoot (x : Z) (n : Z)
| EvDeserializeForm (D : Z) (bytes : list byte)
| EvFromAbd (a b D : Z)
| EvApproximateParameters (T : Z)
| EvNudupl (f : form) (D L : Z)
| EvReduce (f : form)
| EvProgress (cb : nat) (done : Z) (user_data : Z)
| EvGenerateWesolowski (y x : form) (D : Z) (intermediates : list form) (T k l : Z)
| EvSerializeForm (f : form) (d_bits : Z)
| EvCheckYRef (y_serialized : list byte).

(** ** Process state

    The three namespace-scope globals, the two [thread_local] structs (one
    copy per thread, created with the member initialisers on first use) and
    the trace. *)

Record world : Type := mk_world {
  init_once : bool;
  bucket_memory_budget_bytes : Z;
  streaming_stats_enabled : bool;
  last_streaming_parameters : gmap nat LastStreamingParameters;
  last_streaming_stats : gmap nat LastStreamingStats;
  trace : list (nat * event)
}.

Definition initial_world : world := mk_world false 0 false ∅ ∅ [].

Definition thread_parameters (w : world) (tid : nat) : LastStreamingParameters :=
  default params_init (last_streaming_parameters w !! tid).

Definition thread_stats (w : world) (tid : nat) : LastStreamingStats :=
  default stats_init (last_streaming_stats w !! tid).

(** ** Outcomes and the monad of the proving operation *)

(** What a library function does: it returns a value or raises a C++
    exception. *)
Inductive result (A : Type) : Type :=
| Ok (a : A)
| Raise.
Arguments Ok {A} a.
Arguments Raise {A}.

(** What a piece of the operation does: it yields a value, lets an exception
    escape, or runs into behaviour the C++ standard leaves undefined. *)

Inductive outcome (A : Type) : Type :=
| Val (a : A)
| Throw
| Undefined.
Arguments Val {A} a.
Arguments Throw {A}.
Arguments Undefined {A}.

Definition M (A : Type) : Type := world -> outcome A * world.

Definition ret {A} (a : A) : M A := fun w => (Val a, w).

Definition bind {A B} (m : M A) (f : A -> M B) : M B :=
  fun w =>
    match m w with
    | (Val a, w') => f a w'
    | (Throw, w') => (Throw, w')
    | (Undefined, w') => (Undefined, w')
    end.

Notation "'let*' x ':=' m 'in' f" := (bind m (fun x => f))
  (at level 10, x pattern, m at level 100, f at level 200).

(** Behaviour the C++ standard leaves undefined (a store past the end of the
    checkpoint vector). *)
Definition undefined {A} : M A := fun w => (Undefined, w).

(** [try { m } catch (...) { h }] *)
Definition try_catch {A} (m : M A) (h : M A) : M A :=
  fun w =>
    match m w with
    | (Throw, w') => h w'
    | r => r
    end.

(** The four ways the proving operation changes the process state. *)
Definition add_event (tid : nat) (e : event) (w : world) : world :=
  mk_world (init_once w) (bucket_memory_budget_bytes w)
    (streaming_stats_enabled w) (last_streaming_parameters w)
    (last_streaming_stats w) (trace w ++ [(tid, e)]).

Definition with_parameters (tid : nat) (p : LastStreamingParameters) (w : world) : world :=
  mk_world (init_once w) (bucket_memory_budget_bytes w)
    (streaming_stats_enabled w) (<[tid := p]> (last_streaming_parameters w))
    (last_streaming_stats w) (trace w).

Definition with_stats (tid : nat) (s : LastStreamingStats) (w : world) : world :=
  mk_world (init_once w) (bucket_memory_budget_bytes w)
    (streaming_stats_enabled w) (last_streaming_parameters w)
    (<[tid := s]> (last_streaming_stats w)) (trace w).

Definition with_init_done (w : world) : world :=
  mk_world true (bucket_memory_budget_bytes w)
    (streaming_stats_enabled w) (last_streaming_parameters w)
    (last_streaming_stats w) (trace w).

Definition log (tid : nat) (e : event) : M unit :=
  fun w => (Val tt, add_event tid e w).

(** A call of a library function: recorded, then it returns or raises. *)
Definition call {A} (tid : nat) (e : event) (r : result A) : M A :=
  fun w =>
    (match r with Ok a => Val a | Raise => Throw end, add_event tid e w).

Definition set_last_streaming_parameters (tid : nat) (p : LastStreamingParameters) : M unit :=
  fun w => (Val tt, with_parameters tid p w).

Definition set_last_streaming_stats (tid : nat) (s : LastStreamingStats) : M unit :=
  fun w => (Val tt, with_stats tid s w).

(** [std::call_once(init_once, init_chiavdf_runtime)] *)
Definition call_once_init (tid : nat) : M unit :=
  fun w =>
    if init_once w then (Val tt, w)
    else (Val tt, with_init_done (add_event tid EvInitRuntime w)).

(** The state of the squaring loop: the running element, the checkpoint
    vector and the position of [cursor] in it. *)
Record loop_state : Type := mk_loop {
  ls_y : form;
  ls_intermediates : list form;
  ls_cursor : nat
}.

(** The reference check of the streaming variants (the body of
    [if (check_y_ref)]): [true] when none of its three tests returns. *)
Definition y_ref_matches (y_serialized : list byte)
    (y_ref_s : option (list byte)) (y_ref_s_size : Z) : bool :=
  if is_null y_ref_s || (y_ref_s_size =? 0) then false
  else if negb (Z.of_nat (length y_serialized) =? y_ref_s_size) then false
  else if negb (bool_decide
                  (y_serialized = read_bytes y_ref_s (Z.of_nat (length y_serialized))))
       then false
  else true.

(** ** The chiavdf library

    The functions of [verifier.h] and [prover_slow.h] the file calls. Each may
    raise; by-reference arguments are passed and returned as values.
    [ApproximateParameters T l k] returns the new [(l, k)], which are [int]s
    since the two out-parameters are. *)
Class Chiavdf : Type := {
  CreateDiscriminant : list byte -> Z -> result Z;
  root : Z -> Z -> result Z;
  DeserializeForm : Z -> list byte -> result form;
  from_abd : Z -> Z -> Z -> result form;
  num_bits : Z -> Z;
  ApproximateParameters : Z -> Z -> Z -> result (Z * Z);
  nudupl_form : form -> Z -> Z -> result form;
  reduce : form -> result form;
  GenerateWesolowski :
    form -> form -> Z -> list form -> Z -> Z -> Z -> result form;
  SerializeForm : form -> Z -> result (list byte);
  ApproximateParameters_int :
    forall T l k l' k',
      ApproximateParameters T l k = Ok (l', k') -> is_int l' /\ is_int k'
}.

Section Prover.

Context `{Chiavdf}.

(** One squaring followed by one reduction, without the bookkeeping. *)
Definition square_reduce (D L : Z) (y : form) : result form :=
  match nudupl_form y D L with
  | Ok y1 => reduce y1
  | Raise => Raise
  end.

(** [y] squared [n] times, reduced after each squaring. *)
Fixpoint square_reduce_n (D L : Z) (n : nat) (y : form) : result form :=
  match n with
  | O => Ok y
  | S n' =>
      match square_reduce_n D L n' y with
      | Ok y' => square_reduce D L y'
      | Raise => Raise
      end
  end.

(** The plan after the two clamps of lines 98-103. *)
Definition clamp_plan (l k : Z) : Z * Z :=
  let k := if k <=? 0 then 1 else k in
  let l := if l <=? 0 then 1 else l in
  (k, l).

Section Loop.
Variables (tid : nat) (D L kl : Z).
Variables (num_iterations progress_interval : Z).
Variables (progress_cb : option nat) (progress_user_data : Z).

(** The body of [for (uint64_t i = 0; i < num_iterations; i++)]. *)
Definition loop_body (i : Z) (st : loop_state) : M loop_state :=
  let* st :=
    (if i mod kl =? 0 then
       if decide (ls_cursor st < length (ls_intermediates st))%nat then
         ret (mk_loop (ls_y st)
                (<[ls_cursor st := ls_y st]> (ls_intermediates st))
                (S (ls_cursor st)))
       else undefined
     else ret st) in
  let* y1 := call tid (EvNudupl (ls_y st) D L) (nudupl_form (ls_y st) D L) in
  let* y2 := call tid (EvReduce y1) (reduce y1) in
  let* _ :=
    (match progress_cb with
     | Some cb =>
         if negb (progress_interval =? 0) then
           let done := i + 1 in
           if (done =? num_iterations) || (done mod progress_interval =? 0)
           then log tid (EvProgress cb done progress_user_data)
           else ret tt
         else ret tt
     | None => ret tt
     end) in
  ret (mk_loop y2 (ls_intermediates st) (ls_cursor st)).

(** [n] iterations starting at index [i]. *)
Fixpoint squaring_loop (n : nat) (i : Z) (st : loop_state) : M loop_state :=
  match n with
  | O => ret st
  | S n' =>
      let* st' := loop_body i st in
      squaring_loop n' (i + 1) st'
  end.
End Loop.

Definition prove_one_weso_slow
    (tid : nat)
    (challenge_hash : option (list byte)) (challenge_size : Z)
    (x_s : option (list byte)) (x_s_size : Z)
    (y_ref_s : option (list byte)) (y_ref_s_size : Z)
    (check_y_ref : bool)
    (discriminant_size_bits : Z)
    (num_iterations : Z)
    (progress_interval : Z)
    (progress_cb : option nat)
    (progress_user_data : Z) : M ChiavdfByteArray :=
  if is_null challenge_hash || (challenge_size =? 0)
     || is_null x_s || (x_s_size =? 0) then ret empty_result
  else if (num_iterations =? 0) || (discriminant_size_bits =? 0) then
    ret empty_result
  else
    try_catch
      (let* _ := call_once_init tid in
       let challenge_hash_bytes := read_bytes challenge_hash challenge_size in
       let bits := to_int discriminant_size_bits in
       let* D := call tid (EvCreateDiscriminant challenge_hash_bytes bits)
                   (CreateDiscriminant challenge_hash_bytes bits) in
       let* L := call tid (EvRoot (- D) 4) (root (- D) 4) in
       let x_bytes := read_bytes x_s x_s_size in
       let* x := call tid (EvDeserializeForm D x_bytes)
                   (DeserializeForm D x_bytes) in
       let* y := call tid (EvFromAbd (form_a x) (form_b x) D)
                   (from_abd (form_a x) (form_b x) D) in
       let d_bits := num_bits D in
       let* lk := call tid (EvApproximateParameters num_iterations)
                    (ApproximateParameters num_iterations 0 0) in
       let '(k, l) := clamp_plan (fst lk) (snd lk) in
       let kl := int_mul k l in
       if kl <=? 0 then ret empty_result
       else
         let* _ := set_last_streaming_parameters tid
                     (mk_params (to_uint32 k) (to_uint32 l) false true) in
         let* _ := set_last_streaming_stats tid stats_init in
         let size_vec := wrap_u64 (num_iterations + kl - 1) / kl in
         let intermediates := replicate (Z.to_nat size_vec) form_default in
         let* st := squaring_loop tid D L kl num_iterations progress_interval
                      progress_cb progress_user_data
                      (Z.to_nat num_iterations) 0
                      (mk_loop y intermediates 0%nat) in
         let y := ls_y st in
         let intermediates := ls_intermediates st in
         let* proof := call tid
                         (EvGenerateWesolowski y x D intermediates num_iterations
                            (wrap_u64 k) (wrap_u64 l))
                         (GenerateWesolowski y x D intermediates num_iterations
                            (wrap_u64 k) (wrap_u64 l)) in
         let* y_serialized := call tid (EvSerializeForm y d_bits)
                                (SerializeForm y d_bits) in
         let* proof_serialized := call tid (EvSerializeForm proof d_bits)
                                    (SerializeForm proof d_bits) in
         if bool_decide (y_serialized = []) || bool_decide (proof_serialized = [])
         then ret empty_result
         else
           let* ok :=
             (if check_y_ref then
                let* _ := log tid (EvCheckYRef y_serialized) in
                ret (y_ref_matches y_serialized y_ref_s y_ref_s_size)
              else ret true) in
           if ok then
             let total := Z.of_nat (length y_serialized)
                          + Z.of_nat (length proof_serialized) in
             ret (mk_byte_array (Some (y_serialized ++ proof_serialized)) total)
           else ret empty_result)
      (ret empty_result).

(** *** The exported functions *)

Definition chiavdf_set_bucket_memory_budget_bytes (bytes : Z) (w : world) : world :=
  mk_world (init_once w) bytes (streaming_stats_enabled w)
    (last_streaming_parameters w) (last_streaming_stats w) (trace w).

Definition chiavdf_set_enable_streaming_stats (tid : nat) (enable : bool)
    (w : world) : world :=
  with_stats tid stats_init
    (mk_world (init_once w) (bucket_memory_budget_bytes w) enable
       (last_streaming_parameters w) (last_streaming_stats w) (trace w)).

(** The three out-pointers are [None] for [nullptr] and otherwise hold the
    pointee; the result is the return value and the pointees afterwards. *)
Definition chiavdf_get_last_streaming_parameters (tid : nat)
    (out_k out_l : option Z) (out_tuned : option bool) (w : world)
    : bool * (option Z * option Z * option bool) :=
  if is_null out_k || is_null out_l || is_null out_tuned then
    (false, (out_k, out_l, out_tuned))
  else if negb (lsp_set (thread_parameters w tid)) then
    (false, (out_k, out_l, out_tuned))
  else
    (true, (Some (lsp_k (thread_parameters w tid)),
            Some (lsp_l (thread_parameters w tid)),
            Some (lsp_tuned (thread_parameters w tid)))).

(** The five out-pointers are only cast to [void]. *)
Definition chiavdf_get_last_streaming_stats (tid : nat)
    (out_checkpoint_total_ns out_checkpoint_event_total_ns
     out_finalize_total_ns out_checkpoint_calls out_bucket_updates : option Z)
    (w : world) : bool * (option Z * option Z * option Z * option Z * option Z) :=
  (false, (out_checkpoint_total_ns, out_checkpoint_event_total_ns,
           out_finalize_total_ns, out_checkpoint_calls, out_bucket_updates)).

Definition chiavdf_prove_one_weso_fast (tid : nat)
    (challenge_hash : option (list byte)) (challenge_size : Z)
    (x_s : option (list byte)) (x_s_size : Z)
    (discriminant_size_bits num_iterations : Z) : M ChiavdfByteArray :=
  prove_one_weso_slow tid challenge_hash challenge_size x_s x_s_size
    None 0 false discriminant_size_bits num_iterations 0 None 0.

Definition chiavdf_prove_one_weso_fast_with_progress (tid : nat)
    (challenge_hash : option (list byte)) (challenge_size : Z)
    (x_s : option (list byte)) (x_s_size : Z)
    (discriminant_size_bits num_iterations progress_interval : Z)
    (progress_cb : option nat) (progress_user_data : Z) : M ChiavdfByteArray :=
  prove_one_weso_slow tid challenge_hash challenge_size x_s x_s_size
    None 0 false discriminant_size_bits num_iterations
    progress_interval progress_cb progress_user_data.

Definition chiavdf_prove_one_weso_fast_streaming (tid : nat)
    (challenge_hash : option (list byte)) (challenge_size : Z)
    (x_s : option (list byte)) (x_s_size : Z)
    (y_ref_s : option (list byte)) (y_ref_s_size : Z)
    (discriminant_size_bits num_iterations : Z) : M ChiavdfByteArray :=
  prove_one_weso_slow tid challenge_hash challenge_size x_s x_s_size
    y_ref_s y_ref_s_size true discriminant_size_bits num_iterations 0 None 0.

Definition chiavdf_prove_one_weso_fast_streaming_with_progress (tid : nat)
    (challenge_hash : option (list byte)) (challenge_size : Z)
    (x_s : option (list byte)) (x_s_size : Z)
    (y_ref_s : option (list byte)) (y_ref_s_size : Z)
    (discriminant_size_bits num_iterations progress_interval : Z)
    (progress_cb : option nat) (progress_user_data : Z) : M ChiavdfByteArray :=
  prove_one_weso_slow tid challenge_hash challenge_size x_s x_s_size
    y_ref_s y_ref_s_size true discriminant_size_bits num_iterations
    progress_interval progress_cb progress_user_data.

Definition chiavdf_prove_one_weso_fast_streaming_getblock_opt (tid : nat)
    (challenge_hash : option (list byte)) (challenge_size : Z)
    (x_s : option (list byte)) (x_s_size : Z)
    (y_ref_s : option (list byte)) (y_ref_s_size : Z)
    (discriminant_size_bits num_iterations : Z) : M ChiavdfByteArray :=
  prove_one_weso_slow tid challenge_hash challenge_size x_s x_s_size
    y_ref_s y_ref_s_size true discriminant_size_bits num_iterations 0 None 0.

Definition chiavdf_prove_one_weso_fast_streaming_getblock_opt_with_progress
    (tid : nat)
    (challenge_hash : option (list byte)) (challenge_size : Z)
    (x_s : option (list byte)) (x_s_size : Z)
    (y_ref_s : option (list byte)) (y_ref_s_size : Z)
    (discriminant_size_bits num_iterations progress_interval : Z)
    (progress_cb : option nat) (progress_user_data : Z) : M ChiavdfByteArray :=
  prove_one_weso_slow tid challenge_hash challenge_size x_s x_s_size
    y_ref_s y_ref_s_size true discriminant_size_bits num_iterations
    progress_interval progress_cb progress_user_data.

End Prover.

(** ** The operation by stages

    The [try] block is a setup (everything up to the parameter heuristic), the
    squaring loop, and the proof with its encoding. The two definitions below
    name the first and the last of these; [try_block_stages] shows that the
    block is their composition. *)

Record setup_result : Type := mk_setup {
  su_D : Z;
  su_L : Z;
  su_x : form;
  su_y : form;
  su_lk : Z * Z
}.

Inductive phase : Type := Setup | Squaring | Proving | Validating.

Definition phase_of (e : event) : phase :=
  match e with
  | EvInitRuntime | EvCreateDiscriminant _ _ | EvRoot _ _
  | EvDeserializeForm _ _ | EvFromAbd _ _ _ | EvApproximateParameters _ => Setup
  | EvNudupl _ _ _ | EvReduce _ | EvProgress _ _ _ => Squaring
  | EvGenerateWesolowski _ _ _ _ _ _ _ | EvSerializeForm _ _ => Proving
  | EvCheckYRef _ => Validating
  end.

Global Instance phase_eq_dec : EqDecision phase.
Proof. solve_decision. Defined.

(** The counts reported to the progress callback, in order. *)
Definition progress_reports (evs : list event) : list Z :=
  omap (fun e => match e with EvProgress _ done _ => Some done | _ => None end) evs.

Definition is_squaring (e : event) : bool :=
  match e with EvNudupl _ _ _ => true | _ => false end.

(** The number of squarings started. *)
Definition squarings (evs : list event) : nat := length (filter is_squaring evs).

(** The events of thread [tid] appended to the trace. *)
Definition add_events (tid : nat) (evs : list event) (w : world) : world :=
  mk_world (init_once w) (bucket_memory_budget_bytes w)
    (streaming_stats_enabled w) (last_streaming_parameters w)
    (last_streaming_stats w) (trace w ++ map (pair tid) evs).

(** The counts the progress contract asks for when [n] iterations run from
    index [i]: those equal to [T] and the multiples of [P]. *)
Definition expected_reports (T P : Z) (i : Z) (n : nat) : list Z :=
  filter (fun done => (done =? T) || (done mod P =? 0) = true) (seqZ (i + 1) (Z.of_nat n)).

Section Stages.

Context `{Chiavdf}.

Definition setup (tid : nat)
    (challenge_hash : option (list byte)) (challenge_size : Z)
    (x_s : option (list byte)) (x_s_size : Z)
    (discriminant_size_bits num_iterations : Z) : M setup_result :=
  let* _ := call_once_init tid in
  let challenge_hash_bytes := read_bytes challenge_hash challenge_size in
  let bits := to_int discriminant_size_bits in
  let* D := call tid (EvCreateDiscriminant challenge_hash_bytes bits)
              (CreateDiscriminant challenge_hash_bytes bits) in
  let* L := call tid (EvRoot (- D) 4) (root (- D) 4) in
  let x_bytes := read_bytes x_s x_s_size in
  let* x := call tid (EvDeserializeForm D x_bytes) (DeserializeForm D x_bytes) in
  let* y := call tid (EvFromAbd (form_a x) (form_b x) D)
              (from_abd (form_a x) (form_b x) D) in
  let* lk := call tid (EvApproximateParameters num_iterations)
               (ApproximateParameters num_iterations 0 0) in
  ret (mk_setup D L x y lk).

Definition finish (tid : nat)
    (y_ref_s : option (list byte)) (y_ref_s_size : Z) (check_y_ref : bool)
    (num_iterations D : Z) (x : form) (k l : Z) (st : loop_state)
    : M ChiavdfByteArray :=
  let d_bits := num_bits D in
  let y := ls_y st in
  let intermediates := ls_intermediates st in
  let* proof := call tid
                  (EvGenerateWesolowski y x D intermediates num_iterations
                     (wrap_u64 k) (wrap_u64 l))
                  (GenerateWesolowski y x D intermediates num_iterations
                     (wrap_u64 k) (wrap_u64 l)) in
  let* y_serialized := call tid (EvSerializeForm y d_bits) (SerializeForm y d_bits) in
  let* proof_serialized := call tid (EvSerializeForm proof d_bits)
                             (SerializeForm proof d_bits) in
  if bool_decide (y_serialized = []) || bool_decide (proof_serialized = [])
  then ret empty_result
  else
    let* ok :=
      (if check_y_ref then
         let* _ := log tid (EvCheckYRef y_serialized) in
         ret (y_ref_matches y_serialized y_ref_s y_ref_s_size)
       else ret true) in
    if ok then
      let total := Z.of_nat (length y_serialized)
                   + Z.of_nat (length proof_serialized) in
      ret (mk_byte_array (Some (y_serialized ++ proof_serialized)) total)
    else ret empty_result.

(** The [try] block, by stages. *)
Definition try_block (tid : nat)
    (challenge_hash : option (list byte)) (challenge_size : Z)
    (x_s : option (list byte)) (x_s_size : Z)
    (y_ref_s : option (list byte)) (y_ref_s_size : Z)
    (check_y_ref : bool)
    (discriminant_size_bits num_iterations progress_interval : Z)
    (progress_cb : option nat) (progress_user_data : Z) : M ChiavdfByteArray :=
  let* s := setup tid challenge_hash challenge_size x_s x_s_size
              discriminant_size_bits num_iterations in
  let '(k, l) := clamp_plan (fst (su_lk s)) (snd (su_lk s)) in
  let kl := int_mul k l in
  if kl <=? 0 then ret empty_result
  else
    let* _ := set_last_streaming_parameters tid
                     (mk_params (to_uint32 k) (to_uint32 l) false true) in
    let* _ := set_last_streaming_stats tid stats_init in
    let size_vec := wrap_u64 (num_iterations + kl - 1) / kl in
    let* st := squaring_loop tid (su_D s) (su_L s) kl num_iterations
                 progress_interval progress_cb progress_user_data
                 (Z.to_nat num_iterations) 0
                 (mk_loop (su_y s) (replicate (Z.to_nat size_vec) form_default) 0%nat) in
    finish tid y_ref_s y_ref_s_size check_y_ref num_iterations (su_D s) (su_x s) k l st.

(** The call an event records raised an exception. *)
Definition raised (e : event) : Prop :=
  match e with
  | EvCreateDiscriminant seed bits => CreateDiscriminant seed bits = Raise
  | EvRoot x n => root x n = Raise
  | EvDeserializeForm D bytes => DeserializeForm D bytes = Raise
  | EvFromAbd a b D => from_abd a b D = Raise
  | EvApproximateParameters T => ApproximateParameters T 0 0 = Raise
  | EvNudupl f D L => nudupl_form f D L = Raise
  | EvReduce f => reduce f = Raise
  | EvGenerateWesolowski y x D intermediates T k l =>
      GenerateWesolowski y x D intermediates T k l = Raise
  | EvSerializeForm f d_bits => SerializeForm f d_bits = Raise
  | EvInitRuntime | EvProgress _ _ _ | EvCheckYRef _ => False
  end.

(** The checkpoint invariant of the loop at index [i]: the running element
    is the start element squared [i] times, the cursor has passed
    [ceil (i / kl)] slots, and slot [j] holds the start element squared
    [j * kl] times. *)
Definition checkpoint_inv (D L kl : Z) (y0 : form) (i : Z) (st : loop_state) : Prop :=
  square_reduce_n D L (Z.to_nat i) y0 = Ok (ls_y st)
  /\ Z.of_nat (ls_cursor st) = ceil_div i kl
  /\ (ls_cursor st <= length (ls_intermediates st))%nat
  /\ forall j : nat, (j < ls_cursor st)%nat ->
       exists e, ls_intermediates st !! j = Some e
                 /\ square_reduce_n D L (Z.to_nat (Z.of_nat j * kl)) y0 = Ok e.

End Stages.

(** The reports of [n] iterations from index [i], for a given callback and
    cadence: none when the callback is null or the cadence is 0. *)
Definition loop_reports (progress_cb : option nat) (P T : Z) (i : Z) (n : nat) : list Z :=
  match progress_cb with
  | Some _ => if P =? 0 then [] else expected_reports T P i n
  | None => []
  end.

(** The trace of thread [tid] grew by [evs]; the process-wide settings are
    untouched. *)
Definition appended (tid : nat) (evs : list event) (w w' : world) : Prop :=
  trace w' = trace w ++ map (pair tid) evs
  /\ bucket_memory_budget_bytes w' = bucket_memory_budget_bytes w
  /\ streaming_stats_enabled w' = streaming_stats_enabled w.

(** The state in which the loop starts: the plan is published and the stats
    of the thread are reset. *)
Definition plan_stored (tid : nat) (k l : Z) (w : world) : world :=
  with_stats tid stats_init
    (with_parameters tid (mk_params (to_uint32 k) (to_uint32 l) false true) w).

Section Shapes.

Context `{Chiavdf}.

(** The five ways the last stage ends, with the calls it makes; it has no
    undefined behaviour of its own. *)
Inductive finish_outcome
    (y_ref_s : option (list byte)) (y_ref_s_size : Z) (check_y_ref : bool)
    (T D : Z) (x : form) (k l : Z) (st : loop_state)
    : list event -> outcome ChiavdfByteArray -> Prop :=
| Finish_no_proof :
    GenerateWesolowski (ls_y st) x D (ls_intermediates st) T (wrap_u64 k) (wrap_u64 l) = Raise ->
    finish_outcome y_ref_s y_ref_s_size check_y_ref T D x k l st
      [EvGenerateWesolowski (ls_y st) x D (ls_intermediates st) T (wrap_u64 k) (wrap_u64 l)] Throw
| Finish_no_y_bytes proof :
    GenerateWesolowski (ls_y st) x D (ls_intermediates st) T (wrap_u64 k) (wrap_u64 l) = Ok proof ->
    SerializeForm (ls_y st) (num_bits D) = Raise ->
    finish_outcome y_ref_s y_ref_s_size check_y_ref T D x k l st
      [EvGenerateWesolowski (ls_y st) x D (ls_intermediates st) T (wrap_u64 k) (wrap_u64 l);
       EvSerializeForm (ls_y st) (num_bits D)] Throw
| Finish_no_proof_bytes proof y_serialized :
    GenerateWesolowski (ls_y st) x D (ls_intermediates st) T (wrap_u64 k) (wrap_u64 l) = Ok proof ->
    SerializeForm (ls_y st) (num_bits D) = Ok y_serialized ->
    SerializeForm proof (num_bits D) = Raise ->
    finish_outcome y_ref_s y_ref_s_size check_y_ref T D x k l st
      [EvGenerateWesolowski (ls_y st) x D (ls_intermediates st) T (wrap_u64 k) (wrap_u64 l);
       EvSerializeForm (ls_y st) (num_bits D);
       EvSerializeForm proof (num_bits D)] Throw
| Finish_empty_bytes proof y_serialized proof_serialized :
    GenerateWesolowski (ls_y st) x D (ls_intermediates st) T (wrap_u64 k) (wrap_u64 l) = Ok proof ->
    SerializeForm (ls_y st) (num_bits D) = Ok y_serialized ->
    SerializeForm proof (num_bits D) = Ok proof_serialized ->
    y_serialized = [] \/ proof_serialized = [] ->
    finish_outcome y_ref_s y_ref_s_size check_y_ref T D x k l st
      [EvGenerateWesolowski (ls_y st) x D (ls_intermediates st) T (wrap_u64 k) (wrap_u64 l);
       EvSerializeForm (ls_y st) (num_bits D);
       EvSerializeForm proof (num_bits D)] (Val empty_result)
| Finish_encoded proof y_serialized proof_serialized :
    GenerateWesolowski (ls_y st) x D (ls_intermediates st) T (wrap_u64 k) (wrap_u64 l) = Ok proof ->
    SerializeForm (ls_y st) (num_bits D) = Ok y_serialized ->
    SerializeForm proof (num_bits D) = Ok proof_serialized ->
    y_serialized <> [] -> proof_serialized <> [] ->
    finish_outcome y_ref_s y_ref_s_size check_y_ref T D x k l st
      ([EvGenerateWesolowski (ls_y st) x D (ls_intermediates st) T (wrap_u64 k) (wrap_u64 l);
        EvSerializeForm (ls_y st) (num_bits D);
        EvSerializeForm proof (num_bits D)]
       ++ (if check_y_ref then [EvCheckYRef y_serialized] else []))
      (Val (if negb check_y_ref
               || y_ref_matches y_serialized y_ref_s y_ref_s_size
            then mk_byte_array (Some (y_serialized ++ proof_serialized))
                   (Z.of_nat (length y_serialized)
                    + Z.of_nat (length proof_serialized))
            else empty_result)).

(** What a completed setup has computed. *)
Definition setup_ok
    (challenge_hash : option (list byte)) (challenge_size : Z)
    (x_s : option (list byte)) (x_s_size : Z)
    (discriminant_size_bits num_iterations : Z) (s : setup_result) : Prop :=
  CreateDiscriminant (read_bytes challenge_hash challenge_size)
    (to_int discriminant_size_bits) = Ok (su_D s)
  /\ root (- su_D s) 4 = Ok (su_L s)
  /\ DeserializeForm (su_D s) (read_bytes x_s x_s_size) = Ok (su_x s)
  /\ from_abd (form_a (su_x s)) (form_b (su_x s)) (su_D s) = Ok (su_y s)
  /\ ApproximateParameters num_iterations 0 0 = Ok (su_lk s).

End Shapes.

(** The events a step from [w] to [w'] has appended to the trace. *)
Definition new_events (w w' : world) : list event :=
  snd <$> drop (length (trace w)) (trace w').

(** What the [catch (...)] makes of the outcome of the [try] block. *)
Definition caught (r : outcome ChiavdfByteArray) : outcome ChiavdfByteArray :=
  match r with
  | Throw => Val empty_result
  | _ => r
  end.

(** The outcome of the operation when a stage fails, or stops at the
    [kl <= 0] test. *)
Definition stopped {A} (r : outcome A) : outcome ChiavdfByteArray :=
  match r with
  | Undefined => Undefined
  | _ => Val empty_result
  end.

(** The plan [(k, l)] of a setup, and its product on [int]. *)
Definition plan_of (s : setup_result) : Z * Z :=
  clamp_plan (fst (su_lk s)) (snd (su_lk s)).

Definition kl_of (s : setup_result) : Z :=
  int_mul (fst (plan_of s)) (snd (plan_of s)).

Section RunShape.

Context `{Chiavdf}.
Variables (tid : nat).
Variables (challenge_hash : option (list byte)) (challenge_size : Z).
Variables (x_s : option (list byte)) (x_s_size : Z).
Variables (y_ref_s : option (list byte)) (y_ref_s_size : Z).
Variables (check_y_ref : bool).
Variables (discriminant_size_bits num_iterations progress_interval : Z).
Variables (progress_cb : option nat) (progress_user_data : Z).

(** The squaring loop as the operation starts it. *)
Definition run_loop (s : setup_result) : M loop_state :=
  squaring_loop tid (su_D s) (su_L s) (kl_of s) num_iterations
    progress_interval progress_cb progress_user_data
    (Z.to_nat num_iterations) 0
    (mk_loop (su_y s)
       (replicate (Z.to_nat (wrap_u64 (num_iterations + kl_of s - 1) / kl_of s))
          form_default)
       0%nat).

(** The four ways a call of [prove_one_weso_slow] runs: rejected by the
    argument checks, stopped in the setup, stopped in the loop, or carried
    through to the last stage. *)
Inductive run_shape (w : world) : outcome ChiavdfByteArray -> world -> Prop :=
| Run_rejected :
    (is_null challenge_hash || (challenge_size =? 0)
     || is_null x_s || (x_s_size =? 0)) = true
    \/ ((num_iterations =? 0) || (discriminant_size_bits =? 0)) = true ->
    run_shape w (Val empty_result) w
| Run_stopped_in_setup rs w1 :
    setup tid challenge_hash challenge_size x_s x_s_size
      discriminant_size_bits num_iterations w = (rs, w1) ->
    (forall s, rs = Val s -> kl_of s <= 0) ->
    run_shape w (stopped rs) w1
| Run_stopped_in_loop s w1 rl w2 :
    setup tid challenge_hash challenge_size x_s x_s_size
      discriminant_size_bits num_iterations w = (Val s, w1) ->
    0 < kl_of s ->
    run_loop s (plan_stored tid (fst (plan_of s)) (snd (plan_of s)) w1) = (rl, w2) ->
    (forall st, rl <> Val st) ->
    run_shape w (stopped rl) w2
| Run_finished s w1 st w2 rf w3 :
    setup tid challenge_hash challenge_size x_s x_s_size
      discriminant_size_bits num_iterations w = (Val s, w1) ->
    0 < kl_of s ->
    run_loop s (plan_stored tid (fst (plan_of s)) (snd (plan_of s)) w1)
      = (Val st, w2) ->
    finish tid y_ref_s y_ref_s_size check_y_ref num_iterations
      (su_D s) (su_x s) (fst (plan_of s)) (snd (plan_of s)) st w2 = (rf, w3) ->
    run_shape w (caught rf) w3.

(** Everything that is known of a call that reached the last stage: the
    setup and the loop ran to their end, the plan is published, and the
    trace is the calls of the setup, of the loop and of the last stage, in
    that order. *)
Inductive finished_run (w : world) (r : outcome ChiavdfByteArray) (w' : world)
    : Prop :=
| Finished_run s st rf evs_s evs_l evs_f :
    r = caught rf ->
    0 < kl_of s ->
    1 <= fst (plan_of s) <= INT_MAX ->
    1 <= snd (plan_of s) <= INT_MAX ->
    setup_ok challenge_hash challenge_size x_s x_s_size
      discriminant_size_bits num_iterations s ->
    appended tid (evs_s ++ evs_l ++ evs_f) w w' ->
    last_streaming_parameters w'
    = <[tid := mk_params (fst (plan_of s)) (snd (plan_of s)) false true]>
        (last_streaming_parameters w) ->
    Forall (fun e => phase_of e = Setup) evs_s ->
    EvApproximateParameters num_iterations ∈ evs_s ->
    Forall (fun e => phase_of e = Squaring) evs_l ->
    squarings evs_l = Z.to_nat num_iterations ->
    progress_reports evs_l
    = loop_reports progress_cb progress_interval num_iterations 0
        (Z.to_nat num_iterations) ->
    square_reduce_n (su_D s) (su_L s) (Z.to_nat num_iterations) (su_y s)
    = Ok (ls_y st) ->
    Z.of_nat (length (ls_intermediates st)) = ceil_div num_iterations (kl_of s) ->
    (forall j : nat, (j < length (ls_intermediates st))%nat ->
       exists e, ls_intermediates st !! j = Some e
                 /\ square_reduce_n (su_D s) (su_L s)
                      (Z.to_nat (Z.of_nat j * kl_of s)) (su_y s) = Ok e) ->
    finish_outcome y_ref_s y_ref_s_size check_y_ref num_iterations
      (su_D s) (su_x s) (fst (plan_of s)) (snd (plan_of s)) st evs_f rf ->
    finished_run w r w'.

End RunShape.

(** ** The calls a client can make

    Every proving entry point is [prove_one_weso_slow] at some arguments; the
    two getters and [chiavdf_free_byte_array] leave the process state as it
    is. *)

Inductive api_call : Type :=
| Call_prove (tid : nat)
    (challenge_hash : option (list byte)) (challenge_size : Z)
    (x_s : option (list byte)) (x_s_size : Z)
    (y_ref_s : option (list byte)) (y_ref_s_size : Z) (check_y_ref : bool)
    (discriminant_size_bits num_iterations progress_interval : Z)
    (progress_cb : option nat) (progress_user_data : Z)
| Call_set_bucket_memory_budget_bytes (bytes : Z)
| Call_set_enable_streaming_stats (tid : nat) (enable : bool).

Definition api_step `{Chiavdf} (c : api_call) (w : world) : world :=
  match c with
  | Call_prove tid ch chs xs xss yr yrs chk bits T P cb ud =>
      snd (prove_one_weso_slow tid ch chs xs xss yr yrs chk bits T P cb ud w)
  | Call_set_bucket_memory_budget_bytes bytes =>
      chiavdf_set_bucket_memory_budget_bytes bytes w
  | Call_set_enable_streaming_stats tid enable =>
      chiavdf_set_enable_streaming_stats tid enable w
  end.

(** The states of a process after any sequence of calls. *)
Inductive reachable `{Chiavdf} : world -> Prop :=
| reachable_initial : reachable initial_world
| reachable_step c w : reachable w -> reachable (api_step c w).

(** The thread [tid] has called the parameter heuristic. *)
Definition reached_parameter_selection (tid : nat) (tr : list (nat * event)) : Prop :=
  exists T, (tid, EvApproximateParameters T) ∈ tr.

(** ** A small instance of the library

    Forms with coefficients reduced modulo 251, used to run the operation on
    concrete inputs. *)

Definition byte_of_Z (z : Z) : byte :=
  default x00 (Byte.of_N (Z.to_N (z mod 256))).

Definition Z_of_byte (b : byte) : Z := Z.of_N (Byte.to_N b).

Module Toy.

Definition toy_from_abd (a b D : Z) : result form :=
  if a <=? 0 then Raise else Ok (mk_form a b ((b * b - D) / (4 * a))).

Definition toy_CreateDiscriminant (seed : list byte) (bits : Z) : result Z :=
  if bits <=? 0 then Raise else Ok (- (4 * Z.of_nat (length seed) + 3)).

Definition toy_root (x n : Z) : result Z :=
  if x <? 0 then Raise else Ok (Z.sqrt (Z.sqrt x)).

Definition toy_DeserializeForm (D : Z) (bytes : list byte) : result form :=
  match bytes with
  | [a; b] => toy_from_abd (Z_of_byte a) (Z_of_byte b) D
  | _ => Raise
  end.

Definition toy_num_bits (D : Z) : Z := Z.log2 (Z.abs D) + 1.

Definition toy_ApproximateParameters (T l k : Z) : result (Z * Z) :=
  Ok (if T <? 16 then (1, 0) else (2, 2)).

Definition toy_nudupl_form (f : form) (D L : Z) : result form :=
  Ok (mk_form (form_a f * form_a f) (2 * form_b f) (form_c f)).

Definition toy_reduce (f : form) : result form :=
  Ok (mk_form (form_a f mod 251) (form_b f mod 251) (form_c f)).

Definition toy_GenerateWesolowski (y x : form) (D : Z)
    (intermediates : list form) (T k l : Z) : result form :=
  Ok (mk_form
         (foldr (fun f acc => (form_a f + acc) mod 251) 1 intermediates)
         (form_b y) (k + l)).

Definition toy_SerializeForm (f : form) (d_bits : Z) : result (list byte) :=
  Ok [byte_of_Z (form_a f); byte_of_Z (form_b f)].

Lemma toy_ApproximateParameters_int T l k l' k' :
  toy_ApproximateParameters T l k = Ok (l', k') -> is_int l' /\ is_int k'.
Proof.
  unfold toy_ApproximateParameters, is_int, INT_MAX.
  destruct (T <? 16); intros [= <- <-]; lia.
Qed.

Definition toy : Chiavdf := {|
  CreateDiscriminant := toy_CreateDiscriminant;
  root := toy_root;
  DeserializeForm := toy_DeserializeForm;
  from_abd := toy_from_abd;
  num_bits := toy_num_bits;
  ApproximateParameters := toy_ApproximateParameters;
  nudupl_form := toy_nudupl_form;
  reduce := toy_reduce;
  GenerateWesolowski := toy_GenerateWesolowski;
  SerializeForm := toy_SerializeForm;
  ApproximateParameters_int := toy_ApproximateParameters_int
|}.

(** A 4-byte challenge and the input element (a, b) = (3, 5). *)
Definition challenge : list byte := [x01; x02; x03; x04].
Definition x_bytes : list byte := [x03; x05].

(** A run of [T] iterations on thread 0 from the initial state. *)
Abbreviation run y_ref_s y_ref_s_size check_y_ref T P cb :=
  (prove_one_weso_slow (H := toy) 0%nat (Some challenge) 4 (Some x_bytes) 2
     y_ref_s y_ref_s_size check_y_ref 1024 T P cb 0 initial_world).

End Toy.

(** ** The calls of the squaring loop, one iteration after the other *)

Section LoopTrace.

Context `{Chiavdf}.
Variables (D L T P : Z) (cb : option nat) (ud : Z).

(** The callback invocation, if any, that ends iteration [i]. *)
Definition iteration_report (i : Z) : list event :=
  match cb with
  | Some c =>
      if negb (P =? 0) then
        if (i + 1 =? T) || ((i + 1) mod P =? 0)
        then [EvProgress c (i + 1) ud] else []
      else []
  | None => []
  end.

(** The traces the loop can leave when it is at index [i] with running
    element [y]: it stops (at its end, or at a store out of bounds), the
    squaring raises, the reduction raises, or the iteration completes and the
    loop goes on from [i + 1] with the reduced square. *)
Inductive loop_trace : Z -> form -> list event -> Prop :=
| loop_trace_stop i y : loop_trace i y []
| loop_trace_squaring_raised i y :
    nudupl_form y D L = Raise ->
    loop_trace i y [EvNudupl y D L]
| loop_trace_reduction_raised i y y1 :
    nudupl_form y D L = Ok y1 ->
    reduce y1 = Raise ->
    loop_trace i y [EvNudupl y D L; EvReduce y1]
| loop_trace_step i y y1 y2 evs :
    nudupl_form y D L = Ok y1 ->
    reduce y1 = Ok y2 ->
    loop_trace (i + 1) y2 evs ->
    loop_trace i y (EvNudupl y D L :: EvReduce y1 :: iteration_report i ++ evs).

End LoopTrace.

(** The forms the squaring was called on, in order. *)
Definition squaring_inputs (evs : list event) : list form :=
  omap (fun e => match e with EvNudupl f _ _ => Some f | _ => None end) evs.

(** Each reported count, paired with the number of squarings called before
    the report; [n] is the number of squarings before [evs]. *)
Fixpoint reports_with_squarings (n : nat) (evs : list event) : list (Z * nat) :=
  match evs with
  | [] => []
  | EvNudupl _ _ _ :: evs' => reports_with_squarings (S n) evs'
  | EvProgress _ done _ :: evs' => (done, n) :: reports_with_squarings n evs'
  | _ :: evs' => reports_with_squarings n evs'
  end.

(** Every squaring in the trace that returned is followed at once by the
    reduction of its result, and one that raised ends the trace. *)
Fixpoint reduced_after_squaring `{Chiavdf} (evs : list event) : Prop :=
  match evs with
  | [] => True
  | EvNudupl f D L :: rest =>
      match nudupl_form f D L with
      | Ok f' => exists rest', rest = EvReduce f' :: rest'
      | Raise => rest = []
      end
      /\ reduced_after_squaring rest
  | _ :: rest => reduced_after_squaring rest
  end.

(** The order of the phases of a run. *)
Definition phase_rank (ph : phase) : nat :=
  match ph with
  | Setup => 0
  | Squaring => 1
  | Proving => 2
  | Validating => 3
  end.

(** ** Sequences of calls *)

Fixpoint apply_calls `{Chiavdf} (cs : list api_call) (w : world) : world :=
  match cs with
  | [] => w
  | c :: cs' => apply_calls cs' (api_step c w)
  end.

(** The budget and the stats flag a sequence of calls leaves, given the ones
    it started with: those of the last call that sets them. *)
Fixpoint budget_after (cs : list api_call) (budget : Z) : Z :=
  match cs with
  | [] => budget
  | Call_set_bucket_memory_budget_bytes bytes :: cs' => budget_after cs' bytes
  | _ :: cs' => budget_after cs' budget
  end.

Fixpoint stats_flag_after (cs : list api_call) (flag : bool) : bool :=
  match cs with
  | [] => flag
  | Call_set_enable_streaming_stats _ enable :: cs' => stats_flag_after cs' enable
  | _ :: cs' => stats_flag_after cs' flag
  end.

(** The calls of a sequence that thread [tid] makes to the proving
    operation. *)
Definition is_prove_by (tid : nat) (c : api_call) : bool :=
  match c with
  | Call_prove t _ _ _ _ _ _ _ _ _ _ _ _ => bool_decide (t = tid)
  | _ => false
  end.

(** The runtime initialisation occurs in a trace once, as its first event,
    or the trace is empty. *)
Definition initialised_first (tr : list (nat * event)) : Prop :=
  tr = []
  \/ exists t rest, tr = (t, EvInitRuntime) :: rest
                    /\ Forall (fun te => snd te <> EvInitRuntime) rest.

(** ** Runs with and without progress reports *)

Definition is_progress (e : event) : bool :=
  match e with
  | EvProgress _ _ _ => true
  | _ => false
  end.

(** The state with the callback invocations taken out of the trace. *)
Definition without_progress (w : world) : world :=
  mk_world (init_once w) (bucket_memory_budget_bytes w)
    (streaming_stats_enabled w) (last_streaming_parameters w)
    (last_streaming_stats w)
    (filter (fun te : nat * event => is_progress (snd te) = false) (trace w)).

(** [m'] does what [m] does, less the callback invocations. *)
Definition silently {A} (m m' : M A) : Prop :=
  forall w, m' (without_progress w) = (fst (m w), without_progress (snd (m w))).

(** ** Facts about the trace and the monad *)

Lemma add_events_nil tid w : add_events tid [] w = w.
Proof. destruct w; unfold add_events; simpl. by rewrite app_nil_r. Qed.

Lemma add_events_app tid evs1 evs2 w :
  add_events tid evs2 (add_events tid evs1 w) = add_events tid (evs1 ++ evs2) w.
Proof. unfold add_events; simpl. by rewrite map_app, app_assoc. Qed.

Lemma add_event_events tid e w : add_event tid e w = add_events tid [e] w.
Proof. reflexivity. Qed.

Lemma trace_add_events tid evs w :
  trace (add_events tid evs w) = trace w ++ map (pair tid) evs.
Proof. reflexivity. Qed.

Lemma thread_parameters_add_events tid evs w t :
  thread_parameters (add_events tid evs w) t = thread_parameters w t.
Proof. reflexivity. Qed.

Lemma progress_reports_app evs1 evs2 :
  progress_reports (evs1 ++ evs2) = progress_reports evs1 ++ progress_reports evs2.
Proof. unfold progress_reports. apply omap_app. Qed.

Lemma squarings_app evs1 evs2 :
  squarings (evs1 ++ evs2) = (squarings evs1 + squarings evs2)%nat.
Proof. unfold squarings. by rewrite filter_app, length_app. Qed.

Lemma setup_phase_no_reports evs :
  Forall (fun e => phase_of e = Setup) evs -> progress_reports evs = [].
Proof.
  induction 1 as [|e evs He _ IH]; [done|].
  unfold progress_reports in *; simpl. destruct e; simpl in *; try discriminate; exact IH.
Qed.

Lemma setup_phase_no_squarings evs :
  Forall (fun e => phase_of e = Setup) evs -> squarings evs = 0%nat.
Proof.
  induction 1 as [|e evs He _ IH]; [done|].
  unfold squarings in *. destruct e; simpl in *; try discriminate; exact IH.
Qed.

(** ** Arithmetic of the checkpoint spacing *)

Lemma ceil_div_0 d : 0 < d -> ceil_div 0 d = 0.
Proof. intros. unfold ceil_div. apply Z.div_small. lia. Qed.

Lemma ceil_div_succ_boundary i d :
  0 < d -> 0 <= i -> i mod d = 0 ->
  ceil_div i d = i / d /\ ceil_div (i + 1) d = i / d + 1.
Proof.
  intros Hd Hi Hm. unfold ceil_div.
  pose proof (Z.div_mod i d ltac:(lia)) as E. rewrite Hm in E.
  split.
  - symmetry. apply (Z.div_unique _ _ _ (d - 1)); lia.
  - symmetry. apply (Z.div_unique _ _ _ 0); lia.
Qed.

Lemma ceil_div_succ_inside i d :
  0 < d -> 0 <= i -> i mod d <> 0 -> ceil_div (i + 1) d = ceil_div i d.
Proof.
  intros Hd Hi Hm. unfold ceil_div.
  pose proof (Z.div_mod i d ltac:(lia)) as E.
  pose proof (Z.mod_pos_bound i d Hd) as B.
  rewrite <- (Z.div_unique (i + 1 + d - 1) d (i / d + 1) (i mod d)) by lia.
  rewrite <- (Z.div_unique (i + d - 1) d (i / d + 1) (i mod d - 1)) by lia.
  reflexivity.
Qed.

Lemma ceil_div_pos n d : 0 < d -> 0 < n -> 0 < ceil_div n d.
Proof.
  intros Hd Hn. unfold ceil_div.
  apply Z.div_str_pos. lia.
Qed.

(** The vector is as long as the checkpoints need exactly when the sum
    [num_iterations + kl - 1] does not wrap. *)
Lemma size_vec_le T kl :
  0 < kl -> 0 <= T -> wrap_u64 (T + kl - 1) / kl <= ceil_div T kl.
Proof.
  intros Hkl HT. unfold wrap_u64, ceil_div.
  apply Z.div_le_mono; [lia|].
  apply Z.mod_le; lia.
Qed.

Lemma to_int_small z : - 2 ^ 31 <= z <= INT_MAX -> to_int z = z.
Proof.
  unfold to_int, INT_MAX. intros Hz.
  rewrite Z.mod_small by lia. lia.
Qed.

Lemma to_int_range z : - 2 ^ 31 <= to_int z <= INT_MAX.
Proof.
  unfold to_int, INT_MAX.
  pose proof (Z.mod_pos_bound (z + 2 ^ 31) (2 ^ 32) ltac:(lia)). lia.
Qed.

Lemma to_uint32_small z : 0 <= z <= INT_MAX -> to_uint32 z = z.
Proof. unfold to_uint32, INT_MAX. intros. apply Z.mod_small. lia. Qed.

Lemma wrap_u64_small z : 0 <= z <= INT_MAX -> wrap_u64 z = z.
Proof. unfold wrap_u64, INT_MAX. intros. apply Z.mod_small. lia. Qed.

Lemma clamp_plan_range l0 k0 :
  is_int l0 -> is_int k0 ->
  1 <= fst (clamp_plan l0 k0) <= INT_MAX /\ 1 <= snd (clamp_plan l0 k0) <= INT_MAX.
Proof.
  unfold is_int, clamp_plan, INT_MAX. simpl. intros Hl Hk.
  destruct (Z.leb_spec k0 0), (Z.leb_spec l0 0); lia.
Qed.

Ltac norm_events :=
  repeat rewrite add_event_events in *;
  repeat rewrite add_events_app in *;
  simpl app in *.

Ltac solve_event_facts :=
  repeat split;
  try (intros; repeat (apply Forall_cons; split); try apply Forall_nil;
       simpl; solve [congruence | tauto]);
  try (intros; simplify_eq; done);
  try congruence;
  try done.

Section LoopFacts.

Context `{Chiavdf}.
Variables (tid : nat) (D L kl : Z).
Variables (T P : Z) (cb : option nat) (ud : Z).

Lemma expected_reports_cons i n :
  expected_reports T P i (S n)
  = (if (i + 1 =? T) || ((i + 1) mod P =? 0) then [i + 1] else [])
    ++ expected_reports T P (i + 1) n.
Proof.
  unfold expected_reports.
  rewrite seqZ_cons by lia.
  replace (Z.pred (Z.of_nat (S n))) with (Z.of_nat n) by lia.
  replace (Z.succ (i + 1)) with (i + 1 + 1) by lia.
  rewrite filter_cons.
  destruct ((i + 1 =? T) || ((i + 1) mod P =? 0)) eqn:E.
  - rewrite decide_True by done. reflexivity.
  - rewrite decide_False by done. reflexivity.
Qed.

Lemma loop_reports_cons i n :
  loop_reports cb P T i (S n)
  = loop_reports cb P T i 1 ++ loop_reports cb P T (i + 1) n.
Proof.
  unfold loop_reports. destruct cb; [|done].
  destruct (P =? 0); [done|].
  rewrite (expected_reports_cons i n), (expected_reports_cons i 0).
  unfold expected_reports at 2. simpl. by rewrite app_nil_r.
Qed.

Lemma loop_reports_one i :
  loop_reports cb P T i 1
  = match cb with
    | Some _ =>
        if negb (P =? 0) then
          if (i + 1 =? T) || ((i + 1) mod P =? 0) then [i + 1] else []
        else []
    | None => []
    end.
Proof.
  unfold loop_reports. destruct cb; [|done]. destruct (P =? 0); [done|].
  rewrite expected_reports_cons. simpl negb. cbv iota.
  unfold expected_reports at 1. simpl. by rewrite app_nil_r.
Qed.

(** What one iteration adds to the trace. *)
Lemma loop_body_events i st w r w' :
  loop_body tid D L kl T P cb ud i st w = (r, w') ->
  exists evs,
    w' = add_events tid evs w
    /\ Forall (fun e => phase_of e = Squaring) evs
    /\ (r <> Throw -> Forall (fun e => ~ raised e) evs)
    /\ (forall st', r = Val st' ->
          squarings evs = 1%nat
          /\ progress_reports evs = loop_reports cb P T i 1).
Proof.
  unfold loop_body, bind, call, log, ret, undefined.
  intros Hrun. pose proof (loop_reports_one i) as HR.
  repeat case_match; simplify_eq; norm_events; simpl in *.
  all: try (eexists; split; [reflexivity|]; solve_event_facts).
  all: try (exists []; split; [by rewrite add_events_nil|]; solve_event_facts).
Qed.

Lemma square_reduce_n_succ y0 i y a0 a1 :
  0 <= i ->
  square_reduce_n D L (Z.to_nat i) y0 = Ok y ->
  nudupl_form y D L = Ok a0 -> reduce a0 = Ok a1 ->
  square_reduce_n D L (Z.to_nat (i + 1)) y0 = Ok a1.
Proof.
  intros Hi Hy E0 E1.
  replace (Z.to_nat (i + 1)) with (S (Z.to_nat i)) by lia.
  simpl. rewrite Hy. unfold square_reduce. by rewrite E0.
Qed.

(** One iteration keeps the checkpoint invariant and the vector's size. *)
Lemma loop_body_inv y0 i st w st' w' :
  0 < kl -> 0 <= i ->
  loop_body tid D L kl T P cb ud i st w = (Val st', w') ->
  checkpoint_inv D L kl y0 i st ->
  checkpoint_inv D L kl y0 (i + 1) st'
  /\ length (ls_intermediates st') = length (ls_intermediates st).
Proof.
  intros Hkl Hi Hrun (Hy & Hc & Hlen & Hslots).
  unfold loop_body, bind, call, log, ret, undefined in Hrun.
  destruct (i mod kl =? 0) eqn:Hmod.
  - apply Z.eqb_eq in Hmod.
    destruct (ceil_div_succ_boundary i kl Hkl Hi Hmod) as [Hc0 Hc1].
    destruct (decide (ls_cursor st < length (ls_intermediates st))%nat) as [Hin|];
      [|discriminate].
    simpl in Hrun.
    destruct (nudupl_form (ls_y st) D L) as [a0|] eqn:E0; try discriminate.
    destruct (reduce a0) as [a1|] eqn:E1; try discriminate.
    assert (st' = mk_loop a1 (<[ls_cursor st := ls_y st]> (ls_intermediates st))
                    (S (ls_cursor st))) as ->.
    { repeat case_match; simplify_eq; reflexivity. }
    unfold checkpoint_inv; cbn [ls_y ls_intermediates ls_cursor]. rewrite length_insert.
    split; [|reflexivity].
    split; [by eapply square_reduce_n_succ|]. split; [lia|]. split; [lia|].
    intros j Hj.
    destruct (decide (j = ls_cursor st)) as [->|Hne].
    + exists (ls_y st). split; [by apply list_lookup_insert_eq|].
      replace (Z.of_nat (ls_cursor st) * kl) with i; [done|].
      rewrite Hc, Hc0.
      pose proof (Z.div_mod i kl ltac:(lia)). lia.
    + rewrite list_lookup_insert_ne by done. apply Hslots. lia.
  - apply Z.eqb_neq in Hmod.
    pose proof (ceil_div_succ_inside i kl Hkl Hi Hmod) as Hc1.
    simpl in Hrun.
    destruct (nudupl_form (ls_y st) D L) as [a0|] eqn:E0; try discriminate.
    destruct (reduce a0) as [a1|] eqn:E1; try discriminate.
    assert (st' = mk_loop a1 (ls_intermediates st) (ls_cursor st)) as ->.
    { repeat case_match; simplify_eq; reflexivity. }
    unfold checkpoint_inv; cbn [ls_y ls_intermediates ls_cursor].
    split; [|reflexivity].
    split; [by eapply square_reduce_n_succ|]. split; [lia|]. split; [lia|]. done.
Qed.

Lemma squaring_loop_events n :
  forall i st w r w',
    squaring_loop tid D L kl T P cb ud n i st w = (r, w') ->
    exists evs,
      w' = add_events tid evs w
      /\ Forall (fun e => phase_of e = Squaring) evs
      /\ (r <> Throw -> Forall (fun e => ~ raised e) evs)
      /\ (forall st', r = Val st' ->
            squarings evs = n
            /\ progress_reports evs = loop_reports cb P T i n).
Proof.
  induction n as [|n IH]; intros i st w r w' Hrun.
  - simpl in Hrun. unfold ret in Hrun. simplify_eq.
    exists []. rewrite add_events_nil. repeat split; try done.
    unfold loop_reports, expected_reports. simpl. by repeat case_match.
  - simpl in Hrun. unfold bind in Hrun.
    destruct (loop_body tid D L kl T P cb ud i st w) as [r1 w1] eqn:Hbody.
    apply loop_body_events in Hbody as (evs1 & -> & Hph1 & Hok1 & Hval1).
    destruct r1 as [st1| |].
    + apply IH in Hrun as (evs2 & -> & Hph2 & Hok2 & Hval2).
      exists (evs1 ++ evs2). rewrite add_events_app.
      split; [done|]. split; [by apply Forall_app|].
      split.
      * intros Hr. apply Forall_app. split; [by apply Hok1|by apply Hok2].
      * intros st' ->.
        destruct (Hval1 st1 eq_refl) as [Hs1 Hp1].
        destruct (Hval2 st' eq_refl) as [Hs2 Hp2].
        rewrite squarings_app, progress_reports_app, Hs1, Hs2, Hp1, Hp2.
        split; [done|]. symmetry. apply loop_reports_cons.
    + simplify_eq. exists evs1. repeat split; try done.
    + simplify_eq. exists evs1. repeat split; try done.
Qed.

Lemma squaring_loop_inv y0 n :
  forall i st w st' w',
    0 < kl -> 0 <= i ->
    squaring_loop tid D L kl T P cb ud n i st w = (Val st', w') ->
    checkpoint_inv D L kl y0 i st ->
    checkpoint_inv D L kl y0 (i + Z.of_nat n) st'
    /\ length (ls_intermediates st') = length (ls_intermediates st).
Proof.
  induction n as [|n IH]; intros i st w st' w' Hkl Hi Hrun Hinv.
  - simpl in Hrun. unfold ret in Hrun. simplify_eq.
    by rewrite Z.add_0_r.
  - simpl in Hrun. unfold bind in Hrun.
    destruct (loop_body tid D L kl T P cb ud i st w) as [[st1| |] w1] eqn:Hbody;
      try discriminate.
    destruct (loop_body_inv y0 i st w st1 w1 Hkl Hi Hbody Hinv) as [Hinv1 Hlen1].
    destruct (IH (i + 1) st1 w1 st' w' Hkl ltac:(lia) Hrun Hinv1) as [Hinv2 Hlen2].
    replace (i + Z.of_nat (S n)) with (i + 1 + Z.of_nat n) by lia.
    split; [done|congruence].
Qed.

Lemma ceil_div_mono a b d : 0 < d -> a <= b -> ceil_div a d <= ceil_div b d.
Proof. intros. unfold ceil_div. apply Z.div_le_mono; lia. Qed.

(** The store through [cursor] stays inside the vector as long as the
    vector has a slot for every checkpoint still to come. *)
Lemma squaring_loop_defined y0 n :
  forall i st w r w',
    0 < kl -> 0 <= i ->
    squaring_loop tid D L kl T P cb ud n i st w = (r, w') ->
    checkpoint_inv D L kl y0 i st ->
    ceil_div (i + Z.of_nat n) kl <= Z.of_nat (length (ls_intermediates st)) ->
    r <> Undefined.
Proof.
  induction n as [|n IH]; intros i st w r w' Hkl Hi Hrun Hinv Hroom.
  - simpl in Hrun. unfold ret in Hrun. by simplify_eq.
  - simpl in Hrun. unfold bind in Hrun.
    destruct (loop_body tid D L kl T P cb ud i st w) as [[st1| |] w1] eqn:Hbody.
    + destruct (loop_body_inv y0 i st w st1 w1 Hkl Hi Hbody Hinv) as [Hinv1 Hlen1].
      eapply (IH (i + 1)); [done|lia|exact Hrun|exact Hinv1|].
      rewrite Hlen1. by replace (i + 1 + Z.of_nat n) with (i + Z.of_nat (S n)) by lia.
    + by simplify_eq.
    + exfalso. simplify_eq.
      destruct Hinv as (_ & Hc & _ & _).
      assert (ceil_div (i + 1) kl <= Z.of_nat (length (ls_intermediates st))) as Hnext.
      { etrans; [|exact Hroom]. apply ceil_div_mono; lia. }
      unfold loop_body, bind, call, log, ret, undefined in Hbody.
      destruct (i mod kl =? 0) eqn:Hmod.
      * apply Z.eqb_eq in Hmod.
        destruct (ceil_div_succ_boundary i kl Hkl Hi Hmod) as [Hc0 Hc1].
        destruct (decide (ls_cursor st < length (ls_intermediates st))%nat);
          [|lia].
        simpl in Hbody. repeat case_match; simplify_eq.
      * simpl in Hbody. repeat case_match; simplify_eq.
Qed.

End LoopFacts.

(** The events a symbolic run has added to the world [w]. *)
Ltac events_of w :=
  lazymatch w with
  | add_event _ ?e ?w' => let r := events_of w' in constr:(r ++ [e])
  | with_init_done ?w' => events_of w'
  | add_events _ ?evs ?w' => let r := events_of w' in constr:(r ++ evs)
  | _ => constr:(@nil event)
  end.

Ltac solve_appended :=
  repeat split; simpl; rewrite ?map_app, <- ?app_assoc; simpl;
  rewrite ?app_nil_r; reflexivity.

Section StageFacts.

Context `{Chiavdf}.

Lemma appended_add_events tid evs w : appended tid evs w (add_events tid evs w).
Proof. by repeat split. Qed.

Lemma appended_trans tid evs1 evs2 w w1 w2 :
  appended tid evs1 w w1 -> appended tid evs2 w1 w2 ->
  appended tid (evs1 ++ evs2) w w2.
Proof.
  intros (Ht1 & Hb1 & Hs1) (Ht2 & Hb2 & Hs2).
  repeat split; [|congruence|congruence].
  by rewrite Ht2, Ht1, map_app, app_assoc.
Qed.

Lemma appended_plan_stored tid k l w :
  appended tid [] w (plan_stored tid k l w).
Proof. repeat split. simpl. by rewrite app_nil_r. Qed.

Lemma setup_run tid ch chs xs xss bits T w r w1 :
  setup tid ch chs xs xss bits T w = (r, w1) ->
  exists evs,
    appended tid evs w w1
    /\ last_streaming_parameters w1 = last_streaming_parameters w
    /\ last_streaming_stats w1 = last_streaming_stats w
    /\ Forall (fun e => phase_of e = Setup) evs
    /\ (r <> Throw -> Forall (fun e => ~ raised e) evs)
    /\ (forall s, r = Val s ->
          setup_ok ch chs xs xss bits T s
          /\ EvApproximateParameters T ∈ evs).
Proof.
  unfold setup, call_once_init, bind, call, ret. intros Hrun.
  repeat case_match; simplify_eq.
  all: match goal with
       | |- exists evs, appended _ evs _ ?w' /\ _ =>
           let evs := events_of w' in
           exists evs; split; [solve_appended|]
       end.
  all: split; [reflexivity|]; split; [reflexivity|].
  all: split; [repeat (apply Forall_cons; split); try apply Forall_nil; reflexivity|].
  all: split; [intros; repeat (apply Forall_cons; split); try apply Forall_nil;
               simpl; solve [congruence | tauto]|].
  all: intros s ?; simplify_eq.
  all: split; [by repeat split|]; simpl; set_solver.
Qed.

Lemma finish_run tid yr yrs chk T D x k l st w r w' :
  finish tid yr yrs chk T D x k l st w = (r, w') ->
  exists evs,
    w' = add_events tid evs w
    /\ finish_outcome yr yrs chk T D x k l st evs r.
Proof.
  unfold finish, bind, call, log, ret. intros Hrun.
  destruct (GenerateWesolowski (ls_y st) x D (ls_intermediates st) T
              (wrap_u64 k) (wrap_u64 l))
    as [proof|] eqn:Eg; simplify_eq.
  2: eexists; split; [apply add_event_events|]; by apply Finish_no_proof.
  destruct (SerializeForm (ls_y st) (num_bits D)) as [y_ser|] eqn:Ey;
    simplify_eq.
  2: norm_events; eexists; split; [reflexivity|];
     by eapply Finish_no_y_bytes.
  destruct (SerializeForm proof (num_bits D)) as [p_ser|] eqn:Ep;
    simplify_eq.
  2: norm_events; eexists; split; [reflexivity|];
     by eapply Finish_no_proof_bytes.
  destruct (bool_decide (y_ser = []) || bool_decide (p_ser = [])) eqn:Eempty.
  { simplify_eq. norm_events. eexists; split; [reflexivity|].
    eapply Finish_empty_bytes; eauto.
    apply orb_true_iff in Eempty as [E|E]; apply bool_decide_eq_true in E; tauto. }
  apply orb_false_iff in Eempty as [E1 E2].
  apply bool_decide_eq_false in E1, E2.
  pose proof (Finish_encoded yr yrs chk T D x k l st proof y_ser p_ser
                Eg Ey Ep E1 E2) as Hfin.
  destruct chk; simpl in Hrun, Hfin.
  - destruct (y_ref_matches y_ser yr yrs); simplify_eq; norm_events;
      eexists; (split; [reflexivity|]); exact Hfin.
  - simplify_eq; norm_events. eexists; (split; [reflexivity|]); exact Hfin.
Qed.

Lemma finish_outcome_raised yr yrs chk T D x k l st evs r :
  finish_outcome yr yrs chk T D x k l st evs r ->
  r <> Throw -> Forall (fun e => ~ raised e) evs.
Proof.
  destruct 1; intros Hr; try destruct chk;
    repeat (apply Forall_cons; split); try apply Forall_nil; simpl;
    solve [congruence | tauto].
Qed.

Lemma finish_outcome_defined yr yrs chk T D x k l st evs r :
  finish_outcome yr yrs chk T D x k l st evs r -> r <> Undefined.
Proof. destruct 1; discriminate. Qed.

Lemma finish_outcome_phases yr yrs chk T D x k l st evs r :
  finish_outcome yr yrs chk T D x k l st evs r ->
  Forall (fun e => phase_of e = Proving \/ phase_of e = Validating) evs.
Proof.
  destruct 1; try destruct chk;
    repeat (apply Forall_cons; split); try apply Forall_nil; simpl; tauto.
Qed.

(** The [try] block of [prove_one_weso_slow] is the composition of the
    stages. *)
Lemma try_block_stages tid ch chs xs xss yr yrs chk bits T P cb ud w :
  (is_null ch || (chs =? 0) || is_null xs || (xss =? 0)) = false ->
  ((T =? 0) || (bits =? 0)) = false ->
  prove_one_weso_slow tid ch chs xs xss yr yrs chk bits T P cb ud w
  = try_catch (try_block tid ch chs xs xss yr yrs chk bits T P cb ud)
      (ret empty_result) w.
Proof.
  intros G1 G2. unfold prove_one_weso_slow. rewrite G1, G2.
  unfold try_catch, try_block, setup, finish, call_once_init, bind, call, ret.
  destruct (init_once w);
    destruct (CreateDiscriminant _ _); try reflexivity;
    destruct (root _ _); try reflexivity;
    destruct (DeserializeForm _ _); try reflexivity;
    destruct (from_abd _ _ _); try reflexivity;
    destruct (ApproximateParameters _ _ _); reflexivity.
Qed.

End StageFacts.

Section RunFacts.

Context `{Chiavdf}.

Lemma new_events_appended tid evs w w' :
  appended tid evs w w' -> new_events w w' = evs.
Proof.
  intros (Ht & _). unfold new_events. rewrite Ht, drop_app_length.
  rewrite <- list_fmap_compose. apply list_fmap_id.
Qed.

Lemma new_events_refl w : new_events w w = [].
Proof. unfold new_events. by rewrite drop_all. Qed.

Lemma prove_run_shape tid ch chs xs xss yr yrs chk bits T P cb ud w r w' :
  prove_one_weso_slow tid ch chs xs xss yr yrs chk bits T P cb ud w = (r, w') ->
  run_shape tid ch chs xs xss yr yrs chk bits T P cb ud w r w'.
Proof.
  intros Hrun.
  destruct (is_null ch || (chs =? 0) || is_null xs || (xss =? 0)) eqn:G1.
  { unfold prove_one_weso_slow in Hrun. rewrite G1 in Hrun.
    unfold ret in Hrun. simplify_eq. apply Run_rejected. by left. }
  destruct ((T =? 0) || (bits =? 0)) eqn:G2.
  { unfold prove_one_weso_slow in Hrun. rewrite G1, G2 in Hrun.
    unfold ret in Hrun. simplify_eq. apply Run_rejected. by right. }
  rewrite try_block_stages in Hrun by done.
  unfold try_catch, try_block in Hrun. unfold bind at 1 in Hrun.
  destruct (setup tid ch chs xs xss bits T w) as [rs w1] eqn:Hsetup.
  destruct rs as [s| |].
  2,3: unfold ret in Hrun; simplify_eq;
       (eapply (Run_stopped_in_setup _ _ _ _ _ _ _ _ _ _ _ _ _ _ _ _ Hsetup));
       discriminate.
  pose proof (Run_stopped_in_setup tid ch chs xs xss yr yrs chk bits T P cb ud
                w _ _ Hsetup) as Hstop.
  pose proof (Run_stopped_in_loop tid ch chs xs xss yr yrs chk bits T P cb ud
                w s w1) as Hloop.
  pose proof (Run_finished tid ch chs xs xss yr yrs chk bits T P cb ud
                w s w1) as Hfin.
  unfold run_loop, kl_of, plan_of in Hloop, Hfin.
  destruct (clamp_plan (su_lk s).1 (su_lk s).2) as [k l] eqn:Hplan.
  cbn [fst snd] in Hloop, Hfin.
  destruct (int_mul k l <=? 0) eqn:Hkl.
  { unfold ret in Hrun. simplify_eq. apply Hstop.
    intros s' ?; simplify_eq. unfold kl_of, plan_of. rewrite Hplan.
    by apply Z.leb_le. }
  apply Z.leb_gt in Hkl.
  unfold bind, set_last_streaming_parameters, set_last_streaming_stats in Hrun.
  fold (plan_stored tid k l w1) in Hrun.
  specialize (Hloop) with (1 := Hsetup) (2 := Hkl).
  specialize (Hfin) with (1 := Hsetup) (2 := Hkl).
  match type of Hrun with
  | context [squaring_loop ?a ?b ?c ?d ?e ?f ?g ?h ?i ?j ?k0 ?w0] =>
      destruct (squaring_loop a b c d e f g h i j k0 w0) as [rl w2]
  end.
  destruct rl as [st| |].
  2,3: unfold ret in Hrun; simplify_eq;
       apply (Hloop _ _ eq_refl); discriminate.
  specialize (Hfin st w2) with (1 := eq_refl).
  destruct (finish tid yr yrs chk T (su_D s) (su_x s) k l st w2) as [rf w3].
  assert (r = caught rf /\ w' = w3) as [-> ->].
  { destruct rf; unfold ret in Hrun; simplify_eq; done. }
  exact (Hfin _ _ eq_refl).
Qed.

End RunFacts.

Section ShapeFacts.

Context `{Chiavdf}.
Variables (tid : nat).
Variables (ch : option (list byte)) (chs : Z).
Variables (xs : option (list byte)) (xss : Z).
Variables (bits T P : Z) (cb : option nat) (ud : Z).

(** The plan of a completed setup is made of two positive [int]s, which
    the casts to [uint32_t] and [uint64_t] leave as they are. *)
Lemma plan_range s :
  setup_ok ch chs xs xss bits T s ->
  1 <= fst (plan_of s) <= INT_MAX /\ 1 <= snd (plan_of s) <= INT_MAX.
Proof.
  intros (_ & _ & _ & _ & Hlk). unfold plan_of.
  destruct (su_lk s) as [l0 k0] eqn:E.
  apply ApproximateParameters_int in Hlk as [Hl Hk].
  by apply clamp_plan_range.
Qed.

(** The setup followed by the loop: the plan is published, and the trace
    holds the calls of the setup and then those of the loop. *)
Lemma setup_loop_run w s w1 rl w2 :
  setup tid ch chs xs xss bits T w = (Val s, w1) ->
  run_loop tid T P cb ud s
    (plan_stored tid (fst (plan_of s)) (snd (plan_of s)) w1) = (rl, w2) ->
  exists evs_s evs_l,
    appended tid (evs_s ++ evs_l) w w2
    /\ last_streaming_parameters w2
       = <[tid := mk_params (fst (plan_of s)) (snd (plan_of s)) false true]>
           (last_streaming_parameters w)
    /\ Forall (fun e => phase_of e = Setup) evs_s
    /\ Forall (fun e => ~ raised e) evs_s
    /\ setup_ok ch chs xs xss bits T s
    /\ EvApproximateParameters T ∈ evs_s
    /\ Forall (fun e => phase_of e = Squaring) evs_l
    /\ (rl <> Throw -> Forall (fun e => ~ raised e) evs_l)
    /\ (forall st, rl = Val st ->
          squarings evs_l = Z.to_nat T
          /\ progress_reports evs_l = loop_reports cb P T 0 (Z.to_nat T)).
Proof.
  intros Hsetup Hloop.
  apply setup_run in Hsetup
    as (evs_s & Happ & Hpar & Hst & Hph & Hok & Hval).
  destruct (Hval s eq_refl) as [Hsok Hin].
  unfold run_loop in Hloop.
  apply squaring_loop_events in Hloop as (evs_l & -> & Hphl & Hokl & Hvall).
  exists evs_s, evs_l.
  split.
  { eapply appended_trans; [exact Happ|].
    replace evs_l with ([] ++ evs_l) by done.
    eapply appended_trans; [apply appended_plan_stored|apply appended_add_events]. }
  split.
  { destruct (plan_range s Hsok) as [Hk Hl].
    unfold plan_stored, with_stats, with_parameters, add_events.
    cbn [last_streaming_parameters].
    rewrite Hpar, !to_uint32_small by lia. reflexivity. }
  split; [done|]. split; [apply Hok; discriminate|].
  split; [done|]. split; [done|]. split; [done|]. split; [done|]. exact Hvall.
Qed.

(** The checkpoints of a loop that ran to its end. *)
Lemma run_loop_checkpoints s w st w2 :
  0 < kl_of s -> 0 <= T ->
  run_loop tid T P cb ud s w = (Val st, w2) ->
  square_reduce_n (su_D s) (su_L s) (Z.to_nat T) (su_y s) = Ok (ls_y st)
  /\ Z.of_nat (length (ls_intermediates st)) = ceil_div T (kl_of s)
  /\ forall j : nat, (j < length (ls_intermediates st))%nat ->
       exists e, ls_intermediates st !! j = Some e
                 /\ square_reduce_n (su_D s) (su_L s)
                      (Z.to_nat (Z.of_nat j * kl_of s)) (su_y s) = Ok e.
Proof.
  intros Hkl HT Hloop. unfold run_loop in Hloop.
  eapply (squaring_loop_inv _ _ _ _ _ _ _ _ (su_y s)) in Hloop as [Hinv Hlen];
    [|done|lia|].
  2: { unfold checkpoint_inv; simpl. rewrite ceil_div_0 by done.
       repeat split; [lia|]. intros j Hj; lia. }
  simpl in Hlen. rewrite length_replicate in Hlen.
  destruct Hinv as (Hy & Hc & Hle & Hslots).
  rewrite Z.add_0_l, Z2Nat.id in Hy, Hc by done.
  pose proof (size_vec_le T (kl_of s) Hkl HT) as Hsize.
  assert (0 <= wrap_u64 (T + kl_of s - 1) / kl_of s) as Hnn.
  { apply Z.div_pos; [|done]. unfold wrap_u64. apply Z.mod_pos_bound. lia. }
  assert (length (ls_intermediates st) = ls_cursor st) as Hcur by lia.
  split; [done|]. split; [lia|].
  intros j Hj. apply Hslots. lia.
Qed.

(** The loop has defined behaviour unless [num_iterations + kl - 1]
    wraps around. *)
Lemma run_loop_defined s w rl w2 :
  0 < kl_of s -> 0 <= T -> T <= UINT64_MAX - INT_MAX ->
  run_loop tid T P cb ud s w = (rl, w2) ->
  rl <> Undefined.
Proof.
  intros Hkl HT Hfit Hloop. unfold run_loop in Hloop.
  pose proof (to_int_range (fst (plan_of s) * snd (plan_of s))) as Hr.
  fold (int_mul (fst (plan_of s)) (snd (plan_of s))) in Hr.
  fold (kl_of s) in Hr.
  eapply (squaring_loop_defined _ _ _ _ _ _ _ _ (su_y s)) in Hloop;
    [done|done|lia| |].
  - unfold checkpoint_inv; simpl. rewrite ceil_div_0 by done.
    repeat split; [lia|]. intros j Hj; lia.
  - simpl. rewrite length_replicate, Z.add_0_l.
    assert (wrap_u64 (T + kl_of s - 1) = T + kl_of s - 1) as ->.
    { unfold wrap_u64. apply Z.mod_small.
      unfold UINT64_MAX, INT_MAX in *. lia. }
    assert (0 <= (T + kl_of s - 1) / kl_of s) by (apply Z.div_pos; lia).
    rewrite !Z2Nat.id by lia. reflexivity.
Qed.

Lemma setup_defined w rs w1 :
  setup tid ch chs xs xss bits T w = (rs, w1) -> rs <> Undefined.
Proof.
  unfold setup, call_once_init, bind, call, ret. intros Hrun.
  repeat case_match; simplify_eq; discriminate.
Qed.

(** A setup that called the heuristic and ended with an exception got it
    from the heuristic, its last call. *)
Lemma setup_threw_at_heuristic w w1 :
  setup tid ch chs xs xss bits T w = (Throw, w1) ->
  EvApproximateParameters T ∈ new_events w w1 ->
  ApproximateParameters T 0 0 = Raise.
Proof.
  unfold setup, call_once_init, bind, call, ret. intros Hrun Hin.
  repeat case_match; simplify_eq; try done.
  all: match type of Hin with
       | context [new_events ?w0 ?w'] =>
           let evs := events_of w' in
           rewrite (new_events_appended tid evs w0 w') in Hin by solve_appended
       end.
  all: simpl in Hin.
  all: repeat (apply elem_of_cons in Hin as [Hin|Hin]; [discriminate|]).
  all: by apply elem_of_nil in Hin.
Qed.

Lemma zero_iterations_rejected yr yrs chk w :
  T = 0 ->
  prove_one_weso_slow tid ch chs xs xss yr yrs chk bits T P cb ud w
  = (Val empty_result, w).
Proof.
  intros ->. unfold prove_one_weso_slow.
  destruct (is_null ch || (chs =? 0) || is_null xs || (xss =? 0)); reflexivity.
Qed.

(** How the last stage ends when the operation returns a buffer. *)
Lemma finish_success yr yrs chk D x k l st evs rf out :
  finish_outcome yr yrs chk T D x k l st evs rf ->
  caught rf = Val out -> out <> empty_result ->
  exists proof y_ser p_ser,
    GenerateWesolowski (ls_y st) x D (ls_intermediates st) T
      (wrap_u64 k) (wrap_u64 l) = Ok proof
    /\ SerializeForm (ls_y st) (num_bits D) = Ok y_ser
    /\ SerializeForm proof (num_bits D) = Ok p_ser
    /\ y_ser <> [] /\ p_ser <> []
    /\ evs = [EvGenerateWesolowski (ls_y st) x D (ls_intermediates st) T
                (wrap_u64 k) (wrap_u64 l);
              EvSerializeForm (ls_y st) (num_bits D);
              EvSerializeForm proof (num_bits D)]
             ++ (if chk then [EvCheckYRef y_ser] else [])
    /\ (chk = true -> y_ref_matches y_ser yr yrs = true)
    /\ out = mk_byte_array (Some (y_ser ++ p_ser))
               (Z.of_nat (length y_ser) + Z.of_nat (length p_ser)).
Proof.
  intros Hfo Hc Hne.
  destruct Hfo as [| | | |proof y_ser p_ser Eg Ey Ep Hy Hp]; simpl in Hc;
    simplify_eq.
  exists proof, y_ser, p_ser.
  repeat (split; [done|]).
  destruct chk; simpl in *.
  - destruct (y_ref_matches y_ser yr yrs); [done|]. congruence.
  - split; [discriminate|reflexivity].
Qed.

(** The whole operation has defined behaviour for every iteration count up
    to [UINT64_MAX - INT_MAX]. *)
Lemma prove_defined yr yrs chk w r w' :
  0 <= T -> T <= UINT64_MAX - INT_MAX ->
  prove_one_weso_slow tid ch chs xs xss yr yrs chk bits T P cb ud w = (r, w') ->
  r <> Undefined.
Proof.
  intros HT Hfit Hrun. apply prove_run_shape in Hrun.
  destruct Hrun as [Hrej | rs w1 Hsetup Hkl | s w1 rl w2 Hsetup Hkl Hloop Hnv
                    | s w1 st w2 rf w3 Hsetup Hkl Hloop Hfin].
  - discriminate.
  - apply setup_defined in Hsetup. by destruct rs.
  - apply run_loop_defined in Hloop; [|done..]. by destruct rl.
  - apply finish_run in Hfin as (evs_f & _ & Hout).
    apply finish_outcome_defined in Hout. by destruct rf.
Qed.

(** With validation on and no reference, the operation cannot succeed. *)
Lemma no_reference_no_success yr yrs w r w' :
  yr = None \/ yrs = 0 ->
  prove_one_weso_slow tid ch chs xs xss yr yrs true bits T P cb ud w = (r, w') ->
  r = Val empty_result \/ r = Undefined.
Proof.
  intros Href Hrun. apply prove_run_shape in Hrun.
  destruct Hrun as [Hrej | rs w1 Hsetup Hkl | s w1 rl w2 Hsetup Hkl Hloop Hnv
                    | s w1 st w2 rf w3 Hsetup Hkl Hloop Hfin].
  - by left.
  - destruct rs; simpl; tauto.
  - destruct rl; simpl; tauto.
  - apply finish_run in Hfin as (evs_f & _ & Hout).
    assert (forall y_ser, y_ref_matches y_ser yr yrs = false) as Hno.
    { intros y_ser. unfold y_ref_matches.
      destruct Href as [-> | ->]; simpl; [done|].
      by rewrite orb_true_r. }
    destruct Hout; simpl; try tauto.
    rewrite Hno. by left.
Qed.

Lemma Forall_phase_not_in evs (ph : phase) e :
  Forall (fun e => phase_of e = ph) evs -> e ∈ evs -> phase_of e = ph.
Proof. intros Hall Hin. by eapply (proj1 (Forall_forall _ _) Hall). Qed.

(** A call in whose trace a call of the last stage appears has run the
    setup and the loop to their end. *)
Lemma reached_finish yr yrs chk w r w' e :
  0 <= T ->
  prove_one_weso_slow tid ch chs xs xss yr yrs chk bits T P cb ud w = (r, w') ->
  e ∈ new_events w w' ->
  phase_of e = Proving \/ phase_of e = Validating ->
  finished_run tid ch chs xs xss yr yrs chk bits T P cb w r w'.
Proof.
  intros HT Hrun Hin Hph. apply prove_run_shape in Hrun.
  destruct Hrun as [Hrej | rs w1 Hsetup Hkl | s w1 rl w2 Hsetup Hkl Hloop Hnv
                    | s w1 st w2 rf w3 Hsetup Hkl Hloop Hfin].
  - rewrite new_events_refl in Hin. by apply elem_of_nil in Hin.
  - apply setup_run in Hsetup as (evs & Happ & _ & _ & Hphs & _).
    rewrite (new_events_appended _ _ _ _ Happ) in Hin.
    pose proof (Forall_phase_not_in _ _ _ Hphs Hin) as E.
    rewrite E in Hph. by destruct Hph.
  - destruct (setup_loop_run _ _ _ _ _ Hsetup Hloop)
      as (evs_s & evs_l & Happ & _ & Hphs & _ & _ & _ & Hphl & _).
    rewrite (new_events_appended _ _ _ _ Happ) in Hin.
    apply elem_of_app in Hin as [Hin|Hin].
    + pose proof (Forall_phase_not_in _ _ _ Hphs Hin) as E.
      rewrite E in Hph. by destruct Hph.
    + pose proof (Forall_phase_not_in _ _ _ Hphl Hin) as E.
      rewrite E in Hph. by destruct Hph.
  - destruct (setup_loop_run _ _ _ _ _ Hsetup Hloop)
      as (evs_s & evs_l & Happ & Hpar & Hphs & _ & Hsok & Hina & Hphl & _ & Hval).
    destruct (Hval st eq_refl) as [Hsq Hrep].
    destruct (run_loop_checkpoints _ _ _ _ Hkl HT Hloop) as (Hy & Hlen & Hslots).
    apply finish_run in Hfin as (evs_f & -> & Hout).
    pose proof (appended_trans _ _ _ _ _ _ Happ (appended_add_events tid evs_f w2))
      as Happ3.
    rewrite <- app_assoc in Happ3.
    destruct (plan_range s Hsok) as [Hk Hl].
    by eapply (Finished_run _ _ _ _ _ _ _ _ _ _ _ _ _ _ _ s st rf evs_s evs_l evs_f).
Qed.

(** A call that returned a buffer reached the last stage, and that stage
    ended with the encoding. *)
Lemma successful_run yr yrs chk w out w' :
  0 <= T ->
  prove_one_weso_slow tid ch chs xs xss yr yrs chk bits T P cb ud w
  = (Val out, w') ->
  out <> empty_result ->
  finished_run tid ch chs xs xss yr yrs chk bits T P cb w (Val out) w'.
Proof.
  intros HT Hrun Hout.
  assert (exists e, e ∈ new_events w w' /\ phase_of e = Proving) as (e & Hin & Hph).
  { apply prove_run_shape in Hrun.
    inversion Hrun as [Hrej | rs w1 Hsetup Hkl | s w1 rl w2 Hsetup Hkl Hloop Hnv
                       | s w1 st w2 rf w3 Hsetup Hkl Hloop Hfin]; subst.
    - congruence.
    - destruct rs; simpl in *; congruence.
    - destruct rl; simpl in *; congruence.
    - destruct (setup_loop_run _ _ _ _ _ Hsetup Hloop)
        as (evs_s & evs_l & Happ & _).
      apply finish_run in Hfin as (evs_f & -> & Hfo).
      pose proof (appended_trans _ _ _ _ _ _ Happ
                    (appended_add_events tid evs_f w2)) as Happ3.
      rewrite (new_events_appended _ _ _ _ Happ3).
      destruct Hfo; eexists; (split; [|shelve]);
        apply elem_of_app; right; apply list_elem_of_here. }
  eapply reached_finish; eauto.
  Unshelve. all: reflexivity.
Qed.

(** What a call does to the published plans: nothing, or it publishes the
    plan of the calling thread after having called the heuristic. *)
Lemma prove_parameters_frame yr yrs chk w r w' :
  prove_one_weso_slow tid ch chs xs xss yr yrs chk bits T P cb ud w = (r, w') ->
  exists evs,
    appended tid evs w w'
    /\ (last_streaming_parameters w' = last_streaming_parameters w
        \/ exists k l,
             last_streaming_parameters w'
             = <[tid := mk_params k l false true]> (last_streaming_parameters w)
             /\ EvApproximateParameters T ∈ evs).
Proof.
  intros Hrun. apply prove_run_shape in Hrun.
  destruct Hrun as [Hrej | rs w1 Hsetup Hkl | s w1 rl w2 Hsetup Hkl Hloop Hnv
                    | s w1 st w2 rf w3 Hsetup Hkl Hloop Hfin].
  - exists []. split; [|by left]. replace w with (add_events tid [] w) at 2
      by apply add_events_nil. apply appended_add_events.
  - apply setup_run in Hsetup as (evs & Happ & Hpar & _).
    exists evs. split; [done|by left].
  - destruct (setup_loop_run _ _ _ _ _ Hsetup Hloop)
      as (evs_s & evs_l & Happ & Hpar & _ & _ & _ & Hin & _).
    exists (evs_s ++ evs_l). split; [done|]. right.
    eexists _, _. split; [exact Hpar|]. apply elem_of_app. by left.
  - destruct (setup_loop_run _ _ _ _ _ Hsetup Hloop)
      as (evs_s & evs_l & Happ & Hpar & _ & _ & _ & Hin & _).
    apply finish_run in Hfin as (evs_f & -> & _).
    exists ((evs_s ++ evs_l) ++ evs_f). split.
    { eapply appended_trans; [exact Happ|apply appended_add_events]. }
    right. eexists _, _. split; [exact Hpar|].
    apply elem_of_app; left. apply elem_of_app. by left.
Qed.

(** A call that reached the heuristic, got a plan from it and passed the
    test on [kl] has published that plan. *)
Lemma plan_published yr yrs chk w r w' l0 k0 :
  prove_one_weso_slow tid ch chs xs xss yr yrs chk bits T P cb ud w = (r, w') ->
  EvApproximateParameters T ∈ new_events w w' ->
  ApproximateParameters T 0 0 = Ok (l0, k0) ->
  0 < int_mul (fst (clamp_plan l0 k0)) (snd (clamp_plan l0 k0)) ->
  last_streaming_parameters w'
  = <[tid := mk_params (fst (clamp_plan l0 k0)) (snd (clamp_plan l0 k0))
               false true]> (last_streaming_parameters w).
Proof.
  intros Hrun Hin Hlk Hpos. apply prove_run_shape in Hrun.
  assert (forall s, setup_ok ch chs xs xss bits T s ->
                    plan_of s = clamp_plan l0 k0) as Hplan.
  { intros s (_ & _ & _ & _ & E). unfold plan_of.
    rewrite Hlk in E. injection E as E. by rewrite <- E. }
  destruct Hrun as [Hrej | rs w1 Hsetup Hkl | s w1 rl w2 Hsetup Hkl Hloop Hnv
                    | s w1 st w2 rf w3 Hsetup Hkl Hloop Hfin].
  - rewrite new_events_refl in Hin. by apply elem_of_nil in Hin.
  - exfalso. destruct rs as [s| |].
    + specialize (Hkl s eq_refl).
      apply setup_run in Hsetup as (evs & _ & _ & _ & _ & _ & Hval).
      destruct (Hval s eq_refl) as [Hsok _].
      unfold kl_of in Hkl. rewrite (Hplan s Hsok) in Hkl. lia.
    + pose proof (setup_threw_at_heuristic _ _ Hsetup Hin). congruence.
    + by apply setup_defined in Hsetup.
  - destruct (setup_loop_run _ _ _ _ _ Hsetup Hloop)
      as (evs_s & evs_l & _ & Hpar & _ & _ & Hsok & _).
    by rewrite Hpar, (Hplan s Hsok).
  - destruct (setup_loop_run _ _ _ _ _ Hsetup Hloop)
      as (evs_s & evs_l & _ & Hpar & _ & _ & Hsok & _).
    apply finish_run in Hfin as (evs_f & -> & _).
    unfold add_events; cbn [last_streaming_parameters].
    by rewrite Hpar, (Hplan s Hsok).
Qed.

End ShapeFacts.

Section FinishFacts.

Context `{Chiavdf}.

Lemma finish_outcome_no_reports yr yrs chk T D x k l st evs r :
  finish_outcome yr yrs chk T D x k l st evs r -> progress_reports evs = [].
Proof. destruct 1; try destruct chk; reflexivity. Qed.

Lemma finish_outcome_no_squarings yr yrs chk T D x k l st evs r :
  finish_outcome yr yrs chk T D x k l st evs r -> squarings evs = 0%nat.
Proof. destruct 1; try destruct chk; reflexivity. Qed.

(** The one call of the proof generator in the last stage is its first
    call, made with the loop's final element and checkpoints. *)
Lemma finish_outcome_generate yr yrs chk T D x k l st evs r y' x' D' inter' T' k' l' :
  finish_outcome yr yrs chk T D x k l st evs r ->
  EvGenerateWesolowski y' x' D' inter' T' k' l' ∈ evs ->
  y' = ls_y st /\ x' = x /\ D' = D /\ inter' = ls_intermediates st
  /\ T' = T /\ k' = wrap_u64 k /\ l' = wrap_u64 l.
Proof.
  destruct 1; try destruct chk; intros Hin; simpl in Hin.
  all: repeat (apply elem_of_cons in Hin as [Hin|Hin];
               [try discriminate; try (injection Hin as -> -> -> -> -> -> ->; done)|]).
  all: by apply elem_of_nil in Hin.
Qed.

End FinishFacts.

Section ReachableFacts.

Context `{Chiavdf}.

Lemma thread_parameters_insert w w' tid p t :
  last_streaming_parameters w' = <[tid := p]> (last_streaming_parameters w) ->
  thread_parameters w' t = if decide (tid = t) then p else thread_parameters w t.
Proof.
  intros E. unfold thread_parameters. rewrite E, lookup_insert.
  by destruct (decide (tid = t)).
Qed.

(** In every state a process can be in, a thread whose plan is marked as
    set has called the heuristic. *)
Lemma reachable_parameters_set w :
  reachable w ->
  forall tid, lsp_set (thread_parameters w tid) = true ->
              reached_parameter_selection tid (trace w).
Proof.
  induction 1 as [|c w Hreach IH]; intros tid Hset.
  - unfold thread_parameters in Hset. simpl in Hset.
    rewrite lookup_empty in Hset. discriminate.
  - destruct c as [tid0 ch chs xs xss yr yrs chk bits T P cb ud|bytes|tid0 enable];
      simpl in *.
    + destruct (prove_one_weso_slow tid0 ch chs xs xss yr yrs chk bits T P cb ud w)
        as [r w'] eqn:Hrun. simpl in *.
      apply prove_parameters_frame in Hrun
        as (evs & (Htr & _ & _) & [Hpar|(k & l & Hpar & Hin)]).
      * assert (thread_parameters w' tid = thread_parameters w tid) as E
          by (unfold thread_parameters; by rewrite Hpar).
        rewrite E in Hset. destruct (IH tid Hset) as [T' HT'].
        exists T'. rewrite Htr. apply elem_of_app. by left.
      * rewrite (thread_parameters_insert _ _ _ _ _ Hpar) in Hset.
        destruct (decide (tid0 = tid)) as [->|Hne].
        -- exists T. rewrite Htr. apply elem_of_app. right.
           apply list_elem_of_fmap. by exists (EvApproximateParameters T).
        -- destruct (IH tid Hset) as [T' HT'].
           exists T'. rewrite Htr. apply elem_of_app. by left.
    + exact (IH tid Hset).
    + exact (IH tid Hset).
Qed.

End ReachableFacts.


(** ** The counts reported to the callback *)

Section ReportFacts.

Variables (T P : Z).

Lemma expected_reports_snoc i n :
  expected_reports T P i (S n)
  = expected_reports T P i n
    ++ (if (i + 1 + Z.of_nat n =? T) || ((i + 1 + Z.of_nat n) mod P =? 0)
        then [i + 1 + Z.of_nat n] else []).
Proof.
  unfold expected_reports. rewrite seqZ_S, filter_app. f_equal.
  rewrite filter_cons, filter_nil.
  destruct ((i + 1 + Z.of_nat n =? T) || ((i + 1 + Z.of_nat n) mod P =? 0)).
  - by rewrite decide_True.
  - by rewrite decide_False.
Qed.

Lemma expected_reports_elem i n d :
  d ∈ expected_reports T P i n -> i < d <= i + Z.of_nat n.
Proof.
  unfold expected_reports. intros Hin.
  apply list_elem_of_filter in Hin as [_ Hin].
  apply elem_of_seqZ in Hin. lia.
Qed.

Lemma expected_reports_sorted i n :
  StronglySorted Z.lt (expected_reports T P i n).
Proof.
  induction n as [|n IH].
  - unfold expected_reports. simpl. constructor.
  - rewrite expected_reports_snoc. apply StronglySorted_app_2.
    + intros d1 d2 H1 H2. apply expected_reports_elem in H1.
      case_match; [|by apply elem_of_nil in H2].
      apply list_elem_of_singleton in H2. lia.
    + exact IH.
    + case_match; repeat constructor.
Qed.

Lemma expected_reports_last :
  0 < T -> last (expected_reports T P 0 (Z.to_nat T)) = Some T.
Proof.
  intros HT. destruct (Z.to_nat T) as [|n] eqn:E; [lia|].
  rewrite expected_reports_snoc.
  replace (0 + 1 + Z.of_nat n) with T by lia.
  rewrite Z.eqb_refl. simpl. apply last_snoc.
Qed.

Lemma div_succ n :
  0 < P -> 0 <= n ->
  (n + 1) / P = n / P + (if (n + 1) mod P =? 0 then 1 else 0).
Proof.
  intros HP Hn.
  pose proof (Z.div_mod n P ltac:(lia)) as E.
  pose proof (Z.mod_pos_bound n P HP) as B.
  destruct (Z.eqb_spec ((n + 1) mod P) 0) as [Hz|Hnz].
  - symmetry. apply (Z.div_unique _ _ _ 0); [lia|].
    assert (n mod P = P - 1) as Hr.
    { destruct (Z.eq_dec (n mod P) (P - 1)) as [|Hne]; [done|].
      exfalso.
      assert ((n + 1) mod P = n mod P + 1) as E'.
      { symmetry. apply (Z.mod_unique _ _ (n / P)); lia. }
      lia. }
    lia.
  - symmetry. apply (Z.div_unique _ _ _ (n mod P + 1)); [|lia].
    assert (n mod P <> P - 1) as Hr.
    { intros Hr. apply Hnz. symmetry.
      apply (Z.mod_unique _ _ (n / P + 1)); lia. }
    lia.
Qed.

Lemma expected_reports_length_below n :
  0 < P -> Z.of_nat n < T ->
  Z.of_nat (length (expected_reports T P 0 n)) = Z.of_nat n / P.
Proof.
  intros HP. induction n as [|n IH]; intros Hn.
  - unfold expected_reports. simpl. by rewrite Z.div_0_l by lia.
  - rewrite expected_reports_snoc, length_app, Nat2Z.inj_add, IH by lia.
    replace (0 + 1 + Z.of_nat n) with (Z.of_nat n + 1) by lia.
    replace (Z.of_nat (S n)) with (Z.of_nat n + 1) by lia.
    rewrite div_succ by lia.
    destruct (Z.eqb_spec (Z.of_nat n + 1) T) as [|_]; [lia|]. simpl.
    by destruct ((Z.of_nat n + 1) mod P =? 0).
Qed.

Lemma expected_reports_length :
  0 < P -> 0 < T ->
  Z.of_nat (length (expected_reports T P 0 (Z.to_nat T))) = ceil_div T P.
Proof.
  intros HP HT. destruct (Z.to_nat T) as [|n] eqn:E; [lia|].
  rewrite expected_reports_snoc, length_app, Nat2Z.inj_add.
  rewrite expected_reports_length_below by lia.
  replace (0 + 1 + Z.of_nat n) with T by lia.
  rewrite Z.eqb_refl. simpl. unfold ceil_div.
  replace (T + P - 1) with (Z.of_nat n + 1 * P) by lia.
  rewrite Z.div_add by lia. lia.
Qed.

(** The same list, with the test written as a proposition. *)
Lemma expected_reports_filter :
  0 <= T ->
  expected_reports T P 0 (Z.to_nat T)
  = filter (fun done => done = T \/ done mod P = 0) (seqZ 1 T).
Proof.
  intros HT. unfold expected_reports. rewrite Z2Nat.id by done. simpl.
  apply list_filter_iff. intros d.
  rewrite orb_true_iff, !Z.eqb_eq. reflexivity.
Qed.

End ReportFacts.

(** ** The result does not depend on the process state or on the progress
    arguments *)

Section ResultFacts.

Context `{Chiavdf}.

Lemma fst_bind {A B} (m1 m2 : M A) (f1 f2 : A -> M B) w1 w2 :
  fst (m1 w1) = fst (m2 w2) ->
  (forall a w1' w2', fst (f1 a w1') = fst (f2 a w2')) ->
  fst (bind m1 f1 w1) = fst (bind m2 f2 w2).
Proof.
  unfold bind. intros Hm Hf.
  destruct (m1 w1) as [[a1| |] w1'], (m2 w2) as [[a2| |] w2'];
    simpl in *; simplify_eq; try reflexivity.
  apply Hf.
Qed.

Lemma fst_try_catch {A} (m1 m2 : M A) (a : A) w1 w2 :
  fst (m1 w1) = fst (m2 w2) ->
  fst (try_catch m1 (ret a) w1) = fst (try_catch m2 (ret a) w2).
Proof.
  unfold try_catch, ret. intros Hm.
  destruct (m1 w1) as [[a1| |] w1'], (m2 w2) as [[a2| |] w2'];
    simpl in *; simplify_eq; reflexivity.
Qed.

Lemma fst_call_once_init tid1 tid2 w1 w2 :
  fst (call_once_init tid1 w1) = fst (call_once_init tid2 w2).
Proof. unfold call_once_init. by destruct (init_once w1), (init_once w2). Qed.

Lemma fst_setup tid1 tid2 ch chs xs xss bits T w1 w2 :
  fst (setup tid1 ch chs xs xss bits T w1)
  = fst (setup tid2 ch chs xs xss bits T w2).
Proof.
  unfold setup.
  apply fst_bind; [apply fst_call_once_init|]. intros _ ? ?.
  repeat (apply fst_bind; [reflexivity|]; intros ? ? ?).
  reflexivity.
Qed.

Lemma fst_loop_body tid1 tid2 D L kl T P1 P2 cb1 cb2 ud1 ud2 i st w1 w2 :
  fst (loop_body tid1 D L kl T P1 cb1 ud1 i st w1)
  = fst (loop_body tid2 D L kl T P2 cb2 ud2 i st w2).
Proof.
  unfold loop_body.
  apply fst_bind.
  { repeat case_match; reflexivity. }
  intros st1 ? ?.
  apply fst_bind; [reflexivity|]. intros y1 ? ?.
  apply fst_bind; [reflexivity|]. intros y2 ? ?.
  apply fst_bind; [|reflexivity].
  repeat case_match; reflexivity.
Qed.

Lemma fst_squaring_loop tid1 tid2 D L kl T P1 P2 cb1 cb2 ud1 ud2 n :
  forall i st w1 w2,
    fst (squaring_loop tid1 D L kl T P1 cb1 ud1 n i st w1)
    = fst (squaring_loop tid2 D L kl T P2 cb2 ud2 n i st w2).
Proof.
  induction n as [|n IH]; intros i st w1 w2; [reflexivity|].
  simpl. apply fst_bind; [apply fst_loop_body|].
  intros st1 ? ?. apply IH.
Qed.

Lemma fst_finish tid1 tid2 yr yrs chk T D x k l st w1 w2 :
  fst (finish tid1 yr yrs chk T D x k l st w1)
  = fst (finish tid2 yr yrs chk T D x k l st w2).
Proof.
  unfold finish.
  repeat (apply fst_bind; [reflexivity|]; intros ? ? ?).
  case_match; [reflexivity|].
  apply fst_bind; [|intros [] ? ?; reflexivity].
  destruct chk; [|reflexivity].
  apply fst_bind; [reflexivity|]. reflexivity.
Qed.

Lemma fst_prove tid1 tid2 ch chs xs xss yr yrs chk bits T
    P1 P2 cb1 cb2 ud1 ud2 w1 w2 :
  fst (prove_one_weso_slow tid1 ch chs xs xss yr yrs chk bits T P1 cb1 ud1 w1)
  = fst (prove_one_weso_slow tid2 ch chs xs xss yr yrs chk bits T P2 cb2 ud2 w2).
Proof.
  destruct (is_null ch || (chs =? 0) || is_null xs || (xss =? 0)) eqn:G1.
  { unfold prove_one_weso_slow. by rewrite G1. }
  destruct ((T =? 0) || (bits =? 0)) eqn:G2.
  { unfold prove_one_weso_slow. by rewrite G1, G2. }
  rewrite !try_block_stages by done.
  apply fst_try_catch. unfold try_block.
  apply fst_bind; [apply fst_setup|]. intros s ? ?.
  destruct (clamp_plan _ _) as [k l].
  case_match; [reflexivity|].
  apply fst_bind; [reflexivity|]. intros _ ? ?.
  apply fst_bind; [reflexivity|]. intros _ ? ?.
  apply fst_bind; [apply fst_squaring_loop|]. intros st ? ?.
  apply fst_finish.
Qed.

(** The setup of a run is determined by the arguments. *)
Lemma setup_ok_unique ch chs xs xss bits T s1 s2 :
  setup_ok ch chs xs xss bits T s1 -> setup_ok ch chs xs xss bits T s2 ->
  s1 = s2.
Proof.
  intros (D1 & L1 & X1 & Y1 & K1) (D2 & L2 & X2 & Y2 & K2).
  destruct s1 as [D L x y lk], s2 as [D' L' x' y' lk']. simpl in *.
  rewrite D1 in D2. simplify_eq.
  rewrite L1 in L2. simplify_eq.
  rewrite X1 in X2. simplify_eq.
  rewrite Y1 in Y2. simplify_eq.
  rewrite K1 in K2. by simplify_eq.
Qed.

End ResultFacts.

(** ** The reference check *)

(** [y_ref_matches] is the byte-for-byte comparison against a non-null,
    non-empty reference of the same length. *)
Lemma y_ref_matches_true y_serialized y_ref_s y_ref_s_size :
  y_ref_matches y_serialized y_ref_s y_ref_s_size = true
  <-> y_ref_s <> None /\ y_ref_s_size <> 0
      /\ Z.of_nat (length y_serialized) = y_ref_s_size
      /\ y_serialized = read_bytes y_ref_s y_ref_s_size.
Proof.
  unfold y_ref_matches. split.
  - destruct y_ref_s as [mem|]; simpl; [|discriminate].
    destruct (Z.eqb_spec y_ref_s_size 0); [discriminate|].
    destruct (Z.eqb_spec (Z.of_nat (length y_serialized)) y_ref_s_size) as [E|];
      [|discriminate].
    simpl. rewrite E. case_bool_decide; [|discriminate]. done.
  - intros (Hp & Hs & Hl & Hb).
    destruct y_ref_s as [mem|]; [|done]. simpl.
    destruct (Z.eqb_spec y_ref_s_size 0); [done|].
    destruct (Z.eqb_spec (Z.of_nat (length y_serialized)) y_ref_s_size) as [E|];
      [|done].
    simpl. rewrite E. case_bool_decide; done.
Qed.

(** An element that occurs only at the end of a list splits it in one way. *)
Lemma snoc_split_unique {A} (l pre post : list A) (a b : A) :
  l ++ [a] = pre ++ b :: post -> b ∉ l ->
  pre = l /\ b = a /\ post = [].
Proof.
  intros E Hnot.
  destruct post as [|z post _] using rev_ind.
  - apply app_inj_tail in E as [-> ->]. done.
  - exfalso. apply Hnot.
    rewrite app_comm_cons, app_assoc in E.
    apply app_inj_tail in E as [-> _].
    apply elem_of_app. right. apply list_elem_of_here.
Qed.

(** * The trace of the loop and of a run *)

Section LoopTraceFacts.

Context `{Chiavdf}.
Variables (tid : nat) (D L kl T P : Z) (cb : option nat) (ud : Z).

Lemma loop_body_trace i st w r w' :
  loop_body tid D L kl T P cb ud i st w = (r, w') ->
  (r = Undefined /\ w' = w)
  \/ (nudupl_form (ls_y st) D L = Raise /\ r = Throw
      /\ w' = add_events tid [EvNudupl (ls_y st) D L] w)
  \/ (exists y1, nudupl_form (ls_y st) D L = Ok y1 /\ reduce y1 = Raise
                 /\ r = Throw
                 /\ w' = add_events tid [EvNudupl (ls_y st) D L; EvReduce y1] w)
  \/ (exists y1 st', nudupl_form (ls_y st) D L = Ok y1
                     /\ reduce y1 = Ok (ls_y st') /\ r = Val st'
                     /\ w' = add_events tid
                               (EvNudupl (ls_y st) D L :: EvReduce y1
                                :: iteration_report T P cb ud i) w).
Proof.
  unfold loop_body, bind, call, log, ret, undefined, iteration_report.
  intros Hrun.
  repeat case_match; simplify_eq; norm_events; simpl in *.
  all: first
         [ left; split; reflexivity
         | right; left; repeat split; done
         | right; right; left; eexists; repeat split; done
         | right; right; right; eexists _, _; repeat split; done ].
Qed.

End LoopTraceFacts.

Section LoopTraceInduction.

Context `{Chiavdf}.
Variables (tid : nat) (D L kl T P : Z) (cb : option nat) (ud : Z).

Lemma squarings_cons_squaring f D' L' evs :
  squarings (EvNudupl f D' L' :: evs) = S (squarings evs).
Proof. reflexivity. Qed.

Lemma iteration_report_no_squaring i evs :
  squarings (iteration_report T P cb ud i ++ evs) = squarings evs.
Proof. unfold iteration_report. repeat case_match; reflexivity. Qed.

(** The loop leaves one of the traces of [loop_trace]; it calls the squaring
    at most [n] times, and [n] times when it runs to its end. *)
Lemma squaring_loop_trace n :
  forall i st w r w',
    squaring_loop tid D L kl T P cb ud n i st w = (r, w') ->
    exists evs,
      w' = add_events tid evs w
      /\ loop_trace D L T P cb ud i (ls_y st) evs
      /\ (squarings evs <= n)%nat
      /\ (forall st', r = Val st' -> squarings evs = n)
      /\ (r <> Throw -> Forall (fun e => ~ raised e) evs).
Proof.
  induction n as [|n IH]; intros i st w r w' Hrun.
  - simpl in Hrun. unfold ret in Hrun. simplify_eq.
    exists []. rewrite add_events_nil.
    split; [done|]. split; [constructor|]. split; [done|]. done.
  - simpl in Hrun. unfold bind in Hrun.
    destruct (loop_body tid D L kl T P cb ud i st w) as [r1 w1] eqn:Hbody.
    apply loop_body_trace in Hbody
      as [[-> ->] | [(E0 & -> & ->) | [(y1 & E0 & E1 & -> & ->)
                                      | (y1 & st1 & E0 & E1 & -> & ->)]]].
    + simplify_eq. exists []. rewrite add_events_nil.
      split; [done|]. split; [constructor|]. split; [unfold squarings; simpl; lia|]. done.
    + simplify_eq. eexists. split; [reflexivity|].
      split; [by constructor|]. split; [unfold squarings; simpl; lia|]. done.
    + simplify_eq. eexists. split; [reflexivity|].
      split; [by econstructor|]. split; [unfold squarings; simpl; lia|]. done.
    + apply IH in Hrun as (evs & -> & Htr & Hle & Hval & Hok).
      rewrite add_events_app. eexists. split; [reflexivity|].
      split; [|split; [|split]].
      4: { intros Hr. simpl.
           apply Forall_cons. split; [simpl; congruence|].
           apply Forall_cons. split; [simpl; congruence|].
           apply Forall_app. split; [|by apply Hok].
           unfold iteration_report. repeat case_match; repeat constructor; tauto. }
      * simpl. by eapply loop_trace_step.
      * simpl. rewrite squarings_cons_squaring.
        change (EvReduce y1 :: iteration_report T P cb ud i ++ evs)
          with ([EvReduce y1] ++ iteration_report T P cb ud i ++ evs).
        rewrite squarings_app, iteration_report_no_squaring.
        unfold squarings at 1. simpl. lia.
      * intros st' ->. simpl. rewrite squarings_cons_squaring.
        change (EvReduce y1 :: iteration_report T P cb ud i ++ evs)
          with ([EvReduce y1] ++ iteration_report T P cb ud i ++ evs).
        rewrite squarings_app, iteration_report_no_squaring.
        unfold squarings at 1. simpl. by rewrite (Hval st' eq_refl).
Qed.

Lemma loop_trace_phase i y evs :
  loop_trace D L T P cb ud i y evs ->
  Forall (fun e => phase_of e = Squaring) evs.
Proof.
  induction 1 as [| | |i y y1 y2 evs E0 E1 _ IH]; repeat constructor.
  apply Forall_app. split; [|exact IH].
  unfold iteration_report. repeat case_match; repeat constructor.
Qed.

(** No callback is invoked when the callback is null or the cadence is 0. *)
Lemma loop_trace_no_reports i y evs :
  cb = None \/ P = 0 ->
  loop_trace D L T P cb ud i y evs ->
  progress_reports evs = [].
Proof.
  intros Hoff. induction 1 as [| | |i y y1 y2 evs E0 E1 _ IH]; try reflexivity.
  change (EvNudupl y D L :: EvReduce y1 :: iteration_report T P cb ud i ++ evs)
    with ([EvNudupl y D L; EvReduce y1] ++ iteration_report T P cb ud i ++ evs).
  rewrite !progress_reports_app, IH.
  unfold iteration_report. destruct Hoff as [-> | ->]; [reflexivity|].
  by destruct cb.
Qed.

(** Every invocation passes the caller's callback and user data and a count
    in the cadence. *)
Lemma loop_trace_report_arguments i y evs :
  loop_trace D L T P cb ud i y evs ->
  Forall (fun e => match e with
                   | EvProgress c done u =>
                       cb = Some c /\ u = ud /\ P <> 0
                       /\ (done = T \/ done mod P = 0)
                   | _ => True
                   end) evs.
Proof.
  induction 1 as [| | |i y y1 y2 evs E0 E1 _ IH]; repeat constructor.
  apply Forall_app. split; [|exact IH].
  unfold iteration_report.
  destruct cb as [c|]; [|constructor].
  destruct (Z.eqb_spec P 0); simpl; [constructor|].
  destruct ((i + 1 =? T) || ((i + 1) mod P =? 0)) eqn:E; [|constructor].
  constructor; [|constructor].
  split; [done|]. split; [done|]. split; [done|].
  apply orb_true_iff in E as [E|E]; apply Z.eqb_eq in E; tauto.
Qed.

(** Each reported count is the number of squarings called so far. *)
Lemma loop_trace_report_counts i y evs :
  loop_trace D L T P cb ud i y evs ->
  forall n : nat,
    Forall (fun p => fst p - i = Z.of_nat (snd p) - Z.of_nat n)
      (reports_with_squarings n evs).
Proof.
  induction 1 as [| | |i y y1 y2 evs E0 E1 _ IH]; intros n;
    try (simpl; constructor).
  simpl. unfold iteration_report.
  assert (Forall (fun p => p.1 - i = Z.of_nat p.2 - Z.of_nat n)
            (reports_with_squarings (S n) evs)) as Hrest.
  { eapply Forall_impl; [apply (IH (S n))|]. intros [d m]. simpl. lia. }
  repeat case_match; simpl; try exact Hrest.
  constructor; [simpl; lia|exact Hrest].
Qed.

Lemma square_reduce_n_shift n : forall y y2 r,
  square_reduce D L y = Ok y2 ->
  square_reduce_n D L n y2 = r ->
  square_reduce_n D L (S n) y = r.
Proof.
  induction n as [|n IH]; intros y y2 r Hy Hr.
  - simpl in *. by subst.
  - change (square_reduce_n D L (S (S n)) y)
      with (match square_reduce_n D L (S n) y with
            | Ok y' => square_reduce D L y'
            | Raise => Raise
            end).
    rewrite (IH y y2 (square_reduce_n D L n y2) Hy eq_refl).
    exact Hr.
Qed.

(** The j-th squaring is called on the start element squared and reduced j
    times. *)
Lemma loop_trace_squaring_inputs i y evs :
  loop_trace D L T P cb ud i y evs ->
  forall (j : nat) f,
    squaring_inputs evs !! j = Some f -> square_reduce_n D L j y = Ok f.
Proof.
  induction 1 as [| | |i y y1 y2 evs E0 E1 _ IH]; intros j f Hj.
  - by destruct j.
  - destruct j as [|[|j]]; simpl in Hj; by simplify_eq.
  - destruct j as [|[|j]]; simpl in Hj; by simplify_eq.
  - assert (squaring_inputs
              (EvNudupl y D L :: EvReduce y1 :: iteration_report T P cb ud i ++ evs)
            = y :: squaring_inputs evs) as E.
    { unfold squaring_inputs, iteration_report. simpl.
      repeat case_match; reflexivity. }
    rewrite E in Hj. destruct j as [|j]; simpl in Hj.
    + by simplify_eq.
    + eapply square_reduce_n_shift; [|apply IH; exact Hj].
      unfold square_reduce. by rewrite E0.
Qed.

(** Every squaring that returned is followed by the reduction of its
    result. *)
Lemma loop_trace_reduced i y evs :
  loop_trace D L T P cb ud i y evs -> reduced_after_squaring evs.
Proof.
  induction 1 as [|i y E0|i y y1 E0 E1|i y y1 y2 evs E0 E1 _ IH]; simpl.
  - done.
  - by rewrite E0.
  - rewrite E0. split; [by eexists|done].
  - rewrite E0. split; [by eexists|].
    unfold iteration_report. repeat case_match; exact IH.
Qed.

Lemma loop_trace_squarings_use i y evs :
  loop_trace D L T P cb ud i y evs ->
  Forall (fun e => match e with
                   | EvNudupl _ D' L' => D' = D /\ L' = L
                   | _ => True
                   end) evs.
Proof.
  induction 1 as [| | |i y y1 y2 evs E0 E1 _ IH]; repeat constructor.
  apply Forall_app. split; [|exact IH].
  unfold iteration_report. repeat case_match; repeat constructor.
Qed.

End LoopTraceInduction.

Section RunTraceFacts.

Context `{Chiavdf}.
Variables (tid : nat).
Variables (ch : option (list byte)) (chs : Z).
Variables (xs : option (list byte)) (xss : Z).
Variables (yr : option (list byte)) (yrs : Z) (chk : bool).
Variables (bits T P : Z) (cb : option nat) (ud : Z).

Lemma appended_refl w : appended tid [] w w.
Proof. repeat split. simpl. by rewrite app_nil_r. Qed.

(** The trace of any call: the calls of the setup, then those of the loop,
    then those of the last stage. *)
Lemma run_trace w r w' :
  prove_one_weso_slow tid ch chs xs xss yr yrs chk bits T P cb ud w = (r, w') ->
  exists evs_s evs_l evs_f,
    appended tid (evs_s ++ evs_l ++ evs_f) w w'
    /\ Forall (fun e => phase_of e = Setup) evs_s
    /\ Forall (fun e => phase_of e = Proving \/ phase_of e = Validating) evs_f
    /\ (squarings evs_l <= Z.to_nat T)%nat
    /\ (evs_f <> [] ->
        squarings evs_l = Z.to_nat T /\ Forall (fun e => ~ raised e) evs_l)
    /\ ((evs_l = [] /\ evs_f = [])
        \/ exists s,
             setup_ok ch chs xs xss bits T s
             /\ 0 < kl_of s
             /\ loop_trace (su_D s) (su_L s) T P cb ud 0 (su_y s) evs_l
             /\ (evs_f = []
                 \/ exists st rf,
                      finish_outcome yr yrs chk T (su_D s) (su_x s)
                        (fst (plan_of s)) (snd (plan_of s)) st evs_f rf
                      /\ r = caught rf)).
Proof.
  intros Hrun. apply prove_run_shape in Hrun.
  destruct Hrun as [Hrej | rs w1 Hsetup Hkl | s w1 rl w2 Hsetup Hkl Hloop Hnv
                    | s w1 st w2 rf w3 Hsetup Hkl Hloop Hfin].
  - exists [], [], []. split; [apply appended_refl|].
    split; [done|]. split; [done|].
    split; [unfold squarings; simpl; lia|]. split; [done|]. by left.
  - apply setup_run in Hsetup as (evs & Happ & _ & _ & Hph & _).
    exists evs, [], []. rewrite app_nil_r.
    split; [done|]. split; [done|]. split; [done|].
    split; [unfold squarings; simpl; lia|]. split; [done|]. by left.
  - pose proof Hsetup as Hsetup'.
    apply setup_run in Hsetup' as (evs_s & Happ & _ & _ & Hph & _ & Hval).
    destruct (Hval s eq_refl) as [Hsok _].
    unfold run_loop in Hloop.
    apply squaring_loop_trace in Hloop as (evs_l & -> & Htr & Hle & _).
    exists evs_s, evs_l, []. rewrite app_nil_r.
    split.
    { eapply appended_trans; [exact Happ|].
      replace evs_l with ([] ++ evs_l) by done.
      eapply appended_trans; [apply appended_plan_stored|apply appended_add_events]. }
    split; [done|]. split; [done|]. split; [done|]. split; [done|].
    right. exists s. split; [done|]. split; [done|]. split; [done|]. by left.
  - pose proof Hsetup as Hsetup'.
    apply setup_run in Hsetup' as (evs_s & Happ & _ & _ & Hph & _ & Hval).
    destruct (Hval s eq_refl) as [Hsok _].
    unfold run_loop in Hloop.
    apply squaring_loop_trace in Hloop as (evs_l & -> & Htr & Hle & Hn & Hokl).
    apply finish_run in Hfin as (evs_f & -> & Hfo).
    exists evs_s, evs_l, evs_f.
    split.
    { eapply appended_trans; [exact Happ|].
      eapply appended_trans; [|apply appended_add_events].
      replace evs_l with ([] ++ evs_l) by done.
      eapply appended_trans; [apply appended_plan_stored|apply appended_add_events]. }
    split; [done|]. split; [by eapply finish_outcome_phases|].
    split; [done|].
    split; [intros _; split; [by apply (Hn st)|by apply Hokl]|].
    right. exists s. split; [done|]. split; [done|]. split; [done|].
    right. by exists st, rf.
Qed.

(** What a call does to the thread-local diagnostics: nothing, or it
    publishes the plan of the calling thread and resets its stats, after
    having called the heuristic. *)
Lemma prove_world_frame w r w' :
  prove_one_weso_slow tid ch chs xs xss yr yrs chk bits T P cb ud w = (r, w') ->
  (last_streaming_parameters w' = last_streaming_parameters w
   /\ last_streaming_stats w' = last_streaming_stats w)
  \/ exists s,
       setup_ok ch chs xs xss bits T s
       /\ 0 < kl_of s
       /\ EvApproximateParameters T ∈ new_events w w'
       /\ last_streaming_parameters w'
          = <[tid := mk_params (fst (plan_of s)) (snd (plan_of s)) false true]>
              (last_streaming_parameters w)
       /\ last_streaming_stats w'
          = <[tid := stats_init]> (last_streaming_stats w).
Proof.
  intros Hrun. apply prove_run_shape in Hrun.
  destruct Hrun as [Hrej | rs w1 Hsetup Hkl | s w1 rl w2 Hsetup Hkl Hloop Hnv
                    | s w1 st w2 rf w3 Hsetup Hkl Hloop Hfin].
  - by left.
  - apply setup_run in Hsetup as (evs & _ & Hpar & Hst & _). by left.
  - right. exists s.
    destruct (setup_loop_run _ _ _ _ _ _ _ _ _ _ _ _ _ _ _ Hsetup Hloop)
      as (evs_s & evs_l & Happ & Hpar & _ & _ & Hsok & Hin & _).
    apply setup_run in Hsetup as (evs & _ & _ & Hst & _).
    unfold run_loop in Hloop.
    apply squaring_loop_events in Hloop as (evs_l' & -> & _).
    split; [done|]. split; [done|].
    split.
    { rewrite (new_events_appended _ _ _ _ Happ). apply elem_of_app. by left. }
    split; [done|].
    unfold add_events, plan_stored, with_stats. cbn [last_streaming_stats].
    unfold with_parameters. cbn [last_streaming_stats]. by rewrite Hst.
  - right. exists s.
    destruct (setup_loop_run _ _ _ _ _ _ _ _ _ _ _ _ _ _ _ Hsetup Hloop)
      as (evs_s & evs_l & Happ & Hpar & _ & _ & Hsok & Hin & _).
    apply setup_run in Hsetup as (evs & _ & _ & Hst & _).
    unfold run_loop in Hloop.
    apply squaring_loop_events in Hloop as (evs_l' & -> & _).
    apply finish_run in Hfin as (evs_f & -> & _).
    split; [done|]. split; [done|].
    split.
    { pose proof (appended_trans _ _ _ _ _ _ Happ
                    (appended_add_events tid evs_f _)) as Happ3.
      rewrite (new_events_appended _ _ _ _ Happ3).
      apply elem_of_app; left. apply elem_of_app. by left. }
    split; [done|].
    unfold add_events, plan_stored, with_stats. cbn [last_streaming_stats].
    unfold with_parameters. cbn [last_streaming_stats]. by rewrite Hst.
Qed.

End RunTraceFacts.

Section TraceTools.

Context `{Chiavdf}.

Lemma squaring_inputs_app evs1 evs2 :
  squaring_inputs (evs1 ++ evs2) = squaring_inputs evs1 ++ squaring_inputs evs2.
Proof. unfold squaring_inputs. apply omap_app. Qed.

Lemma length_squaring_inputs evs : length (squaring_inputs evs) = squarings evs.
Proof.
  induction evs as [|e evs IH]; [reflexivity|].
  destruct e; try exact IH.
  rewrite squarings_cons_squaring, <- IH. reflexivity.
Qed.

Lemma reports_with_squarings_app evs1 : forall n evs2,
  reports_with_squarings n (evs1 ++ evs2)
  = reports_with_squarings n evs1
    ++ reports_with_squarings (n + squarings evs1) evs2.
Proof.
  induction evs1 as [|e evs1 IH]; intros n evs2.
  - unfold squarings. simpl. by rewrite Nat.add_0_r.
  - destruct e; simpl; rewrite ?IH; try reflexivity.
    rewrite squarings_cons_squaring. f_equal. f_equal. lia.
Qed.

(** Outside the loop nothing is squared and nothing is reported. *)
Lemma outside_loop evs :
  Forall (fun e => phase_of e <> Squaring) evs ->
  squaring_inputs evs = [] /\ progress_reports evs = [] /\ squarings evs = 0%nat
  /\ (forall n, reports_with_squarings n evs = [])
  /\ (forall rest, reduced_after_squaring (evs ++ rest) <-> reduced_after_squaring rest).
Proof.
  induction 1 as [|e evs He _ (I1 & I2 & I3 & I4 & I5)].
  - repeat split; try done.
  - unfold squaring_inputs, progress_reports, squarings in *.
    destruct e; simpl in *; try done.
Qed.

Lemma setup_outside_loop evs :
  Forall (fun e => phase_of e = Setup) evs ->
  Forall (fun e => phase_of e <> Squaring) evs.
Proof.
  intros Hall. eapply Forall_impl; [exact Hall|].
  intros e He. rewrite He. discriminate.
Qed.

Lemma finish_outside_loop evs :
  Forall (fun e => phase_of e = Proving \/ phase_of e = Validating) evs ->
  Forall (fun e => phase_of e <> Squaring) evs.
Proof.
  intros Hall. eapply Forall_impl; [exact Hall|].
  intros e [He | He]; rewrite He; discriminate.
Qed.

(** A loop trace in which nothing raised stays well formed when the calls of
    the last stage follow it. *)
Lemma loop_trace_reduced_app D L T P cb ud i y evs rest :
  loop_trace D L T P cb ud i y evs ->
  Forall (fun e => ~ raised e) evs ->
  reduced_after_squaring rest ->
  reduced_after_squaring (evs ++ rest).
Proof.
  intros Htr. induction Htr as [|i y E0|i y y1 E0 E1|i y y1 y2 evs E0 E1 _ IH];
    intros Hok Hrest.
  - exact Hrest.
  - exfalso. apply Forall_cons in Hok as [Hbad _]. by apply Hbad.
  - exfalso. apply Forall_cons in Hok as [_ Hok].
    apply Forall_cons in Hok as [Hbad _]. by apply Hbad.
  - apply Forall_cons in Hok as [_ Hok]. apply Forall_cons in Hok as [_ Hok].
    apply Forall_app in Hok as [_ Hok].
    simpl. rewrite E0. split; [by eexists|].
    rewrite <- app_assoc.
    unfold iteration_report. repeat case_match; simpl; by apply IH.
Qed.

End TraceTools.


(** * Runs that pass the parameter selection *)

Section RunFacts.

Context `{Chiavdf}.

Lemma reports_with_squarings_counts evs : forall n,
  map fst (reports_with_squarings n evs) = progress_reports evs.
Proof.
  unfold progress_reports.
  induction evs as [|e evs IH]; intros n; [reflexivity|].
  destruct e; simpl; rewrite ?IH; reflexivity.
Qed.

Lemma counted_reports (l : list (Z * nat)) :
  Forall (fun p => fst p = Z.of_nat (snd p)) l ->
  l = map (fun d => (d, Z.to_nat d)) (map fst l).
Proof.
  induction 1 as [|[d m] l E _ IH]; [reflexivity|].
  simpl in *. rewrite <- IH. subst. by rewrite Nat2Z.id.
Qed.

(** Each count a run reports is the number of squarings called before the
    report. *)
Lemma run_report_positions tid ch chs xs xss yr yrs chk bits T P cb ud w r w' :
  prove_one_weso_slow tid ch chs xs xss yr yrs chk bits T P cb ud w = (r, w') ->
  Forall (fun p => fst p = Z.of_nat (snd p))
    (reports_with_squarings 0 (new_events w w')).
Proof.
  intros Hrun.
  apply run_trace in Hrun
    as (evs_s & evs_l & evs_f & Happ & Hs & Hf & _ & _ & Hl).
  rewrite (new_events_appended _ _ _ _ Happ).
  destruct (outside_loop _ (setup_outside_loop _ Hs)) as (_ & _ & Hs0 & Hsr & _).
  destruct (outside_loop _ (finish_outside_loop _ Hf)) as (_ & _ & _ & Hfr & _).
  rewrite !reports_with_squarings_app, Hsr, Hfr, Hs0, app_nil_r. simpl.
  destruct Hl as [[-> _] | (s & _ & _ & Htr & _)]; [constructor|].
  eapply Forall_impl; [apply (loop_trace_report_counts _ _ _ _ _ _ _ _ _ Htr 0)|].
  intros [d m]. simpl. lia.
Qed.

(** In a run that went on to the last stage every squaring and every
    reduction returned. *)
Lemma run_loop_returned tid ch chs xs xss yr yrs chk bits T P cb ud w r w' e :
  prove_one_weso_slow tid ch chs xs xss yr yrs chk bits T P cb ud w = (r, w') ->
  e ∈ new_events w w' ->
  phase_of e = Proving \/ phase_of e = Validating ->
  Forall (fun e => phase_of e = Squaring -> ~ raised e) (new_events w w').
Proof.
  intros Hrun Hin He.
  apply run_trace in Hrun
    as (evs_s & evs_l & evs_f & Happ & Hs & Hf & _ & Hne & Hl).
  rewrite (new_events_appended _ _ _ _ Happ) in *.
  assert (Forall (fun e => phase_of e = Squaring) evs_l) as Hphl.
  { destruct Hl as [[-> _] | (s & _ & _ & Htr & _)]; [constructor|].
    by eapply loop_trace_phase. }
  assert (evs_f <> []) as Hf0.
  { intros ->. rewrite app_nil_r in Hin.
    apply elem_of_app in Hin as [Hin | Hin].
    - pose proof (Forall_phase_not_in _ _ _ Hs Hin) as E.
      destruct He as [He | He]; congruence.
    - pose proof (Forall_phase_not_in _ _ _ Hphl Hin) as E.
      destruct He as [He | He]; congruence. }
  destruct (Hne Hf0) as [_ Hok].
  apply Forall_app. split.
  { eapply Forall_impl; [exact Hs|]. intros e' E1 E2. congruence. }
  apply Forall_app. split.
  { eapply Forall_impl; [exact Hok|]. intros e' E1 _. exact E1. }
  eapply Forall_impl; [exact Hf|]. intros e' [E1 | E1] E2; congruence.
Qed.


Section OneRun.

Variables (tid : nat).
Variables (ch : option (list byte)) (chs : Z).
Variables (xs : option (list byte)) (xss : Z).
Variables (yr : option (list byte)) (yrs : Z) (chk : bool).
Variables (bits T P : Z) (cb : option nat) (ud : Z).



End OneRun.

End RunFacts.

(** * The properties of the specification *)

Section Claims.

Context `{Chiavdf}.

(** ** Invalid input *)

(** C5. A null or zero-length challenge, a null or zero-length input
    element buffer, [T = 0] or a discriminant size of 0 makes the operation
    return the empty result at once: the process state is the one it
    started from, so the runtime was not initialised and no library
    function (discriminant, deserialization, squaring, ...) was called. *)
Theorem invalid_input_rejected tid ch chs xs xss yr yrs chk bits T P cb ud w :
  ch = None \/ chs = 0 \/ xs = None \/ xss = 0 \/ T = 0 \/ bits = 0 ->
  prove_one_weso_slow tid ch chs xs xss yr yrs chk bits T P cb ud w
  = (Val empty_result, w).
Proof.
  intros Hbad. unfold prove_one_weso_slow.
  destruct (is_null ch || (chs =? 0) || is_null xs || (xss =? 0)) eqn:G1;
    [reflexivity|].
  destruct ((T =? 0) || (bits =? 0)) eqn:G2; [reflexivity|].
  exfalso.
  repeat (apply orb_false_iff in G1 as [G1 ?]).
  apply orb_false_iff in G2 as [? ?].
  destruct Hbad as [-> | [-> | [-> | [-> | [-> | ->]]]]]; discriminate.
Qed.

(** ** The parameter clamp *)


(** ** Exceptions *)

(** C7. The operation never ends with an exception, and when any library
    call it made (discriminant, root, deserialization, squaring, reduction,
    proof construction, serialization) raised one, its result is the empty
    result. *)
Theorem exceptions_are_caught tid ch chs xs xss yr yrs chk bits T P cb ud w r w' :
  prove_one_weso_slow tid ch chs xs xss yr yrs chk bits T P cb ud w = (r, w') ->
  r <> Throw
  /\ (Exists raised (new_events w w') -> r = Val empty_result).
Proof.
  intros Hrun. apply prove_run_shape in Hrun.
  destruct Hrun as [Hrej | rs w1 Hsetup Hkl | s w1 rl w2 Hsetup Hkl Hloop Hnv
                    | s w1 st w2 rf w3 Hsetup Hkl Hloop Hfin].
  - split; [discriminate|reflexivity].
  - split; [by destruct rs|].
    apply setup_run in Hsetup as (evs & Happ & _ & _ & _ & Hok & _).
    rewrite (new_events_appended _ _ _ _ Happ).
    intros Hex. destruct rs; try reflexivity.
    exfalso. eapply Forall_not_Exists; [|exact Hex].
    eapply Forall_impl; [apply Hok; discriminate|]. done.
  - split; [by destruct rl|].
    destruct (setup_loop_run _ _ _ _ _ _ _ _ _ _ _ _ _ _ _ Hsetup Hloop)
      as (evs_s & evs_l & Happ & _ & _ & Hoks & _ & _ & _ & Hokl & _).
    rewrite (new_events_appended _ _ _ _ Happ).
    intros Hex. destruct rl as [st| |]; try reflexivity.
    exfalso. eapply Forall_not_Exists; [|exact Hex].
    apply Forall_app. split.
    + eapply Forall_impl; [exact Hoks|]. done.
    + eapply Forall_impl; [apply Hokl; discriminate|]. done.
  - split; [by destruct rf|].
    destruct (setup_loop_run _ _ _ _ _ _ _ _ _ _ _ _ _ _ _ Hsetup Hloop)
      as (evs_s & evs_l & Happ & _ & _ & Hoks & _ & _ & _ & Hokl & _).
    apply finish_run in Hfin as (evs_f & -> & Hout).
    pose proof (appended_trans _ _ _ _ _ _ Happ (appended_add_events tid evs_f w2))
      as Happ3.
    rewrite (new_events_appended _ _ _ _ Happ3).
    intros Hex. destruct rf as [out| |]; try reflexivity.
    + exfalso. eapply Forall_not_Exists; [|exact Hex].
      repeat (apply Forall_app; split).
      * eapply Forall_impl; [exact Hoks|]. done.
      * eapply Forall_impl; [apply Hokl; discriminate|]. done.
      * eapply Forall_impl;
          [eapply finish_outcome_raised; [exact Hout|discriminate]|]. done.
    + exfalso. eapply Forall_not_Exists; [|exact Hex].
      repeat (apply Forall_app; split).
      * eapply Forall_impl; [exact Hoks|]. done.
      * eapply Forall_impl; [apply Hokl; discriminate|]. done.
      * eapply Forall_impl;
          [eapply finish_outcome_raised; [exact Hout|discriminate]|]. done.
Qed.

(** ** Result validation *)

(** C1, amended. With validation on, the comparison of the serialized y
    with the reference is the last step of a run: when it takes place the
    T squarings are done, the proof generator has been called on the final
    element and has returned, and y and the proof have both been
    serialized. A null or empty reference, a length mismatch or a content
    mismatch then makes the operation return the empty result, so that no
    proof bytes reach the caller; and no run returns a buffer without
    having made the comparison, with a match. *)
Theorem validation_after_proof tid ch chs xs xss yr yrs bits T P cb ud w r w' :
  0 <= T <= UINT64_MAX ->
  prove_one_weso_slow tid ch chs xs xss yr yrs true bits T P cb ud w = (r, w') ->
  (forall pre y_ser post,
      new_events w w' = pre ++ EvCheckYRef y_ser :: post ->
      post = []
      /\ squarings pre = Z.to_nat T
      /\ (exists pre' y x D intermediates k l proof,
            pre = pre' ++ [EvGenerateWesolowski y x D intermediates T k l;
                           EvSerializeForm y (num_bits D);
                           EvSerializeForm proof (num_bits D)]
            /\ Forall (fun e => phase_of e = Setup \/ phase_of e = Squaring) pre'
            /\ GenerateWesolowski y x D intermediates T k l = Ok proof
            /\ SerializeForm y (num_bits D) = Ok y_ser)
      /\ (yr = None \/ yrs = 0 \/ Z.of_nat (length y_ser) <> yrs
          \/ y_ser <> read_bytes yr yrs ->
          r = Val empty_result))
  /\ (forall out,
        r = Val out -> out <> empty_result ->
        exists y_ser,
          EvCheckYRef y_ser ∈ new_events w w'
          /\ Z.of_nat (length y_ser) = yrs
          /\ y_ser = read_bytes yr yrs).
Proof.
  intros [HT _] Hrun. split.
  - intros pre y_ser post Hsplit.
    assert (EvCheckYRef y_ser ∈ new_events w w') as Hin.
    { rewrite Hsplit. apply elem_of_app. right. apply list_elem_of_here. }
    pose proof (reached_finish _ _ _ _ _ _ _ _ _ _ _ _ _ _ _ _ _ HT Hrun Hin
                  (or_intror eq_refl)) as Hfr.
    destruct Hfr as [s st rf evs_s evs_l evs_f -> _ Hk Hl _ Happ _ Hphs _ Hphl
                       Hsq _ _ _ _ Hfo].
    rewrite (new_events_appended _ _ _ _ Happ) in Hsplit, Hin.
    apply elem_of_app in Hin as [Hin|Hin].
    { by pose proof (Forall_phase_not_in _ _ _ Hphs Hin). }
    apply elem_of_app in Hin as [Hin|Hin].
    { by pose proof (Forall_phase_not_in _ _ _ Hphl Hin). }
    destruct Hfo as [Eg|proof Eg Ey|proof y_ser' Eg Ey Ep
                     |proof y_ser' p_ser Eg Ey Ep Hor
                     |proof y_ser' p_ser Eg Ey Ep Hy Hp].
    1-4: exfalso;
         repeat (apply elem_of_cons in Hin as [Hin|Hin]; [discriminate|]);
         by apply elem_of_nil in Hin.
    rewrite !wrap_u64_small in Hsplit, Eg by lia.
    rewrite !app_assoc in Hsplit.
    apply snoc_split_unique in Hsplit as (-> & Heq & ->).
    2: { intros Hbad. rewrite <- app_assoc in Hbad.
         apply elem_of_app in Hbad as [Hbad|Hbad].
         { by pose proof (Forall_phase_not_in _ _ _ Hphs Hbad). }
         apply elem_of_app in Hbad as [Hbad|Hbad].
         { by pose proof (Forall_phase_not_in _ _ _ Hphl Hbad). }
         repeat (apply elem_of_cons in Hbad as [Hbad|Hbad]; [discriminate|]).
         by apply elem_of_nil in Hbad. }
    injection Heq as ->.
    split; [reflexivity|]. split.
    { rewrite !squarings_app, Hsq, (setup_phase_no_squarings _ Hphs).
      unfold squarings. simpl. lia. }
    split.
    { exists (evs_s ++ evs_l), (ls_y st), (su_x s), (su_D s),
        (ls_intermediates st), (fst (plan_of s)), (snd (plan_of s)), proof.
      split; [reflexivity|]. split; [|done].
      apply Forall_app. split.
      - eapply Forall_impl; [exact Hphs|]. simpl. tauto.
      - eapply Forall_impl; [exact Hphl|]. simpl. tauto. }
    intros Hbad. simpl.
    destruct (y_ref_matches y_ser' yr yrs) eqn:Hm; [|reflexivity].
    exfalso. apply y_ref_matches_true in Hm as (? & ? & ? & ?).
    destruct Hbad as [?|[?|[?|?]]]; done.
  - intros out -> Hne.
    pose proof (successful_run _ _ _ _ _ _ _ _ _ _ _ _ _ _ _ _ HT Hrun Hne) as Hfr.
    destruct Hfr as [s st rf evs_s evs_l evs_f Hr _ _ _ _ Happ _ _ _ _
                       _ _ _ _ _ Hfo].
    symmetry in Hr.
    eapply finish_success in Hfo; [|exact Hr|exact Hne].
    destruct Hfo as (proof & y_ser & p_ser & _ & _ & _ & _ & _ & -> & Hm & _).
    specialize (Hm eq_refl).
    apply y_ref_matches_true in Hm as (_ & _ & ? & ?).
    exists y_ser. split; [|done].
    rewrite (new_events_appended _ _ _ _ Happ).
    apply elem_of_app; right. apply elem_of_app; right.
    apply elem_of_app; right. apply list_elem_of_here.
Qed.

(** ** Determinism *)

(** C3. The result of the operation is a function of the challenge, the
    input element, T, the discriminant size and the reference arguments:
    it is the same on any thread, from any process state, for any
    memory-budget setting and for any progress cadence, callback and user
    data. And whatever the reference arguments of two runs, the buffers
    they return, when both return one, are the same bytes (y, proof). *)
Theorem determinism ch chs xs xss bits T :
  (forall tid1 tid2 yr yrs chk P1 P2 cb1 cb2 ud1 ud2 budget1 budget2 w1 w2,
      fst (prove_one_weso_slow tid1 ch chs xs xss yr yrs chk bits T P1 cb1 ud1
             (chiavdf_set_bucket_memory_budget_bytes budget1 w1))
      = fst (prove_one_weso_slow tid2 ch chs xs xss yr yrs chk bits T P2 cb2 ud2
               (chiavdf_set_bucket_memory_budget_bytes budget2 w2)))
  /\ (forall tid1 tid2 yr1 yr2 yrs1 yrs2 chk1 chk2 P1 P2 cb1 cb2 ud1 ud2
             budget1 budget2 w1 w2 out1 out2,
        0 <= T <= UINT64_MAX ->
        fst (prove_one_weso_slow tid1 ch chs xs xss yr1 yrs1 chk1 bits T P1 cb1 ud1
               (chiavdf_set_bucket_memory_budget_bytes budget1 w1)) = Val out1 ->
        fst (prove_one_weso_slow tid2 ch chs xs xss yr2 yrs2 chk2 bits T P2 cb2 ud2
               (chiavdf_set_bucket_memory_budget_bytes budget2 w2)) = Val out2 ->
        out1 <> empty_result -> out2 <> empty_result ->
        out1 = out2).
Proof.
  split; [intros; apply fst_prove|].
  intros tid1 tid2 yr1 yr2 yrs1 yrs2 chk1 chk2 P1 P2 cb1 cb2 ud1 ud2
    budget1 budget2 w1 w2 out1 out2 [HT _] Hrun1 Hrun2 Hne1 Hne2.
  destruct (prove_one_weso_slow tid1 _ _ _ _ _ _ _ _ _ _ _ _ _) as [r1 w1'] eqn:E1.
  destruct (prove_one_weso_slow tid2 _ _ _ _ _ _ _ _ _ _ _ _ _) as [r2 w2'] eqn:E2.
  simpl in Hrun1, Hrun2. subst r1 r2.
  pose proof (successful_run _ _ _ _ _ _ _ _ _ _ _ _ _ _ _ _ HT E1 Hne1) as F1.
  pose proof (successful_run _ _ _ _ _ _ _ _ _ _ _ _ _ _ _ _ HT E2 Hne2) as F2.
  destruct F1 as [s1 st1 rf1 ? ? ? Hr1 Hkl1 _ _ Hsok1 _ _ _ _ _ _ _
                    Hy1 Hlen1 Hslots1 Hfo1].
  destruct F2 as [s2 st2 rf2 ? ? ? Hr2 Hkl2 _ _ Hsok2 _ _ _ _ _ _ _
                    Hy2 Hlen2 Hslots2 Hfo2].
  pose proof (setup_ok_unique _ _ _ _ _ _ _ _ Hsok1 Hsok2) as ->.
  assert (ls_y st1 = ls_y st2) as Ey by congruence.
  assert (ls_intermediates st1 = ls_intermediates st2) as Ei.
  { assert (length (ls_intermediates st1) = length (ls_intermediates st2))
      as Hlen by lia.
    apply list_eq. intros j.
    destruct (decide (j < length (ls_intermediates st1))%nat) as [Hj|Hj].
    - destruct (Hslots1 j Hj) as (e1 & -> & Hs1).
      destruct (Hslots2 j ltac:(lia)) as (e2 & -> & Hs2).
      congruence.
    - rewrite !lookup_ge_None_2 by lia. reflexivity. }
  symmetry in Hr1, Hr2.
  eapply finish_success in Hfo1; [|exact Hr1|exact Hne1].
  eapply finish_success in Hfo2; [|exact Hr2|exact Hne2].
  destruct Hfo1 as (p1 & ys1 & ps1 & Eg1 & Ey1 & Ep1 & _ & _ & _ & _ & ->).
  destruct Hfo2 as (p2 & ys2 & ps2 & Eg2 & Ey2 & Ep2 & _ & _ & _ & _ & ->).
  rewrite Ey, Ei in *.
  rewrite Eg1 in Eg2. simplify_eq.
  rewrite Ey1 in Ey2. simplify_eq.
  rewrite Ep1 in Ep2. by simplify_eq.
Qed.

(** ** Progress reports *)

(** C4. With a callback and a cadence [P > 0], a run that completes its T
    squarings (it goes on to call the proof generator) has invoked the
    callback with exactly the counts in 1..T that equal T or are multiples
    of P, in increasing order; the last count is T and there are
    ceil(T / P) invocations. Each invocation is made when the squarings
    called so far are as many as the count it reports, and every one of
    those squarings, with its reduction, has returned. *)
Theorem progress_cadence tid ch chs xs xss yr yrs chk bits T P cb ud w r w' e :
  0 <= T <= UINT64_MAX ->
  0 < P ->
  prove_one_weso_slow tid ch chs xs xss yr yrs chk bits T P (Some cb) ud w
  = (r, w') ->
  e ∈ new_events w w' ->
  phase_of e = Proving ->
  let reports := progress_reports (new_events w w') in
  reports = filter (fun done => done = T \/ done mod P = 0) (seqZ 1 T)
  /\ StronglySorted Z.lt reports
  /\ last reports = Some T
  /\ Z.of_nat (length reports) = ceil_div T P
  /\ reports_with_squarings 0 (new_events w w')
     = map (fun done => (done, Z.to_nat done)) reports
  /\ Forall (fun e => phase_of e = Squaring -> ~ raised e) (new_events w w').
Proof.
  intros [HT _] HP Hrun Hin Hph reports.
  assert (T <> 0) as HT0.
  { intros ->. rewrite zero_iterations_rejected in Hrun by done.
    simplify_eq. rewrite new_events_refl in Hin. by apply elem_of_nil in Hin. }
  assert (reports_with_squarings 0 (new_events w w')
          = map (fun done => (done, Z.to_nat done)) reports) as Hpos.
  { unfold reports. rewrite <- (reports_with_squarings_counts _ 0%nat).
    apply counted_reports.
    exact (run_report_positions _ _ _ _ _ _ _ _ _ _ _ _ _ _ _ _ Hrun). }
  pose proof (run_loop_returned _ _ _ _ _ _ _ _ _ _ _ _ _ _ _ _ _ Hrun Hin
                (or_introl Hph)) as Hret.
  pose proof (reached_finish _ _ _ _ _ _ _ _ _ _ _ _ _ _ _ _ _ HT Hrun Hin
                (or_introl Hph)) as Hfr.
  destruct Hfr as [s st rf evs_s evs_l evs_f _ _ _ _ _ Happ _ Hphs _ _
                     _ Hrep _ _ _ Hfo].
  assert (reports = expected_reports T P 0 (Z.to_nat T)) as E.
  { unfold reports. rewrite (new_events_appended _ _ _ _ Happ).
    rewrite !progress_reports_app, Hrep.
    rewrite (setup_phase_no_reports _ Hphs).
    rewrite (finish_outcome_no_reports _ _ _ _ _ _ _ _ _ _ _ Hfo).
    rewrite app_nil_r. simpl. unfold loop_reports.
    destruct (Z.eqb_spec P 0); [lia|reflexivity]. }
  split; [rewrite E; by apply expected_reports_filter|].
  split; [rewrite E; apply expected_reports_sorted|].
  split; [rewrite E; apply expected_reports_last; lia|].
  split; [rewrite E; apply expected_reports_length; lia|].
  split; [exact Hpos|exact Hret].
Qed.

(** ** Diagnostics *)

(** C9. (1) After a call that reached the parameter heuristic, got
    [(l0, k0)] from it and passed the test on [kl], the query of the last
    streaming parameters on the same thread, with three non-null pointers,
    returns true and stores the clamped plan (k, l) and the flag false; that
    plan is the one every call of the proof generator in the run received.
    (2) In any state of the process in which the thread has not yet called
    the heuristic, the query returns false and stores nothing. (3) So it
    does when one of the pointers is null. (4) The query of the streaming
    stats returns false in every state and stores nothing. *)
Theorem last_parameters_diagnostics :
  (forall tid ch chs xs xss yr yrs chk bits T P cb ud w r w' l0 k0 k l,
      0 <= T <= UINT64_MAX ->
      prove_one_weso_slow tid ch chs xs xss yr yrs chk bits T P cb ud w
      = (r, w') ->
      EvApproximateParameters T ∈ new_events w w' ->
      ApproximateParameters T 0 0 = Ok (l0, k0) ->
      clamp_plan l0 k0 = (k, l) ->
      0 < int_mul k l ->
      (forall out_k out_l out_tuned,
          chiavdf_get_last_streaming_parameters tid
            (Some out_k) (Some out_l) (Some out_tuned) w'
          = (true, (Some k, Some l, Some false)))
      /\ (forall y x D intermediates T' k' l',
            EvGenerateWesolowski y x D intermediates T' k' l' ∈ new_events w w' ->
            k' = k /\ l' = l))
  /\ (forall w tid out_k out_l out_tuned,
        reachable w ->
        ~ reached_parameter_selection tid (trace w) ->
        chiavdf_get_last_streaming_parameters tid out_k out_l out_tuned w
        = (false, (out_k, out_l, out_tuned)))
  /\ (forall w tid out_k out_l out_tuned,
        out_k = None \/ out_l = None \/ out_tuned = None ->
        chiavdf_get_last_streaming_parameters tid out_k out_l out_tuned w
        = (false, (out_k, out_l, out_tuned)))
  /\ (forall w tid o1 o2 o3 o4 o5,
        chiavdf_get_last_streaming_stats tid o1 o2 o3 o4 o5 w
        = (false, (o1, o2, o3, o4, o5))).
Proof.
  split; [|split; [|split]].
  - intros tid ch chs xs xss yr yrs chk bits T P cb ud w r w' l0 k0 k l
      [HT _] Hrun Hin Hlk Hplan Hpos.
    pose proof (plan_published _ _ _ _ _ _ _ _ _ _ _ _ _ _ _ _ _ _ Hrun Hin Hlk)
      as Hpar.
    rewrite Hplan in Hpar. specialize (Hpar Hpos). simpl in Hpar.
    split.
    + intros out_k out_l out_tuned.
      unfold chiavdf_get_last_streaming_parameters. simpl.
      rewrite (thread_parameters_insert _ _ _ _ _ Hpar), decide_True by done.
      reflexivity.
    + intros y x D intermediates T' k' l' Hgen.
      pose proof (reached_finish _ _ _ _ _ _ _ _ _ _ _ _ _ _ _ _ _ HT Hrun Hgen
                    (or_introl eq_refl)) as Hfr.
      destruct Hfr as [s st rf evs_s evs_l evs_f _ _ Hk Hl Hsok Happ _ Hphs _ Hphl
                         _ _ _ _ _ Hfo].
      rewrite (new_events_appended _ _ _ _ Happ) in Hgen.
      apply elem_of_app in Hgen as [Hgen|Hgen].
      { by pose proof (Forall_phase_not_in _ _ _ Hphs Hgen). }
      apply elem_of_app in Hgen as [Hgen|Hgen].
      { by pose proof (Forall_phase_not_in _ _ _ Hphl Hgen). }
      eapply finish_outcome_generate in Hgen as (_ & _ & _ & _ & _ & -> & ->);
        [|exact Hfo].
      rewrite !wrap_u64_small by lia.
      destruct Hsok as (_ & _ & _ & _ & E). rewrite Hlk in E.
      injection E as E. unfold plan_of. rewrite <- E. cbn [fst snd].
      by rewrite Hplan.
  - intros w tid out_k out_l out_tuned Hreach Hnot.
    unfold chiavdf_get_last_streaming_parameters.
    destruct (is_null out_k || is_null out_l || is_null out_tuned); [done|].
    destruct (lsp_set (thread_parameters w tid)) eqn:Hset; [|done].
    exfalso. apply Hnot. by apply reachable_parameters_set.
  - intros w tid out_k out_l out_tuned Hnull.
    unfold chiavdf_get_last_streaming_parameters.
    destruct Hnull as [-> | [-> | ->]]; simpl; [done| |].
    + by rewrite orb_true_r.
    + by rewrite orb_true_r.
  - reflexivity.
Qed.

(** ** The checkpoints *)

(** C2. In a run that returns a buffer, with plan (k, l) and [kl] their
    product as the code computes it (the exact product whenever that fits
    an [int]), the checkpoint sequence handed to the proof generator has
    exactly ceil(T / kl) entries, entry 0 is the element the squaring
    starts from (the input element as [form::from_abd] rebuilds it from
    its a and b), and entry i is that element squared i * kl times with a
    reduction after each squaring. *)
Theorem checkpoint_sequence tid ch chs xs xss yr yrs chk bits T P cb ud w out w' :
  0 <= T <= UINT64_MAX ->
  prove_one_weso_slow tid ch chs xs xss yr yrs chk bits T P cb ud w
  = (Val out, w') ->
  out <> empty_result ->
  exists D L x y0 k l y intermediates,
    CreateDiscriminant (read_bytes ch chs) (to_int bits) = Ok D
    /\ root (- D) 4 = Ok L
    /\ DeserializeForm D (read_bytes xs xss) = Ok x
    /\ from_abd (form_a x) (form_b x) D = Ok y0
    /\ thread_parameters w' tid = mk_params k l false true
    /\ 1 <= k /\ 1 <= l /\ 0 < int_mul k l
    /\ (k * l <= INT_MAX -> int_mul k l = k * l)
    /\ EvGenerateWesolowski y x D intermediates T k l ∈ new_events w w'
    /\ Z.of_nat (length intermediates) = ceil_div T (int_mul k l)
    /\ intermediates !! 0%nat = Some y0
    /\ forall i : nat, (i < length intermediates)%nat ->
         exists e, intermediates !! i = Some e
                   /\ square_reduce_n D L
                        (Z.to_nat (Z.of_nat i * int_mul k l)) y0 = Ok e.
Proof.
  intros [HT _] Hrun Hne.
  assert (T <> 0) as HT0.
  { intros ->. rewrite zero_iterations_rejected in Hrun by done. congruence. }
  pose proof (successful_run _ _ _ _ _ _ _ _ _ _ _ _ _ _ _ _ HT Hrun Hne) as Hfr.
  destruct Hfr as [s st rf evs_s evs_l evs_f Hr Hkl Hk Hl Hsok Happ Hpar _ _ _
                     _ _ Hy Hlen Hslots Hfo].
  symmetry in Hr.
  eapply finish_success in Hfo; [|exact Hr|exact Hne].
  destruct Hfo as (proof & y_ser & p_ser & _ & _ & _ & _ & _ & -> & _ & _).
  destruct Hsok as (HD & HL & Hx & Hy0 & _).
  exists (su_D s), (su_L s), (su_x s), (su_y s),
    (fst (plan_of s)), (snd (plan_of s)), (ls_y st), (ls_intermediates st).
  fold (kl_of s).
  repeat (split; [done|]).
  split.
  { rewrite (thread_parameters_insert _ _ _ _ _ Hpar). by rewrite decide_True. }
  split; [lia|]. split; [lia|]. split; [done|].
  split.
  { intros Hfit. unfold kl_of, int_mul. apply to_int_small.
    unfold INT_MAX in *. nia. }
  split.
  { rewrite (new_events_appended _ _ _ _ Happ).
    rewrite !wrap_u64_small by lia.
    apply elem_of_app; right. apply elem_of_app; right.
    apply list_elem_of_here. }
  split; [done|].
  assert (0 < length (ls_intermediates st))%nat as Hpos.
  { pose proof (ceil_div_pos T (kl_of s) Hkl ltac:(lia)). lia. }
  split; [|exact Hslots].
  destruct (Hslots 0%nat Hpos) as (e & He & Hsq).
  simpl in Hsq. by simplify_eq.
Qed.

(** ** The output *)

(** C6. A buffer the operation returns is the serialization of y, at the
    bit size of the discriminant, followed by the serialization of the
    proof, where y is the input element squared T times and the proof is
    what [GenerateWesolowski] returned for it; and a run in which a form
    serialized to no bytes at all returns the empty result. *)
Theorem output_is_y_then_proof tid ch chs xs xss yr yrs chk bits T P cb ud w r w' :
  0 <= T <= UINT64_MAX ->
  prove_one_weso_slow tid ch chs xs xss yr yrs chk bits T P cb ud w = (r, w') ->
  (forall f d_bits,
      EvSerializeForm f d_bits ∈ new_events w w' ->
      SerializeForm f d_bits = Ok [] ->
      r = Val empty_result)
  /\ (forall out,
        r = Val out -> out <> empty_result ->
        exists D L x y0 y proof y_ser p_ser,
          CreateDiscriminant (read_bytes ch chs) (to_int bits) = Ok D
          /\ root (- D) 4 = Ok L
          /\ DeserializeForm D (read_bytes xs xss) = Ok x
          /\ from_abd (form_a x) (form_b x) D = Ok y0
          /\ square_reduce_n D L (Z.to_nat T) y0 = Ok y
          /\ (exists intermediates k l,
                EvGenerateWesolowski y x D intermediates T k l ∈ new_events w w'
                /\ GenerateWesolowski y x D intermediates T k l = Ok proof)
          /\ SerializeForm y (num_bits D) = Ok y_ser
          /\ SerializeForm proof (num_bits D) = Ok p_ser
          /\ y_ser <> [] /\ p_ser <> []
          /\ ba_data out = Some (y_ser ++ p_ser)
          /\ ba_length out = Z.of_nat (length (y_ser ++ p_ser))).
Proof.
  intros [HT _] Hrun. split.
  - intros f d_bits Hin Hempty.
    pose proof (reached_finish _ _ _ _ _ _ _ _ _ _ _ _ _ _ _ _ _ HT Hrun Hin
                  (or_introl eq_refl)) as Hfr.
    destruct Hfr as [s st rf evs_s evs_l evs_f -> _ _ _ _ Happ _ Hphs _ Hphl
                       _ _ _ _ _ Hfo].
    rewrite (new_events_appended _ _ _ _ Happ) in Hin.
    apply elem_of_app in Hin as [Hin|Hin].
    { by pose proof (Forall_phase_not_in _ _ _ Hphs Hin). }
    apply elem_of_app in Hin as [Hin|Hin].
    { by pose proof (Forall_phase_not_in _ _ _ Hphl Hin). }
    destruct Hfo as [Eg|proof Eg Ey|proof y_ser Eg Ey Ep
                     |proof y_ser p_ser Eg Ey Ep Hor
                     |proof y_ser p_ser Eg Ey Ep Hy Hp]; try reflexivity.
    exfalso. apply elem_of_app in Hin as [Hin|Hin].
    + repeat (apply elem_of_cons in Hin as [Hin|Hin];
              [simplify_eq; congruence|]).
      by apply elem_of_nil in Hin.
    + destruct chk; [|by apply elem_of_nil in Hin].
      apply elem_of_cons in Hin as [Hin|Hin]; [discriminate|].
      by apply elem_of_nil in Hin.
  - intros out -> Hne.
    pose proof (successful_run _ _ _ _ _ _ _ _ _ _ _ _ _ _ _ _ HT Hrun Hne) as Hfr.
    destruct Hfr as [s st rf evs_s evs_l evs_f Hr _ Hk Hl Hsok Happ _ _ _ _
                       _ _ Hy _ _ Hfo].
    symmetry in Hr.
    eapply finish_success in Hfo; [|exact Hr|exact Hne].
    destruct Hfo
      as (proof & y_ser & p_ser & Eg & Ey & Ep & Hny & Hnp & -> & _ & ->).
    rewrite !wrap_u64_small in Eg by lia.
    destruct Hsok as (HD & HL & Hx & Hy0 & _).
    exists (su_D s), (su_L s), (su_x s), (su_y s), (ls_y st), proof, y_ser, p_ser.
    repeat (split; [done|]).
    split.
    { exists (ls_intermediates st), (fst (plan_of s)), (snd (plan_of s)).
      split; [|done].
      rewrite (new_events_appended _ _ _ _ Happ).
      rewrite !wrap_u64_small by lia.
      apply elem_of_app; right. apply elem_of_app; right.
      apply list_elem_of_here. }
    repeat (split; [done|]). simpl.
    rewrite length_app. lia.
Qed.

(** ** The streaming entry points *)

(** C10. Each of the four streaming entry points, called with a null or
    zero-length reference buffer, returns the empty result, whatever the
    computed y and proof are. (The one other outcome of the model is the
    store past the end of the checkpoint vector, which needs an iteration
    count above [UINT64_MAX - INT_MAX].) *)
Theorem streaming_needs_reference tid ch chs xs xss yr yrs bits T P cb ud w :
  yr = None \/ yrs = 0 ->
  0 <= T <= UINT64_MAX ->
  let empty_or_overflow (r : outcome ChiavdfByteArray) :=
    r = Val empty_result \/ (r = Undefined /\ UINT64_MAX - INT_MAX < T) in
  empty_or_overflow
    (fst (chiavdf_prove_one_weso_fast_streaming
            tid ch chs xs xss yr yrs bits T w))
  /\ empty_or_overflow
       (fst (chiavdf_prove_one_weso_fast_streaming_with_progress
               tid ch chs xs xss yr yrs bits T P cb ud w))
  /\ empty_or_overflow
       (fst (chiavdf_prove_one_weso_fast_streaming_getblock_opt
               tid ch chs xs xss yr yrs bits T w))
  /\ empty_or_overflow
       (fst (chiavdf_prove_one_weso_fast_streaming_getblock_opt_with_progress
               tid ch chs xs xss yr yrs bits T P cb ud w)).
Proof.
  intros Href [HT0 HT1] empty_or_overflow.
  assert (forall P' cb' ud',
            empty_or_overflow
              (fst (prove_one_weso_slow tid ch chs xs xss yr yrs true bits T
                      P' cb' ud' w))) as Hcore.
  { intros P' cb' ud'.
    destruct (prove_one_weso_slow tid ch chs xs xss yr yrs true bits T
                P' cb' ud' w) as [r w'] eqn:Hrun.
    simpl. unfold empty_or_overflow.
    pose proof Hrun as Hrun'.
    eapply no_reference_no_success in Hrun' as [-> | ->]; [by left| |exact Href].
    right. split; [done|].
    destruct (Z.le_gt_cases T (UINT64_MAX - INT_MAX)) as [Hfit|Hbig]; [|lia].
    exfalso. by eapply prove_defined. }
  repeat split; apply Hcore.
Qed.

End Claims.

(** * The properties on concrete runs

    The runs below use the small instance [Toy.toy] of the library, on
    thread 0, from the initial state. *)

Lemma invalid_input_rejected_witness :
  (0 = 0)
  /\ prove_one_weso_slow (H := Toy.toy) 0%nat (Some Toy.challenge) 4
       (Some Toy.x_bytes) 2 None 0 false 1024 0 0 None 0 initial_world
     = (Val empty_result, initial_world).
Proof.
  split; [reflexivity|].
  apply (invalid_input_rejected (H := Toy.toy)).
  right; right; right; right; left. reflexivity.
Defined.


(** Without the bound on the product [int_mul] is not the product: the
    two's complement value of 65536 * 65536 on 32 bits is 0. *)
Example int_mul_wraps : int_mul 65536 65536 = 0.
Proof. reflexivity. Qed.

Lemma exceptions_are_caught_witness :
  let bad :=
    prove_one_weso_slow (H := Toy.toy) 0%nat (Some Toy.challenge) 4
      (Some [x03]) 1 None 0 false 1024 1 0 None 0 initial_world in
  bad = (fst bad, snd bad)
  /\ Exists (raised (H := Toy.toy)) (new_events initial_world (snd bad))
  /\ fst bad <> Throw
  /\ fst bad = Val empty_result.
Proof.
  intros bad.
  assert (bad = (fst bad, snd bad)) as Hrun by (vm_compute; reflexivity).
  assert (Exists (raised (H := Toy.toy)) (new_events initial_world (snd bad)))
    as Hraised.
  { assert (new_events initial_world (snd bad)
            = [EvInitRuntime; EvCreateDiscriminant Toy.challenge 1024;
               EvRoot 19 4; EvDeserializeForm (-19) [x03]]) as ->
      by (vm_compute; reflexivity).
    do 3 apply Exists_cons_tl. apply Exists_cons_hd. reflexivity. }
  destruct (exceptions_are_caught (H := Toy.toy) _ _ _ _ _ _ _ _ _ _ _ _ _ _ _ _
              Hrun) as [W1 W2].
  split; [exact Hrun|]. split; [exact Hraised|]. split; [exact W1|].
  exact (W2 Hraised).
Defined.

Lemma streaming_needs_reference_witness :
  (@None (list byte) = None \/ 0 = 0)
  /\ 0 <= 1 <= UINT64_MAX
  /\ fst (chiavdf_prove_one_weso_fast_streaming (H := Toy.toy) 0%nat
            (Some Toy.challenge) 4 (Some Toy.x_bytes) 2 None 0 1024 1
            initial_world)
     = Val empty_result.
Proof.
  assert (0 <= 1 <= UINT64_MAX) as HT by (vm_compute; split; discriminate).
  pose proof (streaming_needs_reference (H := Toy.toy) 0%nat
                (Some Toy.challenge) 4 (Some Toy.x_bytes) 2 None 0 1024 1
                0 None 0 initial_world (or_introl eq_refl) HT) as W.
  split; [by left|]. split; [exact HT|].
  destruct W as ([W|[_ W]] & _); [exact W|].
  exfalso. vm_compute in W. discriminate.
Defined.

Lemma output_is_y_then_proof_witness :
  let ok := Toy.run None 0 false 1 0 None in
  0 <= 1 <= UINT64_MAX
  /\ ok = (fst ok, snd ok)
  /\ fst ok = Val (mk_byte_array (Some [x09; x0a; x04; x0a]) 4)
  /\ exists y proof,
       square_reduce_n (H := Toy.toy) (-19) 2 1 (mk_form 3 5 3) = Ok y
       /\ SerializeForm (Chiavdf := Toy.toy) y 5 = Ok [x09; x0a]
       /\ SerializeForm (Chiavdf := Toy.toy) proof 5 = Ok [x04; x0a].
Proof.
  intros ok.
  assert (0 <= 1 <= UINT64_MAX) as HT by (vm_compute; split; discriminate).
  assert (ok = (fst ok, snd ok)) as Hrun by (vm_compute; reflexivity).
  assert (fst ok = Val (mk_byte_array (Some [x09; x0a; x04; x0a]) 4)) as Hout
    by (vm_compute; reflexivity).
  destruct (output_is_y_then_proof (H := Toy.toy) _ _ _ _ _ _ _ _ _ _ _ _ _ _ _ _
              HT Hrun) as [_ W].
  destruct (W _ Hout ltac:(discriminate))
    as (D & L & x & y0 & y & proof & y_ser & p_ser
        & HD & HL & Hx & Hy0 & Hy & _ & Hys & Hps & _ & _ & Hdata & _).
  vm_compute in HD. injection HD as <-.
  vm_compute in HL. injection HL as <-.
  vm_compute in Hx. injection Hx as <-.
  vm_compute in Hy0. injection Hy0 as <-.
  assert (y = mk_form 9 10 3) as -> by (vm_compute in Hy; congruence).
  vm_compute in Hys. injection Hys as <-.
  simpl in Hdata. injection Hdata as Hdata. subst p_ser.
  split; [exact HT|]. split; [exact Hrun|]. split; [exact Hout|].
  exists (mk_form 9 10 3), proof.
  split; [vm_compute; reflexivity|]. split; [vm_compute; reflexivity|].
  exact Hps.
Defined.

Lemma checkpoint_sequence_witness :
  let ok := Toy.run None 0 false 64 0 None in
  0 <= 64 <= UINT64_MAX
  /\ ok = (fst ok, snd ok)
  /\ (exists out, fst ok = Val out /\ out <> empty_result)
  /\ exists y intermediates,
       EvGenerateWesolowski y (mk_form 3 5 3) (-19) intermediates 64 2 2
         ∈ new_events initial_world (snd ok)
       /\ length intermediates = 16%nat
       /\ intermediates !! 0%nat = Some (mk_form 3 5 3)
       /\ forall i : nat, (i < 16)%nat ->
            exists e, intermediates !! i = Some e
                      /\ square_reduce_n (H := Toy.toy) (-19) 2 (4 * i)
                           (mk_form 3 5 3) = Ok e.
Proof.
  intros ok.
  assert (0 <= 64 <= UINT64_MAX) as HT by (vm_compute; split; discriminate).
  assert (ok = (fst ok, snd ok)) as Hrun by (vm_compute; reflexivity).
  assert (exists out, fst ok = Val out /\ out <> empty_result) as (out & Hout & Hne).
  { eexists. split; [vm_compute; reflexivity|discriminate]. }
  assert (ok = (Val out, snd ok)) as Hrun' by (rewrite <- Hout; exact Hrun).
  destruct (checkpoint_sequence (H := Toy.toy) _ _ _ _ _ _ _ _ _ _ _ _ _ _ _ _
              HT Hrun' Hne)
    as (D & L & x & y0 & k & l & y & inter
        & HD & HL & Hx & Hy0 & Hpar & _ & _ & _ & _ & Hgen & Hlen & H0 & Hall).
  vm_compute in HD. injection HD as <-.
  vm_compute in HL. injection HL as <-.
  vm_compute in Hx. injection Hx as <-.
  vm_compute in Hy0. injection Hy0 as <-.
  vm_compute in Hpar. injection Hpar as <- <-.
  assert (length inter = 16%nat) as Hlen16.
  { replace (ceil_div 64 (int_mul 2 2)) with 16 in Hlen by reflexivity. lia. }
  split; [exact HT|]. split; [exact Hrun|].
  split; [exists out; split; [exact Hout|exact Hne]|].
  exists y, inter.
  split; [exact Hgen|]. split; [exact Hlen16|]. split; [exact H0|].
  intros i Hi. destruct (Hall i ltac:(lia)) as (e & He & Hsq).
  exists e. split; [exact He|].
  replace (4 * i)%nat with (Z.to_nat (Z.of_nat i * int_mul 2 2)); [exact Hsq|].
  change (int_mul 2 2) with 4. lia.
Defined.

Lemma progress_cadence_witness :
  let ok := Toy.run None 0 false 20 3 (Some 7%nat) in
  0 <= 20 <= UINT64_MAX
  /\ 0 < 3
  /\ ok = (fst ok, snd ok)
  /\ EvSerializeForm (mk_form 196 243 3) 5 ∈ new_events initial_world (snd ok)
  /\ progress_reports (new_events initial_world (snd ok)) = [3; 6; 9; 12; 15; 18; 20]
  /\ last (progress_reports (new_events initial_world (snd ok))) = Some 20
  /\ Z.of_nat (length (progress_reports (new_events initial_world (snd ok))))
     = ceil_div 20 3
  /\ reports_with_squarings 0 (new_events initial_world (snd ok))
     = [(3, 3%nat); (6, 6%nat); (9, 9%nat); (12, 12%nat); (15, 15%nat);
        (18, 18%nat); (20, 20%nat)]
  /\ Forall (fun e => phase_of e = Squaring -> ~ raised (H := Toy.toy) e)
       (new_events initial_world (snd ok)).
Proof.
  intros ok.
  assert (0 <= 20 <= UINT64_MAX) as HT by (vm_compute; split; discriminate).
  assert (ok = (fst ok, snd ok)) as Hrun by (vm_compute; reflexivity).
  assert (EvSerializeForm (mk_form 196 243 3) 5
            ∈ new_events initial_world (snd ok)) as Hin.
  { apply list_elem_of_In. vm_compute. tauto. }
  assert (0 < 3) as HP by lia.
  destruct (progress_cadence (H := Toy.toy) _ _ _ _ _ _ _ _ _ _ _ _ _ _ _ _ _
              HT HP Hrun Hin eq_refl) as (W1 & _ & W3 & W4 & W5 & W6).
  assert (progress_reports (new_events initial_world (snd ok))
          = [3; 6; 9; 12; 15; 18; 20]) as Hreports
    by (rewrite W1; vm_compute; reflexivity).
  split; [exact HT|]. split; [lia|]. split; [exact Hrun|]. split; [exact Hin|].
  split; [exact Hreports|].
  split; [exact W3|]. split; [exact W4|].
  split; [rewrite W5, Hreports; reflexivity|exact W6].
Defined.

Lemma last_parameters_diagnostics_witness :
  let ok := Toy.run None 0 false 20 0 None in
  0 <= 20 <= UINT64_MAX
  /\ ok = (fst ok, snd ok)
  /\ EvApproximateParameters 20 ∈ new_events initial_world (snd ok)
  /\ ApproximateParameters (Chiavdf := Toy.toy) 20 0 0 = Ok (2, 2)
  /\ clamp_plan 2 2 = (2, 2)
  /\ 0 < int_mul 2 2
  /\ chiavdf_get_last_streaming_parameters 0%nat (Some 0) (Some 0) (Some true)
       (snd ok) = (true, (Some 2, Some 2, Some false))
  /\ reachable (H := Toy.toy) initial_world
  /\ ~ reached_parameter_selection 0%nat (trace initial_world)
  /\ chiavdf_get_last_streaming_parameters 0%nat (Some 0) (Some 0) (Some true)
       initial_world = (false, (Some 0, Some 0, Some true))
  /\ chiavdf_get_last_streaming_parameters 0%nat (Some 0) None (Some true)
       (snd ok) = (false, (Some 0, None, Some true)).
Proof.
  intros ok.
  destruct (last_parameters_diagnostics (H := Toy.toy)) as (W1 & W2 & W3 & _).
  assert (0 <= 20 <= UINT64_MAX) as HT by (vm_compute; split; discriminate).
  assert (ok = (fst ok, snd ok)) as Hrun by (vm_compute; reflexivity).
  assert (EvApproximateParameters 20 ∈ new_events initial_world (snd ok)) as Hin.
  { apply list_elem_of_In. vm_compute. tauto. }
  assert (0 < int_mul 2 2) as Hpos by (vm_compute; reflexivity).
  assert (~ reached_parameter_selection 0%nat (trace initial_world)) as Hnot.
  { intros [T HT']. simpl in HT'. by apply elem_of_nil in HT'. }
  split; [exact HT|]. split; [exact Hrun|]. split; [exact Hin|].
  split; [reflexivity|]. split; [reflexivity|]. split; [exact Hpos|].
  split.
  { exact (proj1 (W1 _ _ _ _ _ _ _ _ _ _ _ _ _ _ _ _ 2 2 2 2 HT Hrun Hin
                    eq_refl eq_refl Hpos) 0 0 true). }
  split; [apply reachable_initial|]. split; [exact Hnot|].
  split.
  { exact (W2 initial_world 0%nat (Some 0) (Some 0) (Some true)
             reachable_initial Hnot). }
  exact (W3 (snd ok) 0%nat (Some 0) None (Some true) (or_intror (or_introl eq_refl))).
Defined.

Lemma determinism_witness :
  let plain := Toy.run None 0 false 1 0 None in
  let streaming :=
    prove_one_weso_slow (H := Toy.toy) 5%nat (Some Toy.challenge) 4
      (Some Toy.x_bytes) 2 (Some [x09; x0a]) 2 true 1024 1 1 (Some 3%nat) 9
      (chiavdf_set_bucket_memory_budget_bytes 4096 initial_world) in
  0 <= 1 <= UINT64_MAX
  /\ (exists out1, fst plain = Val out1 /\ out1 <> empty_result)
  /\ (exists out2, fst streaming = Val out2 /\ out2 <> empty_result)
  /\ fst plain = fst streaming.
Proof.
  intros plain streaming.
  destruct (determinism (H := Toy.toy) (Some Toy.challenge) 4 (Some Toy.x_bytes) 2
              1024 1) as [_ W].
  assert (0 <= 1 <= UINT64_MAX) as HT by (vm_compute; split; discriminate).
  assert (exists out1, fst plain = Val out1 /\ out1 <> empty_result)
    as (out1 & H1 & N1).
  { eexists. split; [vm_compute; reflexivity|discriminate]. }
  assert (exists out2, fst streaming = Val out2 /\ out2 <> empty_result)
    as (out2 & H2 & N2).
  { eexists. split; [vm_compute; reflexivity|discriminate]. }
  split; [exact HT|].
  split; [exists out1; split; [exact H1|exact N1]|].
  split; [exists out2; split; [exact H2|exact N2]|].
  rewrite H1, H2. f_equal.
  exact (W 0%nat 5%nat None (Some [x09; x0a]) 0 2 false true 0 1 None (Some 3%nat)
           0 9 0 4096 initial_world initial_world out1 out2 HT H1 H2 N1 N2).
Defined.

Lemma validation_after_proof_witness :
  let reference := [x00; x00] in
  let bad := Toy.run (Some reference) 2 true 1 0 None in
  0 <= 1 <= UINT64_MAX
  /\ bad = (fst bad, snd bad)
  /\ (exists pre, new_events initial_world (snd bad)
                  = pre ++ [EvCheckYRef [x09; x0a]]
                  /\ squarings pre = 1%nat)
  /\ [x09; x0a] <> read_bytes (Some reference) 2
  /\ fst bad = Val empty_result.
Proof.
  intros reference bad.
  assert (0 <= 1 <= UINT64_MAX) as HT by (vm_compute; split; discriminate).
  assert (bad = (fst bad, snd bad)) as Hrun by (vm_compute; reflexivity).
  destruct (validation_after_proof (H := Toy.toy) _ _ _ _ _ _ _ _ _ _ _ _ _ _ _
              HT Hrun) as [W _].
  assert (new_events initial_world (snd bad)
          = removelast (new_events initial_world (snd bad))
            ++ [EvCheckYRef [x09; x0a]]) as Hsplit
    by (vm_compute; reflexivity).
  destruct (W _ _ _ Hsplit) as (_ & Hsq & _ & Hfail).
  assert ([x09; x0a] <> read_bytes (Some reference) 2) as Hdiff by discriminate.
  split; [exact HT|]. split; [exact Hrun|].
  split; [eexists; split; [exact Hsplit|exact Hsq]|].
  split; [exact Hdiff|].
  apply Hfail. right; right; right. exact Hdiff.
Defined.

(** C1 as stated fails: in this run the reference has the right length and
    the wrong content, the operation returns the empty result, and yet the
    proof generator was called, and returned, before the comparison. *)
Lemma validation_before_proof_counterexample :
  let reference := [x00; x00] in
  exists w' pre proof,
    Toy.run (Some reference) 2 true 1 0 None = (Val empty_result, w')
    /\ new_events initial_world w' = pre ++ [EvCheckYRef [x09; x0a]]
    /\ length [x09; x0a] = length reference
    /\ [x09; x0a] <> reference
    /\ EvGenerateWesolowski (mk_form 9 10 3) (mk_form 3 5 3) (-19)
         [mk_form 3 5 3] 1 1 1 ∈ pre
    /\ GenerateWesolowski (Chiavdf := Toy.toy) (mk_form 9 10 3) (mk_form 3 5 3)
         (-19) [mk_form 3 5 3] 1 1 1 = Ok proof.
Proof.
  intros reference.
  exists (snd (Toy.run (Some reference) 2 true 1 0 None)),
    (removelast
       (new_events initial_world (snd (Toy.run (Some reference) 2 true 1 0 None)))),
    (mk_form 4 10 2).
  split; [vm_compute; reflexivity|].
  split; [vm_compute; reflexivity|].
  split; [reflexivity|]. split; [discriminate|].
  split; [|vm_compute; reflexivity].
  apply list_elem_of_In. vm_compute. tauto.
Qed.

(** * Further properties of the code *)

Section TraceProperties.

Context `{Chiavdf}.

(** X1. No callback is invoked when the callback is null or the cadence is
    0, whatever the run does; in particular the three entry points without
    progress arguments never invoke one. *)
Theorem no_progress_when_disabled tid ch chs xs xss yr yrs chk bits T P cb ud w :
  cb = None \/ P = 0 ->
  progress_reports
    (new_events w
       (snd (prove_one_weso_slow tid ch chs xs xss yr yrs chk bits T P cb ud w)))
  = []
  /\ progress_reports
       (new_events w
          (snd (chiavdf_prove_one_weso_fast tid ch chs xs xss bits T w))) = []
  /\ progress_reports
       (new_events w
          (snd (chiavdf_prove_one_weso_fast_streaming
                  tid ch chs xs xss yr yrs bits T w))) = []
  /\ progress_reports
       (new_events w
          (snd (chiavdf_prove_one_weso_fast_streaming_getblock_opt
                  tid ch chs xs xss yr yrs bits T w))) = [].
Proof.
  intros Hoff.
  assert (forall yr' yrs' chk' P' cb' ud',
             cb' = None \/ P' = 0 ->
             progress_reports
               (new_events w
                  (snd (prove_one_weso_slow tid ch chs xs xss yr' yrs' chk' bits T
                          P' cb' ud' w))) = []) as Hcore.
  { intros yr' yrs' chk' P' cb' ud' Hoff'.
    destruct (prove_one_weso_slow tid ch chs xs xss yr' yrs' chk' bits T P' cb' ud' w)
      as [r w'] eqn:Hrun. simpl.
    apply run_trace in Hrun
      as (evs_s & evs_l & evs_f & Happ & Hs & Hf & _ & _ & Hl).
    rewrite (new_events_appended _ _ _ _ Happ), !progress_reports_app.
    destruct (outside_loop _ (setup_outside_loop _ Hs)) as (_ & -> & _).
    destruct (outside_loop _ (finish_outside_loop _ Hf)) as (_ & -> & _).
    destruct Hl as [[-> _] | (s & _ & _ & Htr & _)]; [reflexivity|].
    by rewrite (loop_trace_no_reports _ _ _ _ _ _ _ _ _ Hoff' Htr). }
  split; [by apply Hcore|].
  split; [apply Hcore; by left|].
  split; apply Hcore; by left.
Qed.

(** X2. Every invocation of the callback, in any run, passes the caller's
    callback and user data, and a count that is T or a multiple of the
    cadence and that is exactly the number of squarings called before the
    invocation. *)
Theorem progress_reports_truthful tid ch chs xs xss yr yrs chk bits T P cb ud w :
  let evs :=
    new_events w
      (snd (prove_one_weso_slow tid ch chs xs xss yr yrs chk bits T P cb ud w)) in
  Forall (fun e => match e with
                   | EvProgress c done u =>
                       cb = Some c /\ u = ud /\ P <> 0
                       /\ (done = T \/ done mod P = 0)
                   | _ => True
                   end) evs
  /\ Forall (fun p => fst p = Z.of_nat (snd p)) (reports_with_squarings 0 evs).
Proof.
  intros evs. unfold evs. clear evs.
  destruct (prove_one_weso_slow tid ch chs xs xss yr yrs chk bits T P cb ud w)
    as [r w'] eqn:Hrun. simpl.
  apply run_trace in Hrun
    as (evs_s & evs_l & evs_f & Happ & Hs & Hf & _ & _ & Hl).
  rewrite (new_events_appended _ _ _ _ Happ).
  destruct (outside_loop _ (setup_outside_loop _ Hs)) as (_ & _ & Hs0 & Hsr & _).
  destruct (outside_loop _ (finish_outside_loop _ Hf)) as (_ & _ & _ & Hfr & _).
  split.
  - apply Forall_app. split.
    { eapply Forall_impl; [exact Hs|]. intros e He. by destruct e. }
    apply Forall_app. split.
    + destruct Hl as [[-> _] | (s & _ & _ & Htr & _)]; [constructor|].
      by eapply loop_trace_report_arguments.
    + eapply Forall_impl; [exact Hf|]. intros e He. destruct e; try done.
      simpl in He. by destruct He.
  - rewrite !reports_with_squarings_app, Hsr, Hfr, Hs0, app_nil_r. simpl.
    destruct Hl as [[-> _] | (s & _ & _ & Htr & _)]; [constructor|].
    eapply Forall_impl; [apply (loop_trace_report_counts _ _ _ _ _ _ _ _ _ Htr 0)|].
    intros [d m]. simpl. lia.
Qed.

(** X3. In any run, every squaring that returns is followed at once by the
    reduction of its result, and a squaring that raises is the last call of
    the run; the squaring is called at most T times; and the j-th squaring is
    called, with the discriminant of the challenge and the fourth root of
    its negation, on the start element squared and reduced j times. *)
Theorem squaring_chain tid ch chs xs xss yr yrs chk bits T P cb ud w :
  let evs :=
    new_events w
      (snd (prove_one_weso_slow tid ch chs xs xss yr yrs chk bits T P cb ud w)) in
  reduced_after_squaring evs
  /\ (length (squaring_inputs evs) <= Z.to_nat T)%nat
  /\ (squaring_inputs evs <> [] ->
      exists D L x y0,
        CreateDiscriminant (read_bytes ch chs) (to_int bits) = Ok D
        /\ root (- D) 4 = Ok L
        /\ DeserializeForm D (read_bytes xs xss) = Ok x
        /\ from_abd (form_a x) (form_b x) D = Ok y0
        /\ Forall (fun e => match e with
                            | EvNudupl _ D' L' => D' = D /\ L' = L
                            | _ => True
                            end) evs
        /\ forall (j : nat) f,
             squaring_inputs evs !! j = Some f ->
             square_reduce_n D L j y0 = Ok f).
Proof.
  intros evs. unfold evs. clear evs.
  destruct (prove_one_weso_slow tid ch chs xs xss yr yrs chk bits T P cb ud w)
    as [r w'] eqn:Hrun. simpl.
  apply run_trace in Hrun
    as (evs_s & evs_l & evs_f & Happ & Hs & Hf & Hle & Hfull & Hl).
  rewrite (new_events_appended _ _ _ _ Happ).
  destruct (outside_loop _ (setup_outside_loop _ Hs)) as (Hsi & _ & _ & _ & Hsred).
  destruct (outside_loop _ (finish_outside_loop _ Hf)) as (Hfi & _ & _ & _ & Hfred).
  assert (squaring_inputs (evs_s ++ evs_l ++ evs_f) = squaring_inputs evs_l) as Ein.
  { by rewrite !squaring_inputs_app, Hsi, Hfi, app_nil_r. }
  assert (reduced_after_squaring evs_f) as Hfok.
  { specialize (Hfred []). rewrite app_nil_r in Hfred. by apply Hfred. }
  split; [|split].
  - apply Hsred.
    destruct Hl as [[-> ->] | (s & _ & _ & Htr & Hfin)]; [done|].
    destruct (decide (evs_f = [])) as [-> | Hne].
    + rewrite app_nil_r. by eapply loop_trace_reduced.
    + eapply loop_trace_reduced_app; [exact Htr|by apply Hfull|exact Hfok].
  - by rewrite Ein, length_squaring_inputs.
  - rewrite Ein. intros Hne.
    destruct Hl as [[-> _] | (s & (HD & HL & Hx & Hy & _) & _ & Htr & _)]; [done|].
    exists (su_D s), (su_L s), (su_x s), (su_y s).
    repeat (split; [done|]). split.
    + apply Forall_app. split.
      { eapply Forall_impl; [exact Hs|]. intros e He. by destruct e. }
      apply Forall_app. split; [by eapply loop_trace_squarings_use|].
      eapply Forall_impl; [exact Hf|]. intros e He. destruct e; try done.
      simpl in He. by destruct He.
    + by eapply loop_trace_squaring_inputs.
Qed.

End TraceProperties.

Section DiagnosticsProperties.

Context `{Chiavdf}.

Lemma thread_stats_insert w w' tid s t :
  last_streaming_stats w' = <[tid := s]> (last_streaming_stats w) ->
  thread_stats w' t = if decide (tid = t) then s else thread_stats w t.
Proof.
  intros E. unfold thread_stats. rewrite E, lookup_insert.
  by destruct (decide (tid = t)).
Qed.

(** X4. A call of the proving operation on one thread leaves the published
    plan and the stats of every other thread, the memory budget and the stats
    flag as they were; the trace it finds is a prefix of the trace it leaves,
    and what it adds is tagged with its own thread. *)
Theorem thread_isolation tid ch chs xs xss yr yrs chk bits T P cb ud w t :
  t <> tid ->
  let w' := snd (prove_one_weso_slow tid ch chs xs xss yr yrs chk bits T P cb ud w) in
  thread_parameters w' t = thread_parameters w t
  /\ thread_stats w' t = thread_stats w t
  /\ bucket_memory_budget_bytes w' = bucket_memory_budget_bytes w
  /\ streaming_stats_enabled w' = streaming_stats_enabled w
  /\ trace w' = trace w ++ map (pair tid) (new_events w w').
Proof.
  intros Hne w'. unfold w'. clear w'.
  destruct (prove_one_weso_slow tid ch chs xs xss yr yrs chk bits T P cb ud w)
    as [r w'] eqn:Hrun. simpl.
  pose proof (prove_parameters_frame _ _ _ _ _ _ _ _ _ _ _ _ _ _ _ _ Hrun)
    as (evs & Happ & _).
  rewrite (new_events_appended _ _ _ _ Happ).
  destruct Happ as (Htr & Hb & Hf).
  apply prove_world_frame in Hrun as [[Hpar Hst] | (s & _ & _ & _ & Hpar & Hst)].
  - unfold thread_parameters, thread_stats. rewrite Hpar, Hst. done.
  - rewrite (thread_parameters_insert _ _ _ _ _ Hpar).
    rewrite (thread_stats_insert _ _ _ _ _ Hst).
    rewrite !decide_False by done. done.
Qed.

(** X5. A call that does not get as far as the parameter heuristic (its
    input is rejected, or the discriminant, the root, the deserialization or
    [from_abd] raises) leaves the diagnostics of every thread untouched: the
    query of the last streaming parameters answers after it what it answered
    before, so a plan published by an earlier call stays visible. *)
Theorem early_failure_keeps_diagnostics
    tid ch chs xs xss yr yrs chk bits T P cb ud w r w' :
  prove_one_weso_slow tid ch chs xs xss yr yrs chk bits T P cb ud w = (r, w') ->
  EvApproximateParameters T ∉ new_events w w' ->
  r = Val empty_result
  /\ forall t out_k out_l out_tuned,
       chiavdf_get_last_streaming_parameters t out_k out_l out_tuned w'
       = chiavdf_get_last_streaming_parameters t out_k out_l out_tuned w
       /\ thread_stats w' t = thread_stats w t.
Proof.
  intros Hrun Hnot. split.
  - pose proof Hrun as Hshape. apply prove_run_shape in Hshape.
    destruct Hshape as [Hrej | rs w1 Hsetup Hkl | s w1 rl w2 Hsetup Hkl Hloop Hnv
                        | s w1 st w2 rf w3 Hsetup Hkl Hloop Hfin].
    + reflexivity.
    + destruct rs as [s| |]; try reflexivity.
      by apply setup_defined in Hsetup.
    + exfalso. apply Hnot.
      destruct (setup_loop_run _ _ _ _ _ _ _ _ _ _ _ _ _ _ _ Hsetup Hloop)
        as (evs_s & evs_l & Happ & _ & _ & _ & _ & Hin & _).
      rewrite (new_events_appended _ _ _ _ Happ). apply elem_of_app. by left.
    + exfalso. apply Hnot.
      destruct (setup_loop_run _ _ _ _ _ _ _ _ _ _ _ _ _ _ _ Hsetup Hloop)
        as (evs_s & evs_l & Happ & _ & _ & _ & _ & Hin & _).
      apply finish_run in Hfin as (evs_f & -> & _).
      pose proof (appended_trans _ _ _ _ _ _ Happ
                    (appended_add_events tid evs_f w2)) as Happ3.
      rewrite (new_events_appended _ _ _ _ Happ3).
      apply elem_of_app; left. apply elem_of_app. by left.
  - intros t out_k out_l out_tuned.
    apply prove_world_frame in Hrun as [[Hpar Hst] | (s & _ & _ & Hin & _)];
      [|done].
    unfold chiavdf_get_last_streaming_parameters, thread_parameters, thread_stats.
    by rewrite Hpar, Hst.
Qed.

(** The plan published for a thread, when one is, is made of two positive
    [int]s, with the flag false. *)
Lemma reachable_parameters_range w :
  reachable w ->
  forall tid,
    lsp_set (thread_parameters w tid) = true ->
    1 <= lsp_k (thread_parameters w tid) <= INT_MAX
    /\ 1 <= lsp_l (thread_parameters w tid) <= INT_MAX
    /\ lsp_tuned (thread_parameters w tid) = false.
Proof.
  induction 1 as [|c w Hreach IH]; intros tid Hset.
  - unfold thread_parameters in Hset. simpl in Hset.
    rewrite lookup_empty in Hset. discriminate.
  - destruct c as [tid0 ch chs xs xss yr yrs chk bits T P cb ud|bytes|tid0 enable].
    + simpl in *.
      destruct (prove_one_weso_slow tid0 ch chs xs xss yr yrs chk bits T P cb ud w)
        as [r w'] eqn:Hrun. simpl in *.
      apply prove_world_frame in Hrun
        as [[Hpar _] | (s & Hsok & Hkl & _ & Hpar & _)].
      * assert (thread_parameters w' tid = thread_parameters w tid) as E
          by (unfold thread_parameters; by rewrite Hpar).
        rewrite E in *. by apply IH.
      * rewrite (thread_parameters_insert _ _ _ _ _ Hpar) in *.
        destruct (decide (tid0 = tid)) as [->|Hne]; [|by apply IH].
        destruct (plan_range _ _ _ _ _ _ _ Hsok) as [Hk Hl]. simpl.
        split; [done|]. split; [done|]. done.
    + exact (IH tid Hset).
    + exact (IH tid Hset).
Qed.

(** X6. Whatever calls a process has made, when the query of the last
    streaming parameters returns true it reports k and l between 1 and
    [INT_MAX], the two clamped values, and the flag false: the fallback
    never reports a value below 1, nor a retuned plan. *)
Theorem reported_plan_is_positive w tid out_k out_l out_tuned k l tuned :
  reachable w ->
  chiavdf_get_last_streaming_parameters tid (Some out_k) (Some out_l)
    (Some out_tuned) w = (true, (Some k, Some l, Some tuned)) ->
  1 <= k <= INT_MAX /\ 1 <= l <= INT_MAX /\ tuned = false.
Proof.
  intros Hreach Hget. unfold chiavdf_get_last_streaming_parameters in Hget.
  simpl in Hget.
  destruct (lsp_set (thread_parameters w tid)) eqn:Hset; simpl in Hget;
    [|discriminate].
  destruct (reachable_parameters_range w Hreach tid Hset) as (Hk & Hl & Ht).
  injection Hget as <- <- <-. done.
Qed.

(** The stats of a thread are never anything but the member initialisers. *)
Lemma reachable_stats_init w :
  reachable w -> forall tid, thread_stats w tid = stats_init.
Proof.
  induction 1 as [|c w Hreach IH]; intros tid.
  - unfold thread_stats. simpl. by rewrite lookup_empty.
  - destruct c as [tid0 ch chs xs xss yr yrs chk bits T P cb ud|bytes|tid0 enable].
    + simpl.
      destruct (prove_one_weso_slow tid0 ch chs xs xss yr yrs chk bits T P cb ud w)
        as [r w'] eqn:Hrun. simpl.
      apply prove_world_frame in Hrun as [[_ Hst] | (s & _ & _ & _ & _ & Hst)].
      * unfold thread_stats. rewrite Hst. apply IH.
      * rewrite (thread_stats_insert _ _ _ _ _ Hst).
        destruct (decide (tid0 = tid)); [reflexivity|apply IH].
    + apply IH.
    + simpl. unfold chiavdf_set_enable_streaming_stats, with_stats, thread_stats.
      simpl. rewrite lookup_insert.
      destruct (decide (tid0 = tid)); [reflexivity|apply IH].
Qed.

(** X7. Whatever calls a process has made, with the stats flag on or off,
    the stats of every thread are the member initialisers (all counters 0,
    not set): the fallback records nothing, in keeping with the stats query
    that always reports them unavailable. *)
Theorem stats_never_recorded w tid :
  reachable w ->
  thread_stats w tid = stats_init
  /\ checkpoint_calls (thread_stats w tid) = 0
  /\ lss_set (thread_stats w tid) = false.
Proof.
  intros Hreach. rewrite (reachable_stats_init w Hreach tid). done.
Qed.

End DiagnosticsProperties.

Section ProcessProperties.

Context `{Chiavdf}.

Lemma setup_init tid ch chs xs xss bits T w r w1 :
  setup tid ch chs xs xss bits T w = (r, w1) ->
  init_once w1 = true
  /\ exists rest,
       appended tid ((if init_once w then [] else [EvInitRuntime]) ++ rest) w w1
       /\ Forall (fun e => e <> EvInitRuntime) rest.
Proof.
  unfold setup, call_once_init, bind, call, ret. intros Hrun.
  destruct (init_once w) eqn:Hinit.
  all: repeat case_match; simplify_eq.
  all: split; [done|].
  all: match goal with
       | |- exists rest, appended _ (?pre ++ rest) _ ?w' /\ _ =>
           let evs := events_of w' in
           let evs' := eval simpl in evs in
           lazymatch pre with
           | [] => exists evs'
           | _ => let evs'' := eval simpl in (tail evs') in exists evs''
           end
       end.
  all: split; [solve_appended|].
  all: repeat (apply Forall_cons; split); try apply Forall_nil; done.
Qed.

Lemma phase_not_init (ph : phase) evs :
  ph <> Setup ->
  Forall (fun e => phase_of e = ph) evs ->
  Forall (fun e => e <> EvInitRuntime) evs.
Proof.
  intros Hph Hall. eapply Forall_impl; [exact Hall|].
  intros e He ->. simpl in He. congruence.
Qed.

(** A call that passes the argument checks leaves the runtime initialised;
    it has called the initialisation, first of all, if the runtime was not
    initialised, and not at all if it was. *)
Lemma prove_init tid ch chs xs xss yr yrs chk bits T P cb ud w r w' :
  prove_one_weso_slow tid ch chs xs xss yr yrs chk bits T P cb ud w = (r, w') ->
  w' = w
  \/ (init_once w' = true
      /\ exists rest,
           appended tid ((if init_once w then [] else [EvInitRuntime]) ++ rest) w w'
           /\ Forall (fun e => e <> EvInitRuntime) rest).
Proof.
  intros Hrun. apply prove_run_shape in Hrun.
  destruct Hrun as [Hrej | rs w1 Hsetup Hkl | s w1 rl w2 Hsetup Hkl Hloop Hnv
                    | s w1 st w2 rf w3 Hsetup Hkl Hloop Hfin].
  - by left.
  - right. by apply setup_init in Hsetup.
  - right. apply setup_init in Hsetup as (Hi & rest & Happ & Hrest).
    unfold run_loop in Hloop.
    apply squaring_loop_trace in Hloop as (evs_l & -> & Htr & _).
    split; [exact Hi|]. exists (rest ++ evs_l). split.
    + rewrite app_assoc. eapply appended_trans; [exact Happ|].
      eapply (appended_trans _ [] evs_l); [apply appended_plan_stored|].
      apply appended_add_events.
    + apply Forall_app. split; [exact Hrest|].
      eapply phase_not_init; [|exact (loop_trace_phase _ _ _ _ _ _ _ _ _ Htr)].
      discriminate.
  - right. apply setup_init in Hsetup as (Hi & rest & Happ & Hrest).
    unfold run_loop in Hloop.
    apply squaring_loop_trace in Hloop as (evs_l & -> & Htr & _).
    apply finish_run in Hfin as (evs_f & -> & Hout).
    split; [exact Hi|]. exists (rest ++ evs_l ++ evs_f). split.
    + rewrite app_assoc. eapply appended_trans; [exact Happ|].
      eapply (appended_trans _ [] (evs_l ++ evs_f)); [apply appended_plan_stored|].
      eapply appended_trans; apply appended_add_events.
    + apply Forall_app. split; [exact Hrest|]. apply Forall_app. split.
      * eapply phase_not_init; [|exact (loop_trace_phase _ _ _ _ _ _ _ _ _ Htr)].
        discriminate.
      * apply finish_outcome_phases in Hout.
        eapply Forall_impl; [exact Hout|].
        intros e [He | He] ->; simpl in He; congruence.
Qed.

(** X8. Whatever calls a process has made, on whatever threads, the runtime
    initialisation ([init_chiavdf_runtime], under [std::call_once]) has run
    at most once, and before every library call: it is the first event of
    the trace and occurs nowhere else; and the once-flag is set exactly when
    the trace is not empty. *)
Theorem runtime_initialised_once w :
  reachable w ->
  initialised_first (trace w)
  /\ (init_once w = true <-> trace w <> []).
Proof.
  induction 1 as [|c w Hreach [IHf IHi]].
  - split; [by left|]. simpl. split; [discriminate|done].
  - destruct c as [tid0 ch chs xs xss yr yrs chk bits T P cb ud|bytes|tid0 enable];
      [|by split|by split].
    simpl.
    destruct (prove_one_weso_slow tid0 ch chs xs xss yr yrs chk bits T P cb ud w)
      as [r w'] eqn:Hrun. simpl.
    apply prove_init in Hrun as [-> | (Hi & rest & (Htr & _) & Hrest)];
      [by split|].
    assert (Forall (fun te : nat * event => snd te <> EvInitRuntime)
              (map (pair tid0) rest)) as Hrest'.
    { apply Forall_fmap. eapply Forall_impl; [exact Hrest|]. done. }
    destruct (init_once w) eqn:Hinit.
    + simpl in Htr. destruct IHf as [Hnil | (t & rest0 & E & Hrest0)].
      { exfalso. by apply IHi. }
      rewrite Htr, E. split.
      * right. exists t, (rest0 ++ map (pair tid0) rest). split; [done|].
        apply Forall_app. by split.
      * split; [done|]. by intros _.
    + assert (trace w = []) as E.
      { destruct (trace w) eqn:E; [done|].
        assert (false = true) by (by apply IHi). done. }
      rewrite Htr, E. simpl. split.
      * right. by exists tid0, (map (pair tid0) rest).
      * split; [done|]. by intros _.
Qed.

(** X9. The memory budget and the stats flag of a process are those of the
    last call that set them ([chiavdf_set_bucket_memory_budget_bytes],
    [chiavdf_set_enable_streaming_stats]), or the ones it started with: no
    call of the proving operation changes either. *)
Theorem configuration_persists cs w :
  bucket_memory_budget_bytes (apply_calls cs w)
  = budget_after cs (bucket_memory_budget_bytes w)
  /\ streaming_stats_enabled (apply_calls cs w)
     = stats_flag_after cs (streaming_stats_enabled w).
Proof.
  revert w. induction cs as [|c cs IH]; intros w; [done|].
  simpl. destruct (IH (api_step c w)) as [-> ->].
  destruct c as [tid0 ch chs xs xss yr yrs chk bits T P cb ud|bytes|tid0 enable];
    [|done|done].
  simpl.
  destruct (prove_one_weso_slow tid0 ch chs xs xss yr yrs chk bits T P cb ud w)
    as [r w'] eqn:Hrun. simpl.
  apply prove_parameters_frame in Hrun as (evs & (_ & -> & ->) & _). done.
Qed.

(** X10. The plan published for a thread stays as it is through any
    sequence of calls in which that thread does not call the proving
    operation: calls of other threads, and the two setters (also on the same
    thread: resetting the stats does not reset the plan), leave it. *)
Theorem plan_survives_other_calls cs w tid :
  Forall (fun c => is_prove_by tid c = false) cs ->
  thread_parameters (apply_calls cs w) tid = thread_parameters w tid.
Proof.
  revert w. induction cs as [|c cs IH]; intros w Hall; [done|].
  apply Forall_cons in Hall as [Hc Hall]. simpl. rewrite (IH _ Hall).
  destruct c as [tid0 ch chs xs xss yr yrs chk bits T P cb ud|bytes|tid0 enable];
    [|done|done].
  simpl in Hc. apply bool_decide_eq_false in Hc. simpl.
  destruct (prove_one_weso_slow tid0 ch chs xs xss yr yrs chk bits T P cb ud w)
    as [r w'] eqn:Hrun. simpl.
  apply prove_world_frame in Hrun as [[Hpar _] | (s & _ & _ & _ & Hpar & _)].
  - unfold thread_parameters. by rewrite Hpar.
  - rewrite (thread_parameters_insert _ _ _ _ _ Hpar).
    by rewrite decide_False.
Qed.

Lemma sorted_constant_rank (n : nat) evs :
  Forall (fun e => phase_rank (phase_of e) = n) evs ->
  StronglySorted le (map (fun e => phase_rank (phase_of e)) evs).
Proof.
  induction 1 as [|e evs He Hall IH]; simpl; constructor; [exact IH|].
  apply Forall_fmap. eapply Forall_impl; [exact Hall|].
  intros e' He'. unfold compose. rewrite He, He'. done.
Qed.

Lemma finish_outcome_sorted yr yrs chk T D x k l st evs r :
  finish_outcome yr yrs chk T D x k l st evs r ->
  StronglySorted le (map (fun e => phase_rank (phase_of e)) evs)
  /\ Forall (fun e => 2 <= phase_rank (phase_of e))%nat evs.
Proof.
  destruct 1; try destruct chk; simpl; split;
    repeat (first [apply SSorted_nil | apply SSorted_cons | apply Forall_cons_2
                  | apply Forall_nil_2]);
    simpl; lia.
Qed.

(** X11. The library calls of a run are made in the order of the stages:
    first those of the setup, then squarings, reductions and progress
    reports, then proof generation and the serializations, and last the
    comparison with the reference; no call of an earlier stage follows one
    of a later stage. *)
Theorem stages_in_order tid ch chs xs xss yr yrs chk bits T P cb ud w :
  let w' := snd (prove_one_weso_slow tid ch chs xs xss yr yrs chk bits T P cb ud w) in
  StronglySorted le (map (fun e => phase_rank (phase_of e)) (new_events w w')).
Proof.
  intros w'. unfold w'. clear w'.
  destruct (prove_one_weso_slow tid ch chs xs xss yr yrs chk bits T P cb ud w)
    as [r w'] eqn:Hrun. simpl.
  apply run_trace in Hrun
    as (evs_s & evs_l & evs_f & Happ & Hs & Hf & _ & _ & Hrest).
  rewrite (new_events_appended _ _ _ _ Happ).
  assert (Forall (fun e => phase_rank (phase_of e) = 0%nat) evs_s) as Hs0.
  { eapply Forall_impl; [exact Hs|]. intros e ->. done. }
  assert (Forall (fun e => phase_rank (phase_of e) = 1%nat) evs_l) as Hl1.
  { destruct Hrest as [[-> _] | (s & _ & _ & Htr & _)]; [done|].
    apply loop_trace_phase in Htr.
    eapply Forall_impl; [exact Htr|]. intros e ->. done. }
  assert (StronglySorted le (map (fun e => phase_rank (phase_of e)) evs_f)
          /\ Forall (fun e => 2 <= phase_rank (phase_of e))%nat evs_f) as [Hfs Hf2].
  { destruct Hrest as [[_ ->] | (s & _ & _ & _ & [-> | (st & rf & Hout & _)])].
    - split; [constructor|done].
    - split; [constructor|done].
    - by eapply finish_outcome_sorted. }
  rewrite !map_app.
  apply StronglySorted_app_2; [| by eapply sorted_constant_rank |].
  - intros a b Ha Hb.
    apply list_elem_of_fmap in Ha as (ea & -> & Ha).
    rewrite Forall_forall in Hs0. specialize (Hs0 _ Ha). lia.
  - apply StronglySorted_app_2; [| by eapply sorted_constant_rank | exact Hfs].
    intros a b Ha Hb.
    apply list_elem_of_fmap in Ha as (ea & -> & Ha).
    apply list_elem_of_fmap in Hb as (eb & -> & Hb).
    rewrite Forall_forall in Hl1, Hf2.
    specialize (Hl1 _ Ha). specialize (Hf2 _ Hb). lia.
Qed.

(** X12. For an iteration count up to [UINT64_MAX - INT_MAX], and a
    heuristic whose clamped plan has a product that fits an [int] (beyond
    that [k * l] is not defined in C++), the operation always returns to its
    caller, with a buffer or the empty result: no store goes past the end of
    the checkpoint vector and no exception leaves the function. *)
Theorem returns_to_caller tid ch chs xs xss yr yrs chk bits T P cb ud w :
  0 <= T <= UINT64_MAX - INT_MAX ->
  (forall l0 k0,
      ApproximateParameters T 0 0 = Ok (l0, k0) ->
      fst (clamp_plan l0 k0) * snd (clamp_plan l0 k0) <= INT_MAX) ->
  exists out,
    fst (prove_one_weso_slow tid ch chs xs xss yr yrs chk bits T P cb ud w) = Val out.
Proof.
  intros [HT Hfit] _.
  destruct (prove_one_weso_slow tid ch chs xs xss yr yrs chk bits T P cb ud w)
    as [r w'] eqn:Hrun. simpl.
  pose proof (prove_defined _ _ _ _ _ _ _ _ _ _ _ _ _ _ _ _ HT Hfit Hrun) as Hdef.
  apply prove_run_shape in Hrun.
  destruct Hrun as [Hrej | rs w1 Hsetup Hkl | s w1 rl w2 Hsetup Hkl Hloop Hnv
                    | s w1 st w2 rf w3 Hsetup Hkl Hloop Hfin].
  - by eexists.
  - destruct rs; simpl in *; try (exfalso; by apply Hdef); by eexists.
  - destruct rl; simpl in *; try (exfalso; by apply Hdef); by eexists.
  - destruct rf; simpl in *; try (exfalso; by apply Hdef); by eexists.
Qed.

End ProcessProperties.

Section VariantProperties.

Context `{Chiavdf}.

Lemma silently_ret {A} (a : A) : silently (ret a) (ret a).
Proof. done. Qed.

Lemma silently_undefined {A} : silently (@undefined A) undefined.
Proof. done. Qed.

Lemma silently_bind {A B} (m m' : M A) (f f' : A -> M B) :
  silently m m' -> (forall a, silently (f a) (f' a)) ->
  silently (bind m f) (bind m' f').
Proof.
  intros Hm Hf w. unfold bind. rewrite Hm.
  destruct (m w) as [[a| |] w1]; simpl; [apply Hf|done|done].
Qed.

Lemma silently_try_catch {A} (m m' h h' : M A) :
  silently m m' -> silently h h' ->
  silently (try_catch m h) (try_catch m' h').
Proof.
  intros Hm Hh w. unfold try_catch. rewrite Hm.
  destruct (m w) as [[a| |] w1]; simpl; [done|apply Hh|done].
Qed.

Lemma without_progress_add_event tid e w :
  without_progress (add_event tid e w)
  = if is_progress e then without_progress w
    else add_event tid e (without_progress w).
Proof.
  unfold without_progress, add_event. simpl. rewrite filter_app.
  destruct (is_progress e) eqn:E.
  - rewrite filter_cons_False by (simpl; congruence).
    rewrite filter_nil. by rewrite app_nil_r.
  - rewrite filter_cons_True by done. by rewrite filter_nil.
Qed.

Lemma silently_call {A} tid e (r : result A) :
  is_progress e = false -> silently (call tid e r) (call tid e r).
Proof.
  intros He w. unfold call. simpl.
  by rewrite without_progress_add_event, He.
Qed.

Lemma silently_log tid e :
  is_progress e = false -> silently (log tid e) (log tid e).
Proof.
  intros He w. unfold log. simpl.
  by rewrite without_progress_add_event, He.
Qed.

Lemma silently_report tid cb done ud :
  silently (log tid (EvProgress cb done ud)) (ret tt).
Proof. intros w. unfold log, ret. simpl. by rewrite without_progress_add_event. Qed.

Lemma silently_call_once_init tid :
  silently (call_once_init tid) (call_once_init tid).
Proof.
  intros w. unfold call_once_init. simpl.
  destruct (init_once w); [done|]. simpl.
  unfold without_progress, with_init_done, add_event. simpl.
  rewrite filter_app, filter_cons_True by done. by rewrite filter_nil.
Qed.

Lemma silently_loop_body tid D L kl T P cb ud i st :
  silently (loop_body tid D L kl T P cb ud i st)
           (loop_body tid D L kl T 0 None 0 i st).
Proof.
  unfold loop_body.
  apply silently_bind.
  { repeat case_match; first [apply silently_ret | apply silently_undefined]. }
  intros st1.
  apply silently_bind; [by apply silently_call|]. intros y1.
  apply silently_bind; [by apply silently_call|]. intros y2.
  apply silently_bind; [|intros []; apply silently_ret].
  repeat case_match; first [apply silently_ret | apply silently_report].
Qed.

Lemma silently_squaring_loop tid D L kl T P cb ud n :
  forall i st,
    silently (squaring_loop tid D L kl T P cb ud n i st)
             (squaring_loop tid D L kl T 0 None 0 n i st).
Proof.
  induction n as [|n IH]; intros i st; [apply silently_ret|].
  simpl. apply silently_bind; [apply silently_loop_body|].
  intros st1. apply IH.
Qed.

Lemma silently_finish tid yr yrs chk T D x k l st :
  silently (finish tid yr yrs chk T D x k l st)
           (finish tid yr yrs chk T D x k l st).
Proof.
  unfold finish.
  apply silently_bind; [by apply silently_call|]. intros proof.
  apply silently_bind; [by apply silently_call|]. intros y_ser.
  apply silently_bind; [by apply silently_call|]. intros p_ser.
  case_match; [apply silently_ret|].
  apply silently_bind.
  - destruct chk; [|apply silently_ret].
    apply silently_bind; [by apply silently_log|]. intros _. apply silently_ret.
  - intros []; apply silently_ret.
Qed.

Lemma silently_setup tid ch chs xs xss bits T :
  silently (setup tid ch chs xs xss bits T) (setup tid ch chs xs xss bits T).
Proof.
  unfold setup.
  apply silently_bind; [apply silently_call_once_init|]. intros _.
  repeat (apply silently_bind; [by apply silently_call|]; intros ?).
  apply silently_ret.
Qed.

Lemma silently_prove tid ch chs xs xss yr yrs chk bits T P cb ud :
  silently (prove_one_weso_slow tid ch chs xs xss yr yrs chk bits T P cb ud)
           (prove_one_weso_slow tid ch chs xs xss yr yrs chk bits T 0 None 0).
Proof.
  intros w.
  destruct (is_null ch || (chs =? 0) || is_null xs || (xss =? 0)) eqn:G1.
  { unfold prove_one_weso_slow. by rewrite G1. }
  destruct ((T =? 0) || (bits =? 0)) eqn:G2.
  { unfold prove_one_weso_slow. by rewrite G1, G2. }
  rewrite !try_block_stages by done. revert w.
  apply silently_try_catch; [|apply silently_ret].
  unfold try_block.
  apply silently_bind; [apply silently_setup|]. intros s.
  destruct (clamp_plan _ _) as [k l].
  case_match; [apply silently_ret|].
  apply silently_bind; [done|]. intros _.
  apply silently_bind; [done|]. intros _.
  apply silently_bind; [apply silently_squaring_loop|]. intros st.
  apply silently_finish.
Qed.

(** X13. Progress reporting is observation only: an entry point with
    progress returns what the one without returns, and leaves the process in
    the same state but for the callback invocations in the trace. Taking
    the invocations out of the state before and after the call with
    progress gives the states before and after the call without. *)
Theorem progress_is_observation_only tid ch chs xs xss yr yrs bits T P cb ud w :
  chiavdf_prove_one_weso_fast tid ch chs xs xss bits T (without_progress w)
  = (fst (chiavdf_prove_one_weso_fast_with_progress
            tid ch chs xs xss bits T P cb ud w),
     without_progress
       (snd (chiavdf_prove_one_weso_fast_with_progress
               tid ch chs xs xss bits T P cb ud w)))
  /\ chiavdf_prove_one_weso_fast_streaming tid ch chs xs xss yr yrs bits T
       (without_progress w)
     = (fst (chiavdf_prove_one_weso_fast_streaming_with_progress
               tid ch chs xs xss yr yrs bits T P cb ud w),
        without_progress
          (snd (chiavdf_prove_one_weso_fast_streaming_with_progress
                  tid ch chs xs xss yr yrs bits T P cb ud w)))
  /\ chiavdf_prove_one_weso_fast_streaming_getblock_opt
       tid ch chs xs xss yr yrs bits T (without_progress w)
     = (fst (chiavdf_prove_one_weso_fast_streaming_getblock_opt_with_progress
               tid ch chs xs xss yr yrs bits T P cb ud w),
        without_progress
          (snd (chiavdf_prove_one_weso_fast_streaming_getblock_opt_with_progress
                  tid ch chs xs xss yr yrs bits T P cb ud w))).
Proof.
  split; [|split]; apply silently_prove.
Qed.

(** The last stage with the comparison and without it, from the same state:
    when the stage without it returns a buffer, the stage with it makes the
    same calls, then the comparison, and withholds the buffer exactly when
    the comparison fails; otherwise the two do the same. *)
Lemma finish_with_check tid yr yrs yr' yrs' T D x k l st w :
  let checked := finish tid yr yrs true T D x k l st w in
  let unchecked := finish tid yr' yrs' false T D x k l st w in
  (exists proof y_ser p_ser out,
      SerializeForm (ls_y st) (num_bits D) = Ok y_ser
      /\ SerializeForm proof (num_bits D) = Ok p_ser
      /\ out = mk_byte_array (Some (y_ser ++ p_ser))
                 (Z.of_nat (length y_ser) + Z.of_nat (length p_ser))
      /\ unchecked
         = (Val out,
            add_events tid
              [EvGenerateWesolowski (ls_y st) x D (ls_intermediates st) T
                 (wrap_u64 k) (wrap_u64 l);
               EvSerializeForm (ls_y st) (num_bits D);
               EvSerializeForm proof (num_bits D)] w)
      /\ checked
         = (Val (if y_ref_matches y_ser yr yrs then out else empty_result),
            add_event tid (EvCheckYRef y_ser) (snd unchecked)))
  \/ (checked = unchecked
      /\ (fst unchecked = Throw \/ fst unchecked = Val empty_result)).
Proof.
  unfold finish, bind, call, log, ret. simpl.
  destruct (GenerateWesolowski _ _ _ _ _ _ _) as [proof|];
    [|right; split; [reflexivity|by left]].
  destruct (SerializeForm (ls_y st) _) as [y_ser|] eqn:Ey;
    [|right; split; [reflexivity|by left]].
  destruct (SerializeForm proof _) as [p_ser|] eqn:Ep;
    [|right; split; [reflexivity|by left]].
  destruct (bool_decide (y_ser = []) || bool_decide (p_ser = []));
    [right; split; [reflexivity|by right]|].
  left. exists proof, y_ser, p_ser. eexists. norm_events.
  split; [reflexivity|]. split; [exact Ep|]. split; [reflexivity|].
  split; [reflexivity|].
  destruct (y_ref_matches y_ser yr yrs); cbn [snd]; norm_events; reflexivity.
Qed.

Lemma prove_with_check tid ch chs xs xss yr yrs yr' yrs' bits T P cb ud w :
  let checked :=
    prove_one_weso_slow tid ch chs xs xss yr yrs true bits T P cb ud w in
  let unchecked :=
    prove_one_weso_slow tid ch chs xs xss yr' yrs' false bits T P cb ud w in
  (forall out,
      fst unchecked = Val out -> out <> empty_result ->
      exists pre y x D intermediates k l proof y_ser p_ser,
        new_events w (snd unchecked)
        = pre ++ [EvGenerateWesolowski y x D intermediates T k l;
                  EvSerializeForm y (num_bits D);
                  EvSerializeForm proof (num_bits D)]
        /\ SerializeForm y (num_bits D) = Ok y_ser
        /\ SerializeForm proof (num_bits D) = Ok p_ser
        /\ out = mk_byte_array (Some (y_ser ++ p_ser))
                   (Z.of_nat (length y_ser) + Z.of_nat (length p_ser))
        /\ snd checked = add_event tid (EvCheckYRef y_ser) (snd unchecked)
        /\ new_events w (snd checked)
           = new_events w (snd unchecked) ++ [EvCheckYRef y_ser]
        /\ fst checked
           = Val (if y_ref_matches y_ser yr yrs then out else empty_result))
  /\ ((forall out, fst unchecked = Val out -> out = empty_result) ->
      checked = unchecked).
Proof.
  intros checked unchecked. unfold checked, unchecked. clear checked unchecked.
  assert (forall (r : outcome ChiavdfByteArray) (v : world) P,
             (r = Throw \/ r = Undefined \/ r = Val empty_result) ->
             (forall out, fst (r, v) = Val out -> out <> empty_result -> P out)
             /\ ((forall out, fst (r, v) = Val out -> out = empty_result) ->
                 (r, v) = (r, v))) as Hsame.
  { intros r v Q Hr. split; [|done]. intros out Hout Hne. simpl in Hout.
    destruct Hr as [-> | [-> | ->]]; congruence. }
  destruct (is_null ch || (chs =? 0) || is_null xs || (xss =? 0)) eqn:G1.
  { unfold prove_one_weso_slow. rewrite G1. apply Hsame. tauto. }
  destruct ((T =? 0) || (bits =? 0)) eqn:G2.
  { unfold prove_one_weso_slow. rewrite G1, G2. apply Hsame. tauto. }
  rewrite !try_block_stages by done.
  unfold try_catch, try_block, bind, ret.
  destruct (setup tid ch chs xs xss bits T w) as [[s| |] w1] eqn:Hsetup;
    [|apply Hsame; tauto..].
  destruct (clamp_plan _ _) as [k l].
  destruct (int_mul k l <=? 0); [apply Hsame; tauto|].
  unfold set_last_streaming_parameters, set_last_streaming_stats.
  destruct (squaring_loop _ _ _ _ _ _ _ _ _ _ _ _) as [[st| |] w2] eqn:Hloop;
    [|apply Hsame; tauto..].
  assert (exists pre, appended tid pre w w2) as [pre Happ].
  { apply setup_run in Hsetup as (evs_s & Happ & _).
    apply squaring_loop_trace in Hloop as (evs_l & -> & _).
    exists (evs_s ++ ([] ++ evs_l)).
    eapply appended_trans; [exact Happ|].
    eapply appended_trans; [apply (appended_plan_stored tid k l)|].
    apply appended_add_events. }
  destruct (finish_with_check tid yr yrs yr' yrs' T (su_D s) (su_x s) k l st w2)
    as [(proof & y_ser & p_ser & out0 & Ey & Ep & Eout & E1 & E2)
       | (E & Hr)].
  - rewrite E2, E1. cbn [fst snd]. split.
    + intros out Hout Hne. injection Hout as <-.
      exists pre, (ls_y st), (su_x s), (su_D s), (ls_intermediates st),
        (wrap_u64 k), (wrap_u64 l), proof, y_ser, p_ser.
      pose proof (appended_trans _ _ _ _ _ _ Happ
                    (appended_add_events tid
                       [EvGenerateWesolowski (ls_y st) (su_x s) (su_D s)
                          (ls_intermediates st) T (wrap_u64 k) (wrap_u64 l);
                        EvSerializeForm (ls_y st) (num_bits (su_D s));
                        EvSerializeForm proof (num_bits (su_D s))] w2))
        as Happ3.
      pose proof (appended_trans _ _ _ _ _ _ Happ3
                    (appended_add_events tid [EvCheckYRef y_ser] _)) as Happ4.
      rewrite add_event_events.
      rewrite (new_events_appended _ _ _ _ Happ3).
      rewrite (new_events_appended _ _ _ _ Happ4).
      split; [reflexivity|]. split; [exact Ey|]. split; [exact Ep|].
      split; [exact Eout|]. split; [reflexivity|]. split; [reflexivity|].
      by destruct (y_ref_matches y_ser yr yrs).
    + intros Hempty. exfalso.
      specialize (Hempty out0 eq_refl). rewrite Eout in Hempty. discriminate.
  - rewrite E.
    destruct (finish tid yr' yrs' false T (su_D s) (su_x s) k l st w2)
      as [r2 v2]. simpl in Hr.
    destruct Hr as [-> | ->]; apply Hsame; tauto.
Qed.

(** X14. A streaming entry point does what the plain one does, and then
    compares. From the same state: when the plain call returns a buffer, it
    is the bytes of y followed by those of the proof, the streaming call
    makes the same library calls followed by the comparison of the bytes of
    y with the reference, and it returns that same buffer when the
    comparison succeeds and the empty result when it fails; and when the
    plain call returns no buffer, the streaming call has the same result and
    leaves the same state, without a comparison. *)
Theorem streaming_is_plain_then_check tid ch chs xs xss yr yrs bits T P cb ud w :
  let related (streaming plain : outcome ChiavdfByteArray * world) :=
    (forall out,
        fst plain = Val out -> out <> empty_result ->
        exists pre y x D intermediates k l proof y_ser p_ser,
          new_events w (snd plain)
          = pre ++ [EvGenerateWesolowski y x D intermediates T k l;
                    EvSerializeForm y (num_bits D);
                    EvSerializeForm proof (num_bits D)]
          /\ SerializeForm y (num_bits D) = Ok y_ser
          /\ SerializeForm proof (num_bits D) = Ok p_ser
          /\ out = mk_byte_array (Some (y_ser ++ p_ser))
                     (Z.of_nat (length y_ser) + Z.of_nat (length p_ser))
          /\ snd streaming = add_event tid (EvCheckYRef y_ser) (snd plain)
          /\ new_events w (snd streaming)
             = new_events w (snd plain) ++ [EvCheckYRef y_ser]
          /\ fst streaming
             = Val (if y_ref_matches y_ser yr yrs then out else empty_result))
    /\ ((forall out, fst plain = Val out -> out = empty_result) ->
        streaming = plain) in
  related
    (chiavdf_prove_one_weso_fast_streaming tid ch chs xs xss yr yrs bits T w)
    (chiavdf_prove_one_weso_fast tid ch chs xs xss bits T w)
  /\ related
       (chiavdf_prove_one_weso_fast_streaming_with_progress
          tid ch chs xs xss yr yrs bits T P cb ud w)
       (chiavdf_prove_one_weso_fast_with_progress
          tid ch chs xs xss bits T P cb ud w)
  /\ related
       (chiavdf_prove_one_weso_fast_streaming_getblock_opt
          tid ch chs xs xss yr yrs bits T w)
       (chiavdf_prove_one_weso_fast tid ch chs xs xss bits T w)
  /\ related
       (chiavdf_prove_one_weso_fast_streaming_getblock_opt_with_progress
          tid ch chs xs xss yr yrs bits T P cb ud w)
       (chiavdf_prove_one_weso_fast_with_progress
          tid ch chs xs xss bits T P cb ud w).
Proof.
  intros related. unfold related.
  split; [|split; [|split]]; apply prove_with_check.
Qed.

End VariantProperties.

Section VectorSize.

Context `{Chiavdf}.

Lemma setup_ok_run tid ch chs xs xss bits T s w :
  setup_ok ch chs xs xss bits T s ->
  exists w1, setup tid ch chs xs xss bits T w = (Val s, w1).
Proof.
  intros (E1 & E2 & E3 & E4 & E5). destruct s as [D L x y lk]. simpl in *.
  unfold setup, call_once_init, bind, call, ret.
  destruct (init_once w); rewrite E1, E2, E3, E4, E5; by eexists.
Qed.

Lemma squaring_loop_empty_vector tid D L kl T P cb ud n y w :
  fst (squaring_loop tid D L kl T P cb ud (S n) 0 (mk_loop y [] 0%nat) w)
  = Undefined.
Proof. reflexivity. Qed.

(** X15. The size of the checkpoint vector is computed on [uint64_t]: for
    an iteration count within [kl - 1] of [UINT64_MAX] (with [kl >= 2]) the
    sum [num_iterations + kl - 1] wraps, the vector is created empty, and
    the store of the first checkpoint, at iteration 0, is past its end. *)
Theorem wrapped_vector_size tid ch chs xs xss yr yrs chk bits T P cb ud w s :
  (is_null ch || (chs =? 0) || is_null xs || (xss =? 0)) = false ->
  bits <> 0 ->
  setup_ok ch chs xs xss bits T s ->
  2 <= kl_of s ->
  UINT64_MAX + 1 - kl_of s < T <= UINT64_MAX ->
  wrap_u64 (T + kl_of s - 1) / kl_of s = 0
  /\ fst (prove_one_weso_slow tid ch chs xs xss yr yrs chk bits T P cb ud w)
     = Undefined.
Proof.
  intros G1 Hbits Hok Hkl [Hlo Hhi].
  pose proof (to_int_range (fst (plan_of s) * snd (plan_of s))) as Hr.
  fold (int_mul (fst (plan_of s)) (snd (plan_of s))) in Hr.
  fold (kl_of s) in Hr.
  assert (0 < T) as HT by (unfold UINT64_MAX, INT_MAX in *; lia).
  assert (wrap_u64 (T + kl_of s - 1) / kl_of s = 0) as Hsize.
  { unfold wrap_u64, UINT64_MAX, INT_MAX in *.
    assert ((T + kl_of s - 1) mod 2 ^ 64 = T + kl_of s - 1 - 2 ^ 64) as ->.
    { symmetry. apply (Z.mod_unique _ _ 1); lia. }
    apply Z.div_small. lia. }
  split; [exact Hsize|].
  assert (((T =? 0) || (bits =? 0)) = false) as G2.
  { apply orb_false_iff. split; apply Z.eqb_neq; lia. }
  rewrite try_block_stages by done.
  destruct (setup_ok_run tid _ _ _ _ _ _ _ w Hok) as [w1 Hsetup].
  unfold try_catch, try_block, bind at 1. rewrite Hsetup.
  unfold kl_of, plan_of in *.
  destruct (clamp_plan _ _) as [k l]. simpl in Hkl, Hsize, Hlo.
  destruct (Z.leb_spec (int_mul k l) 0) as [|_]; [lia|].
  unfold set_last_streaming_parameters, set_last_streaming_stats, bind at 1 2.
  rewrite Hsize. simpl replicate.
  destruct (Z.to_nat T) as [|n] eqn:En; [lia|].
  match goal with
  | |- context [bind (squaring_loop ?a ?b ?c ?d ?e ?f ?g ?h (S n) 0 ?st) ?k ?v] =>
      pose proof (squaring_loop_empty_vector a b c d e f g h n (su_y s) v)
        as Hloop;
      unfold bind at 1;
      destruct (squaring_loop a b c d e f g h (S n) 0 st v) as [r2 w2]
  end.
  simpl in Hloop. by subst.
Qed.

End VectorSize.

Section ResultBuffer.

Context `{Chiavdf}.

(** X16. What the operation returns is the empty result (null data, length
    0) or a buffer whose length field is the number of its bytes, at least
    two: a null pointer never comes with a non-zero length, nor a length
    with fewer or more bytes than it says. *)
Theorem result_buffer_well_formed
    tid ch chs xs xss yr yrs chk bits T P cb ud w out :
  fst (prove_one_weso_slow tid ch chs xs xss yr yrs chk bits T P cb ud w)
  = Val out ->
  out = empty_result
  \/ exists bytes,
       ba_data out = Some bytes
       /\ ba_length out = Z.of_nat (length bytes)
       /\ (2 <= length bytes)%nat.
Proof.
  destruct (prove_one_weso_slow tid ch chs xs xss yr yrs chk bits T P cb ud w)
    as [r w'] eqn:Hrun. simpl. intros ->.
  apply prove_run_shape in Hrun.
  inversion Hrun as [Hrej E1 E2 | rs w1 Hsetup Hkl E1 E2
                     | s w1 rl w2 Hsetup Hkl Hloop Hnv E1 E2
                     | s w1 st w2 rf w3 Hsetup Hkl Hloop Hfin E1 E2].
  - by left.
  - left. destruct rs; simpl in E1; congruence.
  - left. destruct rl; simpl in E1; congruence.
  - apply finish_run in Hfin as (evs_f & _ & Hout).
    destruct Hout as [| | | |proof y_ser p_ser Eg Ey Ep Hy Hp]; simpl in E1;
      try (left; congruence).
    destruct (negb chk || y_ref_matches y_ser yr yrs); [|left; congruence].
    right. exists (y_ser ++ p_ser). injection E1 as <-. simpl.
    split; [done|]. rewrite length_app. split; [lia|].
    destruct y_ser; [done|]. destruct p_ser; [done|]. simpl. lia.
Qed.

End ResultBuffer.

(** ** The properties above on runs of the small instance *)

Lemma no_progress_when_disabled_witness :
  let w' := snd (Toy.run (Some [x09; x0a]) 2 true 3 0 (Some 7%nat)) in
  (Some 7%nat = None \/ 0 = 0)
  /\ progress_reports (new_events initial_world w') = [].
Proof.
  intros w'.
  assert (Some 7%nat = None \/ 0 = 0) as Hoff by (right; reflexivity).
  split; [exact Hoff|].
  exact (proj1 (no_progress_when_disabled (H := Toy.toy) 0%nat (Some Toy.challenge) 4
                  (Some Toy.x_bytes) 2 (Some [x09; x0a]) 2 true 1024 3 0
                  (Some 7%nat) 0 initial_world Hoff)).
Defined.

Lemma thread_isolation_witness :
  let w' := snd (Toy.run None 0 false 20 0 None) in
  1%nat <> 0%nat
  /\ thread_parameters w' 1 = thread_parameters initial_world 1
  /\ thread_stats w' 1 = thread_stats initial_world 1
  /\ bucket_memory_budget_bytes w' = bucket_memory_budget_bytes initial_world
  /\ streaming_stats_enabled w' = streaming_stats_enabled initial_world
  /\ trace w' = trace initial_world ++ map (pair 0%nat) (new_events initial_world w').
Proof.
  intros w'.
  assert (1%nat <> 0%nat) as Hne by discriminate.
  split; [exact Hne|].
  exact (thread_isolation (H := Toy.toy) 0%nat (Some Toy.challenge) 4
           (Some Toy.x_bytes) 2 None 0 false 1024 20 0 None 0 initial_world
           1%nat Hne).
Defined.

Lemma early_failure_keeps_diagnostics_witness :
  let w := snd (Toy.run None 0 false 20 0 None) in
  let bad :=
    prove_one_weso_slow (H := Toy.toy) 0%nat (Some Toy.challenge) 4
      (Some [x03]) 1 None 0 false 1024 20 0 None 0 w in
  bad = (fst bad, snd bad)
  /\ (EvApproximateParameters 20 ∉ new_events w (snd bad))
  /\ chiavdf_get_last_streaming_parameters 0%nat (Some 0) (Some 0) (Some true) w
     = (true, (Some 2, Some 2, Some false))
  /\ fst bad = Val empty_result
  /\ chiavdf_get_last_streaming_parameters 0%nat (Some 0) (Some 0) (Some true)
       (snd bad)
     = chiavdf_get_last_streaming_parameters 0%nat (Some 0) (Some 0) (Some true) w.
Proof.
  intros w bad.
  assert (bad = (fst bad, snd bad)) as Hrun by (vm_compute; reflexivity).
  assert (EvApproximateParameters 20 ∉ new_events w (snd bad)) as Hnot.
  { intros Hin. apply list_elem_of_In in Hin. vm_compute in Hin.
    repeat (destruct Hin as [Hin | Hin]; [discriminate Hin|]). exact Hin. }
  pose proof (early_failure_keeps_diagnostics (H := Toy.toy) 0%nat
                (Some Toy.challenge) 4 (Some [x03]) 1 None 0 false 1024 20 0
                None 0 w (fst bad) (snd bad) Hrun Hnot) as [W1 W2].
  split; [exact Hrun|]. split; [exact Hnot|].
  split; [vm_compute; reflexivity|]. split; [exact W1|].
  exact (proj1 (W2 0%nat (Some 0) (Some 0) (Some true))).
Defined.

Lemma reported_plan_is_positive_witness :
  let w :=
    api_step (H := Toy.toy)
      (Call_prove 0%nat (Some Toy.challenge) 4 (Some Toy.x_bytes) 2 None 0 false
         1024 20 0 None 0) initial_world in
  reachable (H := Toy.toy) w
  /\ chiavdf_get_last_streaming_parameters 0%nat (Some 0) (Some 0) (Some true) w
     = (true, (Some 2, Some 2, Some false))
  /\ 1 <= 2 <= INT_MAX /\ 1 <= 2 <= INT_MAX /\ false = false.
Proof.
  intros w.
  assert (reachable (H := Toy.toy) w) as Hreach
    by (apply reachable_step; apply reachable_initial).
  assert (chiavdf_get_last_streaming_parameters 0%nat (Some 0) (Some 0)
            (Some true) w = (true, (Some 2, Some 2, Some false))) as Hget
    by (vm_compute; reflexivity).
  split; [exact Hreach|]. split; [exact Hget|].
  exact (reported_plan_is_positive (H := Toy.toy) w 0%nat 0 0 true 2 2 false
           Hreach Hget).
Defined.

Lemma stats_never_recorded_witness :
  let w :=
    api_step (H := Toy.toy)
      (Call_prove 0%nat (Some Toy.challenge) 4 (Some Toy.x_bytes) 2 None 0 false
         1024 20 0 None 0)
      (api_step (H := Toy.toy) (Call_set_enable_streaming_stats 0%nat true)
         initial_world) in
  reachable (H := Toy.toy) w
  /\ streaming_stats_enabled w = true
  /\ thread_stats w 0 = stats_init
  /\ checkpoint_calls (thread_stats w 0) = 0
  /\ lss_set (thread_stats w 0) = false.
Proof.
  intros w.
  assert (reachable (H := Toy.toy) w) as Hreach
    by (do 2 apply reachable_step; apply reachable_initial).
  split; [exact Hreach|]. split; [vm_compute; reflexivity|].
  exact (stats_never_recorded (H := Toy.toy) w 0%nat Hreach).
Defined.

Lemma runtime_initialised_once_witness :
  let call :=
    Call_prove 0%nat (Some Toy.challenge) 4 (Some Toy.x_bytes) 2 None 0 false
      1024 2 0 None 0 in
  let w := api_step (H := Toy.toy) call (api_step (H := Toy.toy) call initial_world) in
  reachable (H := Toy.toy) w
  /\ initialised_first (trace w)
  /\ (init_once w = true <-> trace w <> []).
Proof.
  intros call w.
  assert (reachable (H := Toy.toy) w) as Hreach
    by (do 2 apply reachable_step; apply reachable_initial).
  split; [exact Hreach|].
  exact (runtime_initialised_once (H := Toy.toy) w Hreach).
Defined.

Lemma plan_survives_other_calls_witness :
  let w := snd (Toy.run None 0 false 20 0 None) in
  let cs :=
    [Call_set_enable_streaming_stats 0%nat false;
     Call_prove 1%nat (Some Toy.challenge) 4 (Some Toy.x_bytes) 2 None 0 false
       1024 3 0 None 0;
     Call_set_bucket_memory_budget_bytes 7] in
  Forall (fun c => is_prove_by 0 c = false) cs
  /\ thread_parameters w 0 = mk_params 2 2 false true
  /\ thread_parameters (apply_calls (H := Toy.toy) cs w) 0 = thread_parameters w 0.
Proof.
  intros w cs.
  assert (Forall (fun c => is_prove_by 0 c = false) cs) as Hall.
  { repeat (apply Forall_cons_2; [reflexivity|]). apply Forall_nil_2. }
  split; [exact Hall|]. split; [vm_compute; reflexivity|].
  exact (plan_survives_other_calls (H := Toy.toy) cs w 0%nat Hall).
Defined.

Lemma returns_to_caller_witness :
  0 <= 3 <= UINT64_MAX - INT_MAX
  /\ (forall l0 k0,
        ApproximateParameters (Chiavdf := Toy.toy) 3 0 0 = Ok (l0, k0) ->
        fst (clamp_plan l0 k0) * snd (clamp_plan l0 k0) <= INT_MAX)
  /\ exists out, fst (Toy.run None 0 false 3 0 None) = Val out.
Proof.
  assert (0 <= 3 <= UINT64_MAX - INT_MAX) as HT by (vm_compute; split; discriminate).
  assert (forall l0 k0,
             ApproximateParameters (Chiavdf := Toy.toy) 3 0 0 = Ok (l0, k0) ->
             fst (clamp_plan l0 k0) * snd (clamp_plan l0 k0) <= INT_MAX) as Hfit.
  { intros l0 k0 E. injection E as <- <-. vm_compute. discriminate. }
  split; [exact HT|]. split; [exact Hfit|].
  exact (returns_to_caller (H := Toy.toy) 0%nat (Some Toy.challenge) 4
           (Some Toy.x_bytes) 2 None 0 false 1024 3 0 None 0 initial_world HT
           Hfit).
Defined.

Lemma wrapped_vector_size_witness :
  let s := mk_setup (-19) 2 (mk_form 3 5 3) (mk_form 3 5 3) (2, 2) in
  (is_null (Some Toy.challenge) || (4 =? 0) || is_null (Some Toy.x_bytes) || (2 =? 0))
  = false
  /\ 1024 <> 0
  /\ setup_ok (H := Toy.toy) (Some Toy.challenge) 4 (Some Toy.x_bytes) 2 1024
       UINT64_MAX s
  /\ 2 <= kl_of s
  /\ UINT64_MAX + 1 - kl_of s < UINT64_MAX <= UINT64_MAX
  /\ wrap_u64 (UINT64_MAX + kl_of s - 1) / kl_of s = 0
  /\ fst (prove_one_weso_slow (H := Toy.toy) 0%nat (Some Toy.challenge) 4
            (Some Toy.x_bytes) 2 None 0 false 1024 UINT64_MAX 0 None 0
            initial_world)
     = Undefined.
Proof.
  intros s.
  assert ((is_null (Some Toy.challenge) || (4 =? 0) || is_null (Some Toy.x_bytes)
           || (2 =? 0)) = false) as G1 by reflexivity.
  assert (1024 <> 0) as Hbits by discriminate.
  assert (setup_ok (H := Toy.toy) (Some Toy.challenge) 4 (Some Toy.x_bytes) 2 1024
            UINT64_MAX s) as Hok.
  { repeat split; vm_compute; reflexivity. }
  assert (2 <= kl_of s) as Hkl by (vm_compute; discriminate).
  assert (UINT64_MAX + 1 - kl_of s < UINT64_MAX <= UINT64_MAX) as HT.
  { split; vm_compute; [reflexivity|discriminate]. }
  split; [exact G1|]. split; [exact Hbits|]. split; [exact Hok|].
  split; [exact Hkl|]. split; [exact HT|].
  exact (wrapped_vector_size (H := Toy.toy) 0%nat (Some Toy.challenge) 4
           (Some Toy.x_bytes) 2 None 0 false 1024 UINT64_MAX 0 None 0
           initial_world s G1 Hbits Hok Hkl HT).
Defined.

Lemma result_buffer_well_formed_witness :
  let out := mk_byte_array (Some [x09; x0a; x04; x0a]) 4 in
  fst (Toy.run None 0 false 1 0 None) = Val out
  /\ (out = empty_result
      \/ exists bytes,
           ba_data out = Some bytes
           /\ ba_length out = Z.of_nat (length bytes)
           /\ (2 <= length bytes)%nat).
Proof.
  intros out.
  assert (fst (Toy.run None 0 false 1 0 None) = Val out) as Hrun
    by (vm_compute; reflexivity).
  split; [exact Hrun|].
  exact (result_buffer_well_formed (H := Toy.toy) 0%nat (Some Toy.challenge) 4
           (Some Toy.x_bytes) 2 None 0 false 1024 1 0 None 0 initial_world out
           Hrun).
Defined.

Lemma streaming_is_plain_then_check_witness :
  let plain :=
    chiavdf_prove_one_weso_fast (H := Toy.toy) 0%nat (Some Toy.challenge) 4
      (Some Toy.x_bytes) 2 1024 1 initial_world in
  let streaming :=
    chiavdf_prove_one_weso_fast_streaming (H := Toy.toy) 0%nat
      (Some Toy.challenge) 4 (Some Toy.x_bytes) 2 (Some [x00; x00]) 2 1024 1
      initial_world in
  let out := mk_byte_array (Some [x09; x0a; x04; x0a]) 4 in
  fst plain = Val out
  /\ out <> empty_result
  /\ exists y_ser,
       new_events initial_world (snd streaming)
       = new_events initial_world (snd plain) ++ [EvCheckYRef y_ser]
       /\ fst streaming
          = Val (if y_ref_matches y_ser (Some [x00; x00]) 2 then out
                 else empty_result).
Proof.
  intros plain streaming out.
  assert (fst plain = Val out) as Hplain by (vm_compute; reflexivity).
  assert (out <> empty_result) as Hne by discriminate.
  destruct (streaming_is_plain_then_check (H := Toy.toy) 0%nat
              (Some Toy.challenge) 4 (Some Toy.x_bytes) 2 (Some [x00; x00]) 2
              1024 1 0 None 0 initial_world) as [[W _] _].
  destruct (W out Hplain Hne)
    as (pre & y & x & D & inter & k & l & proof & y_ser & p_ser
        & _ & _ & _ & _ & _ & E1 & E2).
  split; [exact Hplain|]. split; [exact Hne|].
  exists y_ser. split; [exact E1|exact E2].
Defined.
